(** * gpu-pcie-bench: a shallow embedding of [main.cpp]

    The benchmark measures host <-> GPU transfer bandwidth through OpenCL.
    This development embeds the program as Rocq functions:

    - [size_t] and [int] values are integers in [Z], with the wrap-around of
      the conversions and of the multiplication written out; the width of
      [size_t] is a parameter ([arch]), as the source distinguishes 64-bit
      targets;
    - [std::vector<size_t>] is [list Z], [std::string] is [string];
    - [double] arithmetic is an interface ([DoubleOps]) with two instances,
      IEEE binary64 ([float]) and exact rationals ([Q]);
    - what a run reads from its environment is a record of answers
      ([runtime]): the lines of /proc/cpuinfo and what each OpenCL call
      answers; the console output and the API calls of a run are recorded
      as a list of [event]s; a number is recorded as the value given to the
      stream, before it is formatted, and a line is recorded when it is
      complete;
    - [return] from [main], [exit] and an uncaught exception are the ways a
      run ends ([outcome]).

    The build is the Linux one with libstdc++.  Not modelled: the text of
    the help message, the characters of the name of the GPU (only whether
    there are any), the content of the buffers ([memset]), a failed
    allocation of a [std::vector], and the Windows build ([__cpuid] and the
    pause before exit). *)

From Stdlib Require Import ZArith QArith Lqa Floats List Bool Lia Permutation Sorted.
From Stdlib Require Import String Ascii.
Import ListNotations.
Local Open Scope string_scope.
Local Open Scope list_scope.
Local Open Scope Z_scope.

(** ** Target platform

    The source tests [UINTPTR_MAX == 0xffffffffffffffff] to decide whether
    the large buffer sizes exist; [size_t] has the width of a pointer. *)

Inductive arch : Type := Ptr32 | Ptr64.

Definition size_bits (a : arch) : Z :=
  match a with Ptr32 => 32 | Ptr64 => 64 end.

(** [static_cast<size_t>] of an unsigned value. *)
Definition to_size_t (a : arch) (z : Z) : Z := z mod 2 ^ size_bits a.

Definition ULLONG_MAX : Z := 2 ^ 64 - 1.
Definition INT_MIN : Z := - 2 ^ 31.
Definition INT_MAX : Z := 2 ^ 31 - 1.

(** ** Size catalog *)

(** The vector [staticSizes] of [filter_static_sizes_by_gpu_memory]. *)
Definition staticSizes (a : arch) : list Z :=
  [ 512 * 1024;
    1 * 1024 * 1024;
    10 * 1024 * 1024;
    100 * 1024 * 1024;
    512 * 1024 * 1024 ]
  ++ match a with
     | Ptr64 => [ 1024 * 1024 * 1024; 2048 * 1024 * 1024; 4096 * 1024 * 1024 ]
     | Ptr32 => []
     end.

(** The initial value of [sizes] in [main]. *)
Definition default_sizes (a : arch) : list Z :=
  [ 512 * 1024;
    1 * 1024 * 1024;
    10 * 1024 * 1024;
    100 * 1024 * 1024;
    512 * 1024 * 1024 ]
  ++ match a with
     | Ptr64 => [ 1024 * 1024 * 1024; 2048 * 1024 * 1024; 4096 * 1024 * 1024 ]
     | Ptr32 => []
     end.

(** [sizes.erase(std::remove(sizes.begin(), sizes.end(), sz), sizes.end())] *)
Definition erase_remove (sz : Z) (sizes : list Z) : list Z :=
  filter (fun x => negb (x =? sz)) sizes.

(** [std::find(sizes.begin(), sizes.end(), sz) == sizes.end()] *)
Definition not_found (sz : Z) (sizes : list Z) : bool :=
  negb (existsb (fun x => x =? sz) sizes).

(** [std::sort] on a vector of integers, as an insertion sort. *)
Fixpoint sort_insert (x : Z) (l : list Z) : list Z :=
  match l with
  | [] => [x]
  | y :: t => if x <=? y then x :: l else y :: sort_insert x t
  end.

Definition std_sort (l : list Z) : list Z := fold_right sort_insert [] l.

(** One iteration of the loop over [staticSizes]. *)
Definition filter_step (gpuMemSize : Z) (sizes : list Z) (sz : Z) : list Z :=
  if sz >? gpuMemSize / 4 then erase_remove sz sizes
  else if not_found sz sizes then sizes ++ [sz]
  else sizes.

Definition filter_static_sizes_by_gpu_memory
    (a : arch) (sizes : list Z) (gpuMemSize : Z) : list Z :=
  std_sort (fold_left (filter_step gpuMemSize) (staticSizes a) sizes).

(** [format_size]: the number printed and its unit. *)
Definition format_size (bytes : Z) : Z * string :=
  if bytes >=? 1024 * 1024 * 1024 then (bytes / (1024 * 1024 * 1024), "GB")
  else if bytes >=? 1024 * 1024 then (bytes / (1024 * 1024), "MB")
  else if bytes >=? 1024 then (bytes / 1024, "KB")
  else (bytes, "B").

(** ** Strings and numeric conversions of the standard library *)

(** The exceptions the library calls of the program throw: [std::stoi] and
    [std::stoull] the first two, [substr] the second, and the constructor
    of [std::string] from a null pointer the third. *)
Inductive exception : Type := invalid_argument | out_of_range | logic_error.

(** [isspace] and [isdigit] in the "C" locale. *)
Definition isspace (c : ascii) : bool :=
  let n := nat_of_ascii c in
  (Nat.eqb n 32 || (Nat.leb 9 n && Nat.leb n 13))%bool.

Definition isdigit (c : ascii) : bool :=
  let n := nat_of_ascii c in (Nat.leb 48 n && Nat.leb n 57)%bool.

Definition digit_value (c : ascii) : Z := Z.of_nat (nat_of_ascii c) - 48.

Fixpoint skip_spaces (s : string) : string :=
  match s with
  | String c r => if isspace c then skip_spaces r else s
  | EmptyString => s
  end.

(** The longest prefix of decimal digits: its value ([acc] is the value of
    the digits already read) and how many digits were read. *)
Fixpoint read_digits (acc : Z) (s : string) : Z * nat :=
  match s with
  | String c r =>
      if isdigit c then
        let '(v, n) := read_digits (10 * acc + digit_value c) r in (v, S n)
      else (acc, O)
  | EmptyString => (acc, O)
  end.

(** The subject sequence of [strtol]/[strtoull] in base 10: white space, an
    optional sign, digits; whatever follows the digits is ignored.  [None]
    when there is no digit.  The result is the sign and the magnitude. *)
Definition scan_number (s : string) : option (bool * Z) :=
  let s1 := skip_spaces s in
  let '(neg, s2) :=
    match s1 with
    | String "-" r => (true, r)
    | String "+" r => (false, r)
    | _ => (false, s1)
    end in
  match read_digits 0 s2 with
  | (_, O) => None
  | (v, S _) => Some (neg, v)
  end.

(** [std::stoull(str)] (base 10): [strtoull], then the two exceptions. A
    negative subject is negated in the unsigned type. *)
Definition stoull (s : string) : exception + Z :=
  match scan_number s with
  | None => inl invalid_argument
  | Some (neg, v) =>
      if v >? ULLONG_MAX then inl out_of_range
      else inr (if neg then (- v) mod 2 ^ 64 else v)
  end.

(** [std::stoi(str)] (base 10): [strtol], then the range of [int]. *)
Definition stoi (s : string) : exception + Z :=
  match scan_number s with
  | None => inl invalid_argument
  | Some (neg, v) =>
      let x := if neg then - v else v in
      if (x <? INT_MIN) || (x >? INT_MAX) then inl out_of_range else inr x
  end.

(** [::tolower] on one character and [std::transform] over a string. *)
Definition tolower (c : ascii) : ascii :=
  let n := nat_of_ascii c in
  if (Nat.leb 65 n && Nat.leb n 90)%bool then ascii_of_nat (n + 32) else c.

Fixpoint transform_tolower (s : string) : string :=
  match s with
  | String c r => String (tolower c) (transform_tolower r)
  | EmptyString => EmptyString
  end.

(** [item.back()] and [item.substr(0, item.size() - 1)]. *)
Fixpoint back (s : string) : option ascii :=
  match s with
  | EmptyString => None
  | String c EmptyString => Some c
  | String _ r => back r
  end.

Fixpoint drop_back (s : string) : string :=
  match s with
  | EmptyString => EmptyString
  | String _ EmptyString => EmptyString
  | String c r => String c (drop_back r)
  end.

(** [std::getline(ss, item, ',')] on the unread part of the stream: the
    item and what stays unread.  The call fails, and the [while] loop ends,
    exactly when nothing is left to read. *)
Fixpoint getline (ss : string) : string * string :=
  match ss with
  | EmptyString => (EmptyString, EmptyString)
  | String c r =>
      if Ascii.eqb c "," then (EmptyString, r)
      else let '(item, rest) := getline r in (String c item, rest)
  end.

(** ** parse_sizes *)

Definition ascii_in (c : ascii) (a b : ascii) : bool :=
  (Ascii.eqb c a || Ascii.eqb c b)%bool.

(** The body of the [try] block: the multiplier and the number part, the
    conversion, and the value pushed on [result]. *)
Definition size_of_item (a : arch) (item : string) : exception + Z :=
  let '(multiplier, numberPart) :=
    match back item with
    | None => (1, item)
    | Some lastChar =>
        if ascii_in lastChar "K" "k" then (1024, drop_back item)
        else if ascii_in lastChar "M" "m" then (1024 * 1024, drop_back item)
        else if ascii_in lastChar "G" "g" then (1024 * 1024 * 1024, drop_back item)
        else (1, item)
    end in
  match stoull numberPart with
  | inl e => inl e
  | inr v => inr (to_size_t a (to_size_t a v * multiplier))
  end.

(** The [while] loop; [catch (...)] turns every exception into one line on
    [std::cerr].  The state is the unread input, [result] and the lines
    written so far. *)
Fixpoint parse_sizes_loop (fuel : nat) (a : arch) (ss : string)
    (result : list Z) (cerr : list string) : list Z * list string :=
  match fuel with
  | O => (result, cerr)
  | S fuel' =>
      match ss with
      | EmptyString => (result, cerr)
      | _ =>
          let '(item, rest) := getline ss in
          match size_of_item a item with
          | inr v => parse_sizes_loop fuel' a rest (result ++ [v]) cerr
          | inl _ =>
              parse_sizes_loop fuel' a rest result
                (cerr ++ [("Invalid size: " ++ item)%string])
          end
      end
  end.

(** Every iteration consumes at least one character, so the length of the
    input bounds the number of iterations. *)
Definition parse_sizes (a : arch) (str : string) : list Z * list string :=
  parse_sizes_loop (String.length str) a str [] [].

(** ** The name of the CPU (Linux build) *)

(** [line.find(pat)]: the position of the first occurrence of [pat]. *)
Fixpoint str_find (pat s : string) : option nat :=
  if String.prefix pat s then Some O
  else match s with
       | EmptyString => None
       | String _ r => option_map S (str_find pat r)
       end.

(** [line.substr(pos)]: the tail from [pos]; the call throws
    [std::out_of_range] when [pos] is beyond the end of the string. *)
Fixpoint str_substr (s : string) (pos : nat) {struct pos}
    : exception + string :=
  match pos, s with
  | O, _ => inr s
  | S p, String _ r => str_substr r p
  | S _, EmptyString => inl out_of_range
  end.

(** [get_cpu_name] on the lines [std::getline] reads from /proc/cpuinfo
    (no line when the file cannot be opened). *)
Fixpoint get_cpu_name (lines : list string) : exception + string :=
  match lines with
  | [] => inr "Unknown CPU"
  | line :: rest =>
      match str_find "model name" line with
      | Some _ =>
          match str_find ":" line with
          | Some pos => str_substr line (pos + 2)
          | None => get_cpu_name rest
          end
      | None => get_cpu_name rest
      end
  end.

(** ** [double] arithmetic

    The operations the program applies to [double] values.  Integer
    constants of the source ([0], [1], [1e10], [1024.0]) are conversions of
    integers, all exact. *)

Class DoubleOps (R : Type) : Type := {
  d_of_Z : Z -> R;
  d_add : R -> R -> R;
  d_mul : R -> R -> R;
  d_div : R -> R -> R;
  d_ltb : R -> R -> bool
}.

(** [std::min(a, b)] is [(b < a) ? b : a]; [std::max(a, b)] is
    [(a < b) ? b : a]. *)
Definition std_min {R} `{DoubleOps R} (a b : R) : R := if d_ltb b a then b else a.
Definition std_max {R} `{DoubleOps R} (a b : R) : R := if d_ltb a b then b else a.

(** IEEE binary64, round to nearest even.  An integer below [2^64] is
    converted with one rounding: the high part times [2^32] is exact, the
    low part is exact, and the sum rounds once. *)
Definition float_of_nonneg (z : Z) : float :=
  (PrimFloat.of_uint63 (Uint63.of_Z (z / 2 ^ 32)) * 4294967296
   + PrimFloat.of_uint63 (Uint63.of_Z (z mod 2 ^ 32)))%float.

Definition float_of_Z (z : Z) : float :=
  match z with
  | Zneg p => (- float_of_nonneg (Zpos p))%float
  | _ => float_of_nonneg z
  end.

#[export] Instance binary64 : DoubleOps float := {
  d_of_Z := float_of_Z;
  d_add := PrimFloat.add;
  d_mul := PrimFloat.mul;
  d_div := PrimFloat.div;
  d_ltb := PrimFloat.ltb
}.

(** Exact arithmetic on rationals: the same program without rounding. *)
Definition Qltb (x y : Q) : bool :=
  match Qcompare x y with Lt => true | _ => false end.

#[export] Instance exact : DoubleOps Q := {
  d_of_Z := inject_Z;
  d_add := Qplus;
  d_mul := Qmult;
  d_div := Qdiv;
  d_ltb := Qltb
}.

(** ** Configuration *)

Inductive Direction : Type := HostToDevice | DeviceToHost | Both.

Inductive Unit : Type := MBps | GBps.

(** The local variables of [main] that the argument loop sets. *)
Record config : Type := mkConfig {
  rounds : Z;
  targetDevice : Z;
  direction : Direction;
  unit : Unit;
  userSpecifiedSizes : bool;
  sizes : list Z
}.

Definition initial_config (a : arch) : config :=
  mkConfig 100 0 Both GBps false (default_sizes a).

(** ** Runs: console output, OpenCL calls, and how a run ends *)

Inductive cl_call : Type :=
  | clGetPlatformIDs | clGetDeviceIDs | clGetDeviceInfo
  | clCreateContext | clCreateCommandQueue
  | clCreateBuffer (size : Z)
  | clEnqueueMapBuffer (size : Z)
  | clEnqueueWriteBuffer (size : Z)
  | clEnqueueReadBuffer (size : Z)
  | clFinish
  | clEnqueueUnmapMemObject | clReleaseMemObject
  | clReleaseCommandQueue | clReleaseContext.

Inductive event (R : Type) : Type :=
  | Call (c : cl_call)
  | Cout_help                                   (* print_help() *)
  | Cout_version                                (* "gpu-pcie-bench version 1.1" *)
  | Cout_cpu (name : string)                    (* "CPU: " << get_cpu_name() *)
  | Cout_gpu (megabytes : Z)                    (* "GPU: name (N MB)" *)
  | Cout_buffer_size (n : Z) (suffix : string)  (* "[Buffer size: N XB]" *)
  | Cout_iteration (i n : Z)                    (* "\r  Iteration i/n" *)
  | Cout_endl
  | Cout_heading (text : string)                (* "Host to Device:" *)
  | Cout_stat (label : string) (value : R) (unit_label : string)
  | Cerr (text : string)
  | Cerr_device (targetDevice : Z)              (* "Target GPU device N is beyond ..." *)
  | Cerr_status (msg : string) (status : Z).    (* CHECK: msg (status) *)

Arguments Call {R} c.
Arguments Cout_help {R}.
Arguments Cout_version {R}.
Arguments Cout_cpu {R} name.
Arguments Cout_gpu {R} megabytes.
Arguments Cout_buffer_size {R} n suffix.
Arguments Cout_iteration {R} i n.
Arguments Cout_endl {R}.
Arguments Cout_heading {R} text.
Arguments Cout_stat {R} label value unit_label.
Arguments Cerr {R} text.
Arguments Cerr_device {R} targetDevice.
Arguments Cerr_status {R} msg status.

(** A run ends by [return n] from [main] or [exit(n)], or in
    [std::terminate] when an exception leaves [main]. *)
Inductive outcome : Type :=
  | Exit (code : Z)
  | Terminate (e : exception).

Inductive step (A : Type) : Type :=
  | Next (x : A)
  | Stop (o : outcome).

Arguments Next {A} x.
Arguments Stop {A} o.

(** A computation yields a value or ends the run, and in both cases the
    events it produced. *)
Definition run (R A : Type) : Type := step A * list (event R).

Definition ret {R A} (x : A) : run R A := (Next x, []).

Definition bind {R A B} (m : run R A) (f : A -> run R B) : run R B :=
  match m with
  | (Next x, l) => let '(r, l') := f x in (r, l ++ l')
  | (Stop o, l) => (Stop o, l)
  end.

Definition emit {R} (e : event R) : run R Datatypes.unit := (Next tt, [e]).

Definition stop {R A} (o : outcome) : run R A := (Stop o, []).

Notation "x <- m ;; k" := (bind m (fun x => k))
  (at level 61, m at next level, right associativity).
Notation "m ;;; k" := (bind m (fun _ => k))
  (at level 61, right associativity).

Definition CL_SUCCESS : Z := 0.

(** An exception that nothing catches ends the run. *)
Definition value_or_terminate {R A} (r : exception + A) : run R A :=
  match r with
  | inl e => stop (Terminate e)
  | inr x => ret x
  end.

(** The macro [CHECK(status, msg)] in [main], given a variable: on failure
    one line on [std::cerr] and [return 1]. *)
Definition CHECK {R} (status : Z) (msg : string) : run R Datatypes.unit :=
  if status =? CL_SUCCESS then ret tt
  else emit (Cerr_status msg status) ;;; stop (Exit 1).

(** [CHECK(call(...), msg)], the macro given the call itself, as for the
    discovery calls of [main].  The macro names its argument twice, in the
    test and in the output: the call is made for the test and, when the
    test fails, made again for the line on [std::cerr], which shows the
    status of this second call.  [first] and [again] are the two
    answers. *)
Definition CHECK_call {R} (c : cl_call) (first again : Z) (msg : string)
    : run R Datatypes.unit :=
  emit (Call c) ;;;
  if first =? CL_SUCCESS then ret tt
  else
    emit (Call c) ;;;
    emit (Cerr_status msg again) ;;;
    stop (Exit 1).

(** What the environment of a run answers: the lines [std::getline] reads
    from /proc/cpuinfo (none when the file cannot be opened), and the
    status and the value of each OpenCL call.  [repeated j] is the status
    of the discovery call number [j] (0 to 6, in the order of the source)
    when [CHECK] makes it a second time.  Buffers are indexed by the
    position [k] of the buffer size in the catalog and by the order of
    creation; a transfer by [k], the round and the direction. *)
Record runtime (R : Type) : Type := mkRuntime {
  cpuinfo : list string;
  platform_count : Z * Z;         (* status, numPlatforms *)
  platform_ids : Z;
  device_count : Z * Z;           (* status, numDevices *)
  device_ids : Z;
  device_name_size : Z * Z;       (* status, gpuNameSize *)
  device_name : Z;
  device_mem_size : Z * Z;        (* status, CL_DEVICE_GLOBAL_MEM_SIZE *)
  repeated : nat -> Z;
  create_context : Z;
  create_queue : Z;
  create_buffer : nat -> nat -> Z;
  map_buffer : nat -> nat -> Z;
  transfer : nat -> nat -> bool -> Z * R   (* status, seconds between the two clock readings *)
}.

Arguments cpuinfo {R} r.
Arguments platform_count {R} r.
Arguments platform_ids {R} r.
Arguments device_count {R} r.
Arguments device_ids {R} r.
Arguments device_name_size {R} r.
Arguments device_name {R} r.
Arguments device_mem_size {R} r.
Arguments repeated {R} r _.
Arguments create_context {R} r.
Arguments create_queue {R} r.
Arguments create_buffer {R} r _ _.
Arguments map_buffer {R} r _ _.
Arguments transfer {R} r _ _ _.

(** ** Command line *)

Definition parse_direction {R} (s : string) : run R Direction :=
  let lower := transform_tolower s in
  if String.eqb lower "host2dev" then ret HostToDevice
  else if String.eqb lower "dev2host" then ret DeviceToHost
  else if String.eqb lower "both" then ret Both
  else emit (Cerr ("Unknown direction: " ++ s)%string) ;;; stop (Exit 1).

Definition parse_unit {R} (s : string) : run R Unit :=
  let lower := transform_tolower s in
  if String.eqb lower "mb" then ret MBps
  else if String.eqb lower "gb" then ret GBps
  else emit (Cerr ("Unknown unit: " ++ s)%string) ;;; stop (Exit 1).

(** The last branch of the argument loop. *)
Definition unknown_argument {R A} (arg : string) : run R A :=
  emit (Cerr ("Unknown argument: " ++ arg)%string) ;;;
  emit Cout_help ;;;
  stop (Exit 1).

(** The loop [for (int i = 1; i < argc; ++i)] over the arguments not yet
    read.  An option that takes a value is recognised only when a value
    follows ([i + 1 < argc]).  Nothing catches what [std::stoi] throws. *)
Fixpoint parse_args {R} (a : arch) (args : list string) (cfg : config)
    : run R config :=
  match args with
  | [] => ret cfg
  | arg :: rest =>
      if String.eqb arg "--help" then emit Cout_help ;;; stop (Exit 0)
      else if String.eqb arg "--version" then emit Cout_version ;;; stop (Exit 0)
      else
        match rest with
        | value :: rest' =>
            if String.eqb arg "--rounds" then
              match stoi value with
              | inl e => stop (Terminate e)
              | inr n =>
                  parse_args a rest'
                    (mkConfig n (targetDevice cfg) (direction cfg) (unit cfg)
                       (userSpecifiedSizes cfg) (sizes cfg))
              end
            else if String.eqb arg "--sizes" then
              let '(parsed, diagnostics) := parse_sizes a value in
              (Next tt, map Cerr diagnostics) ;;;
              parse_args a rest'
                (mkConfig (rounds cfg) (targetDevice cfg) (direction cfg)
                   (unit cfg) true parsed)
            else if String.eqb arg "--direction" then
              d <- parse_direction value ;;
              parse_args a rest'
                (mkConfig (rounds cfg) (targetDevice cfg) d (unit cfg)
                   (userSpecifiedSizes cfg) (sizes cfg))
            else if String.eqb arg "--unit" then
              u <- parse_unit value ;;
              parse_args a rest'
                (mkConfig (rounds cfg) (targetDevice cfg) (direction cfg) u
                   (userSpecifiedSizes cfg) (sizes cfg))
            else if String.eqb arg "--device" then
              match stoi value with
              | inl e => stop (Terminate e)
              | inr n =>
                  parse_args a rest'
                    (mkConfig (rounds cfg) n (direction cfg) (unit cfg)
                       (userSpecifiedSizes cfg) (sizes cfg))
              end
            else unknown_argument arg
        | [] => unknown_argument arg
        end
  end.

(** ** Transfer engine *)

Section Engine.

Context {R : Type} `{DoubleOps R}.
Variable rt : runtime R.

(** [measure]: one blocking transfer and [clFinish] between two clock
    readings.  The function returns [double], so the [return 1] of [CHECK]
    returns the value [1.0] to the caller. *)
Definition measure (k i : nat) (size : Z) (write : bool) : run R R :=
  let '(status, elapsed) := transfer rt k i write in
  emit (Call (if write then clEnqueueWriteBuffer size
              else clEnqueueReadBuffer size)) ;;;
  emit (Call clFinish) ;;;
  if status =? CL_SUCCESS then ret elapsed
  else
    emit (Cerr_status (if write then "Write failed" else "Read failed") status) ;;;
    ret (d_of_Z 1).

(** The six accumulators declared before the round loop. *)
Record stats : Type := mkStats {
  sumH2D : R; minH2D : R; maxH2D : R;
  sumD2H : R; minD2H : R; maxD2H : R
}.

Definition initial_stats : stats :=
  mkStats (d_of_Z 0) (d_of_Z 10000000000) (d_of_Z 0)
          (d_of_Z 0) (d_of_Z 10000000000) (d_of_Z 0).

Definition sends (d : Direction) : bool :=
  match d with HostToDevice | Both => true | DeviceToHost => false end.

Definition receives (d : Direction) : bool :=
  match d with DeviceToHost | Both => true | HostToDevice => false end.

(** The body of the round loop, iteration [i]. *)
Definition round_body (cfg : config) (k : nat) (dataSize : Z) (i : nat)
    (st : stats) : run R stats :=
  emit (Cout_iteration (Z.of_nat i + 1) (rounds cfg)) ;;;
  st1 <- (if sends (direction cfg) then
            t <- measure k i dataSize true ;;
            ret (mkStats (d_add (sumH2D st) t) (std_min (minH2D st) t)
                   (std_max (maxH2D st) t)
                   (sumD2H st) (minD2H st) (maxD2H st))
          else ret st) ;;
  if receives (direction cfg) then
    t <- measure k i dataSize false ;;
    ret (mkStats (sumH2D st1) (minH2D st1) (maxH2D st1)
           (d_add (sumD2H st1) t) (std_min (minD2H st1) t)
           (std_max (maxD2H st1) t))
  else ret st1.

(** [for (int i = 0; i < rounds; ++i)]: [n] iterations are left, the next
    one is iteration [i]. *)
Fixpoint round_loop (cfg : config) (k : nat) (dataSize : Z) (n i : nat)
    (st : stats) : run R stats :=
  match n with
  | O => ret st
  | S n' =>
      st' <- round_body cfg k dataSize i st ;;
      round_loop cfg k dataSize n' (S i) st'
  end.

(** The lambda [convert] and the string [label]. *)
Definition convert (u : Unit) (dataSize : Z) (sec : R) : R :=
  match u with
  | GBps =>
      d_div (d_of_Z dataSize)
        (d_mul (d_mul (d_mul sec (d_of_Z 1024)) (d_of_Z 1024)) (d_of_Z 1024))
  | MBps =>
      d_div (d_of_Z dataSize) (d_mul (d_mul sec (d_of_Z 1024)) (d_of_Z 1024))
  end.

Definition label (u : Unit) : string :=
  match u with GBps => "GB/s" | MBps => "MB/s" end.

(** The three lines printed for one direction. *)
Definition report_lines (cfg : config) (dataSize : Z) (heading : string)
    (sum min max : R) : list (event R) :=
  [ Cout_heading heading;
    Cout_stat "Avg" (convert (unit cfg) dataSize (d_div sum (d_of_Z (rounds cfg))))
      (label (unit cfg));
    Cout_stat "Min" (convert (unit cfg) dataSize max) (label (unit cfg));
    Cout_stat "Max" (convert (unit cfg) dataSize min) (label (unit cfg)) ].

Definition report (cfg : config) (dataSize : Z) (st : stats)
    : list (event R) :=
  (if sends (direction cfg) then
     report_lines cfg dataSize "Host to Device:"
       (sumH2D st) (minH2D st) (maxH2D st)
   else [])
  ++
  (if receives (direction cfg) then
     report_lines cfg dataSize "Device to Host:"
       (sumD2H st) (minD2H st) (maxD2H st)
   else []).

(** The body of the loop over [sizes], for the size at position [k]. *)
Definition bench_size (cfg : config) (k : nat) (dataSize : Z)
    : run R Datatypes.unit :=
  let '(n, suffix) := format_size dataSize in
  emit (Cout_buffer_size n suffix) ;;;
  emit (Call (clCreateBuffer dataSize)) ;;;
  CHECK (create_buffer rt k 0) "Failed to allocate pinned host buffer" ;;;
  emit (Call (clCreateBuffer dataSize)) ;;;
  CHECK (create_buffer rt k 1) "Failed to allocate pinned receive buffer" ;;;
  emit (Call (clEnqueueMapBuffer dataSize)) ;;;
  CHECK (map_buffer rt k 0) "Failed to map host buffer" ;;;
  emit (Call (clEnqueueMapBuffer dataSize)) ;;;
  CHECK (map_buffer rt k 1) "Failed to map recv buffer" ;;;
  emit (Call (clCreateBuffer dataSize)) ;;;
  CHECK (create_buffer rt k 2) "Failed to allocate device buffer" ;;;
  st <- round_loop cfg k dataSize (Z.to_nat (rounds cfg)) 0 initial_stats ;;
  emit Cout_endl ;;;
  (Next tt, report cfg dataSize st) ;;;
  emit (Call clEnqueueUnmapMemObject) ;;;
  emit (Call clEnqueueUnmapMemObject) ;;;
  emit (Call clReleaseMemObject) ;;;
  emit (Call clReleaseMemObject) ;;;
  emit (Call clReleaseMemObject).

(** [for (size_t dataSize : sizes)] *)
Fixpoint bench_sizes (cfg : config) (k : nat) (l : list Z)
    : run R Datatypes.unit :=
  match l with
  | [] => ret tt
  | dataSize :: l' =>
      bench_size cfg k dataSize ;;; bench_sizes cfg (S k) l'
  end.

(** ** main *)

(** Lines 217 to 303: the command line, the name of the CPU, then platform
    and device discovery.  The result is the configuration and the memory
    size of the device.  What [get_cpu_name] throws is not caught.  The
    vector [gpuName] has [gpuNameSize] elements; when it is empty its
    [data()] is a null pointer, and [std::string] constructed from it
    throws [std::logic_error]. *)
Definition startup (a : arch) (argv : list string) : run R (config * Z) :=
  cfg <- parse_args a (tl argv) (initial_config a) ;;
  name <- value_or_terminate (get_cpu_name (cpuinfo rt)) ;;
  emit (Cout_cpu name) ;;;
  CHECK_call clGetPlatformIDs (fst (platform_count rt)) (repeated rt 0)
    "Failed to get platform count" ;;;
  let numPlatforms := snd (platform_count rt) in
  if numPlatforms =? 0 then
    emit (Cerr "No OpenCL platforms found.") ;;; stop (Exit 1)
  else
  CHECK_call clGetPlatformIDs (platform_ids rt) (repeated rt 1)
    "Failed to get platforms" ;;;
  CHECK_call clGetDeviceIDs (fst (device_count rt)) (repeated rt 2)
    "Failed to get device count" ;;;
  let numDevices := snd (device_count rt) in
  if numDevices =? 0 then
    emit (Cerr "No GPU devices found on platform.") ;;; stop (Exit 1)
  else
  CHECK_call clGetDeviceIDs (device_ids rt) (repeated rt 3)
    "Failed to get devices" ;;;
  (* [int] against [cl_uint]: the comparison is unsigned *)
  if targetDevice cfg mod 2 ^ 32 >=? numDevices then
    emit (Cerr_device (targetDevice cfg)) ;;; stop (Exit 1)
  else
  CHECK_call clGetDeviceInfo (fst (device_name_size rt)) (repeated rt 4)
    "Failed to get GPU name size" ;;;
  let gpuNameSize := snd (device_name_size rt) in
  CHECK_call clGetDeviceInfo (device_name rt) (repeated rt 5)
    "Failed to get GPU name" ;;;
  CHECK_call clGetDeviceInfo (fst (device_mem_size rt)) (repeated rt 6)
    "Failed to get GPU memory size" ;;;
  let gpuMemSize := snd (device_mem_size rt) in
  if gpuNameSize =? 0 then stop (Terminate logic_error)
  else
  emit (Cout_gpu (gpuMemSize / (1024 * 1024))) ;;;
  ret (cfg, gpuMemSize).

(** Lines 305 to 307: the catalog handed to the loop over sizes. *)
Definition select_sizes (a : arch) (cfg : config) (gpuMemSize : Z) : list Z :=
  if userSpecifiedSizes cfg then sizes cfg
  else filter_static_sizes_by_gpu_memory a (sizes cfg) (to_size_t a gpuMemSize).

Definition empty_catalog_message : string :=
  "No buffer sizes fit GPU memory constraints. Exiting.".

(** Lines 309 to 400. *)
Definition run_catalog (cfg : config) (catalog : list Z)
    : run R Datatypes.unit :=
  match catalog with
  | [] => emit (Cerr empty_catalog_message) ;;; stop (Exit 1)
  | _ =>
      emit (Call clCreateContext) ;;;
      CHECK (create_context rt) "Failed to create context" ;;;
      emit (Call clCreateCommandQueue) ;;;
      CHECK (create_queue rt) "Failed to create command queue" ;;;
      bench_sizes cfg 0 catalog ;;;
      emit (Call clReleaseCommandQueue) ;;;
      emit (Call clReleaseContext) ;;;
      stop (Exit 0)
  end.

Definition main (a : arch) (argv : list string) : run R Datatypes.unit :=
  r <- startup a argv ;;
  run_catalog (fst r) (select_sizes a (fst r) (snd r)).

End Engine.

(** How the run ends, and its trace. *)
Definition result {R A} (m : run R A) : option outcome :=
  match fst m with Stop o => Some o | Next _ => None end.

Definition trace {R A} (m : run R A) : list (event R) := snd m.

(** ** Observations on runs *)

Section Observations.

Context {R : Type}.

(** Events that allocate, map or transfer a buffer. *)
Definition touches_buffers (e : event R) : bool :=
  match e with
  | Call (clCreateBuffer _) | Call (clEnqueueMapBuffer _)
  | Call (clEnqueueWriteBuffer _) | Call (clEnqueueReadBuffer _) => true
  | _ => false
  end.

(** The diagnostic of a failed OpenCL call, and those of a failed device
    discovery. *)
Definition api_failure (e : event R) : bool :=
  match e with
  | Cerr_status _ _ | Cerr_device _ => true
  | Cerr text =>
      String.eqb text "No OpenCL platforms found."
      || String.eqb text "No GPU devices found on platform."
  | _ => false
  end.

Definition is_write (e : event R) : bool :=
  match e with Call (clEnqueueWriteBuffer _) => true | _ => false end.

Definition is_read (e : event R) : bool :=
  match e with Call (clEnqueueReadBuffer _) => true | _ => false end.

(** The progress line that opens an iteration of the round loop. *)
Definition is_iteration (e : event R) : bool :=
  match e with Cout_iteration _ _ => true | _ => false end.

(** The diagnostics of [parse_sizes] are the only events of an argument
    loop that runs to its end. *)
Definition size_diagnostic (e : event R) : Prop :=
  exists item, e = Cerr ("Invalid size: " ++ item)%string.

(** Where the sizes of a configuration come from. *)
Definition sizes_origin (a : arch) (argv : list string) (cfg : config) : Prop :=
  if userSpecifiedSizes cfg
  then exists value, In value argv /\ sizes cfg = fst (parse_sizes a value)
  else sizes cfg = default_sizes a.

(** An event that is neither a buffer operation nor the diagnostic of a
    failed call or discovery. *)
Definition harmless (e : event R) : bool :=
  negb (touches_buffers e) && negb (api_failure e).

End Observations.

(** A file /proc/cpuinfo of two lines. *)
Definition example_cpuinfo : list string :=
  [ "vendor_id : ExampleVendor"; "model name : Example CPU" ].

(** An environment in which the name of the CPU is found and platform and
    device discovery, context, queue and buffers succeed; the name of the
    device has 16 characters, [mem] is its memory size, and the transfers
    answer [status] and take [elapsed]. *)
Definition healthy {R : Type} (mem : Z) (status : nat -> nat -> bool -> Z)
    (elapsed : nat -> nat -> bool -> R) : runtime R :=
  mkRuntime R example_cpuinfo
    (CL_SUCCESS, 1) CL_SUCCESS (CL_SUCCESS, 1) CL_SUCCESS
    (CL_SUCCESS, 16) CL_SUCCESS (CL_SUCCESS, mem) (fun _ => CL_SUCCESS)
    CL_SUCCESS CL_SUCCESS
    (fun _ _ => CL_SUCCESS) (fun _ _ => CL_SUCCESS)
    (fun k i w => (status k i w, elapsed k i w)).

Definition always_ok : nat -> nat -> bool -> Z := fun _ _ _ => CL_SUCCESS.

(** ** Samples and accumulators *)

Section Samples.

Context {R : Type} `{DoubleOps R}.
Variable rt : runtime R.

(** The value [measure] returns for round [i] of the size at position [k]:
    the elapsed time, or [1.0] after a failed transfer. *)
Definition sample (k i : nat) (write : bool) : R :=
  if fst (transfer rt k i write) =? CL_SUCCESS
  then snd (transfer rt k i write) else d_of_Z 1.

(** The samples of rounds [i], ..., [i + n - 1] in one direction. *)
Definition samples (k i n : nat) (write : bool) : list R :=
  map (fun j => sample k j write) (seq i n).

(** A direction is active when the loop measures it. *)
Definition active (write : bool) (d : Direction) : bool :=
  if write then sends d else receives d.

Definition heading_of (write : bool) : string :=
  if write then "Host to Device:" else "Device to Host:".

(** The accumulators of one direction. *)
Definition dir_sum (st : stats) (write : bool) : R :=
  if write then sumH2D st else sumD2H st.
Definition dir_min (st : stats) (write : bool) : R :=
  if write then minH2D st else minD2H st.
Definition dir_max (st : stats) (write : bool) : R :=
  if write then maxH2D st else maxD2H st.

(** The value printed under [label] in the block that starts with
    [heading], read back from the output. *)
Fixpoint find_stat (label : string) (l : list (event R)) : option R :=
  match l with
  | Cout_stat lb v _ :: t =>
      if String.eqb lb label then Some v else find_stat label t
  | Cout_heading _ :: _ => None
  | _ :: t => find_stat label t
  | [] => None
  end.

Fixpoint stat_under (heading label : string) (l : list (event R)) : option R :=
  match l with
  | Cout_heading h :: t =>
      if String.eqb h heading then find_stat label t
      else stat_under heading label t
  | _ :: t => stat_under heading label t
  | [] => None
  end.

(** The accumulators after iteration [i]. *)
Definition next_stats (cfg : config) (k i : nat) (st : stats) : stats :=
  let st1 :=
    if sends (direction cfg) then
      mkStats (d_add (sumH2D st) (sample k i true))
        (std_min (minH2D st) (sample k i true))
        (std_max (maxH2D st) (sample k i true))
        (sumD2H st) (minD2H st) (maxD2H st)
    else st in
  if receives (direction cfg) then
    mkStats (sumH2D st1) (minH2D st1) (maxH2D st1)
      (d_add (sumD2H st1) (sample k i false))
      (std_min (minD2H st1) (sample k i false))
      (std_max (maxD2H st1) (sample k i false))
  else st1.

(** The events of iteration [i]. *)
Definition iteration_log (cfg : config) (k : nat) (dataSize : Z) (i : nat)
    : list (event R) :=
  Cout_iteration (Z.of_nat i + 1) (rounds cfg)
  :: (if sends (direction cfg) then snd (measure rt k i dataSize true) else [])
  ++ (if receives (direction cfg) then snd (measure rt k i dataSize false) else []).

Fixpoint loop_stats (cfg : config) (k n i : nat) (st : stats) : stats :=
  match n with
  | O => st
  | S n' => loop_stats cfg k n' (S i) (next_stats cfg k i st)
  end.

Fixpoint loop_log (cfg : config) (k : nat) (dataSize : Z) (n i : nat)
    : list (event R) :=
  match n with
  | O => []
  | S n' => iteration_log cfg k dataSize i ++ loop_log cfg k dataSize n' (S i)
  end.


End Samples.

(** ** Order of [double] values *)

(** The comparison [<] is irreflexive and transitive. *)
Class OrderedDouble (R : Type) `{DoubleOps R} : Prop := {
  d_ltb_irrefl : forall x : R, d_ltb x x = false;
  d_ltb_trans : forall x y z : R,
      d_ltb x y = true -> d_ltb y z = true -> d_ltb x z = true
}.

(** ** Size tokens *)

(** A decimal integer is written with the digits [ds], most significant
    first; its value is [numeral_value ds]. *)
Definition digit_char (d : Z) : ascii := ascii_of_nat (Z.to_nat (48 + d)).

Fixpoint numeral (ds : list Z) : string :=
  match ds with
  | [] => EmptyString
  | d :: t => String (digit_char d) (numeral t)
  end.

Definition numeral_value (ds : list Z) : Z :=
  fold_left (fun acc d => 10 * acc + d) ds 0.

Definition decimal_digits (ds : list Z) : Prop :=
  ds <> [] /\ Forall (fun d => 0 <= d <= 9) ds.

(** The optional suffix of a size and the power of 1024 it stands for. *)
Inductive size_suffix : Type :=
  | no_suffix
  | upper_K | lower_k
  | upper_M | lower_m
  | upper_G | lower_g.

Definition suffix_text (s : size_suffix) : string :=
  match s with
  | no_suffix => ""
  | upper_K => "K" | lower_k => "k"
  | upper_M => "M" | lower_m => "m"
  | upper_G => "G" | lower_g => "g"
  end.

Definition suffix_power (s : size_suffix) : Z :=
  match s with
  | no_suffix => 0
  | upper_K | lower_k => 1
  | upper_M | lower_m => 2
  | upper_G | lower_g => 3
  end.

Definition size_token (ds : list Z) (s : size_suffix) : string :=
  (numeral ds ++ suffix_text s)%string.

(** A token is well formed when it is one or more decimal digits, then at
    most one of the letters K, M, G in either case. *)
Fixpoint all_digits (s : string) : bool :=
  match s with
  | EmptyString => true
  | String c r => isdigit c && all_digits r
  end.

Definition well_formed_token (t : string) : bool :=
  let digits :=
    match back t with
    | Some c =>
        if ascii_in c "K" "k" || ascii_in c "M" "m" || ascii_in c "G" "g"
        then drop_back t else t
    | None => t
    end in
  negb (String.eqb digits "") && all_digits digits.

(** A token in which no number can be read: it is empty, or its first
    character is not white space, a sign or a digit. *)
Definition no_leading_number (item : string) : Prop :=
  match item with
  | EmptyString => True
  | String c _ =>
      (isspace c || isdigit c || Ascii.eqb c "-" || Ascii.eqb c "+")%bool = false
  end.

Fixpoint has_comma (s : string) : bool :=
  match s with
  | EmptyString => false
  | String c r => Ascii.eqb c "," || has_comma r
  end.

(** The argument of [--sizes] made of the tokens [items]. *)
Fixpoint join_comma (items : list string) : string :=
  match items with
  | [] => EmptyString
  | t :: rest =>
      match rest with
      | [] => t
      | _ => (t ++ String "," (join_comma rest))%string
      end
  end.

(** What each token contributes, in order: a value, or a diagnostic. *)
Definition values_of (a : arch) (items : list string) : list Z :=
  flat_map (fun t => match size_of_item a t with
                     | inr v => [v]
                     | inl _ => []
                     end) items.

Definition diagnostics_of (a : arch) (items : list string) : list string :=
  flat_map (fun t => match size_of_item a t with
                     | inr _ => []
                     | inl _ => [("Invalid size: " ++ t)%string]
                     end) items.

(** ** More observations on runs *)

Section Resources.

Context {R : Type}.

Definition is_create (e : event R) : bool :=
  match e with Call (clCreateBuffer _) => true | _ => false end.

Definition is_map (e : event R) : bool :=
  match e with Call (clEnqueueMapBuffer _) => true | _ => false end.

Definition is_unmap (e : event R) : bool :=
  match e with Call clEnqueueUnmapMemObject => true | _ => false end.

Definition is_release (e : event R) : bool :=
  match e with Call clReleaseMemObject => true | _ => false end.

Definition is_call (e : event R) : bool :=
  match e with Call _ => true | _ => false end.

(** A line of the program on [std::cerr]. *)
Definition is_diagnostic (e : event R) : bool :=
  match e with
  | Cerr _ | Cerr_device _ | Cerr_status _ _ => true
  | _ => false
  end.

(** The line "[Buffer size: ...]" that opens the block of a size. *)
Definition is_header (e : event R) : bool :=
  match e with Cout_buffer_size _ _ => true | _ => false end.

Definition header_of (dataSize : Z) : event R :=
  Cout_buffer_size (fst (format_size dataSize)) (snd (format_size dataSize)).

(** The creation or the mapping of a buffer. *)
Definition is_setup_call (e : event R) : bool := is_create e || is_map e.

(** An event that is neither a transfer nor part of the clean-up. *)
Definition setup_only (e : event R) : bool :=
  negb (is_write e) && negb (is_read e)
  && negb (is_unmap e) && negb (is_release e).

End Resources.

(** The five calls that set up the buffers of the size at position [k]
    all succeed. *)
Definition buffers_ok {R : Type} (rt : runtime R) (k : nat) : bool :=
  (create_buffer rt k 0 =? CL_SUCCESS)
  && (create_buffer rt k 1 =? CL_SUCCESS)
  && (map_buffer rt k 0 =? CL_SUCCESS)
  && (map_buffer rt k 1 =? CL_SUCCESS)
  && (create_buffer rt k 2 =? CL_SUCCESS).

(** The number of bytes one unit of [format_size] stands for. *)
Definition unit_bytes (suffix : string) : Z :=
  if String.eqb suffix "GB" then 1024 * 1024 * 1024
  else if String.eqb suffix "MB" then 1024 * 1024
  else if String.eqb suffix "KB" then 1024
  else 1.

(** The letters [parse_sizes] takes for a suffix at the end of a token. *)
Definition is_suffix_letter (c : ascii) : bool :=
  ascii_in c "K" "k" || ascii_in c "M" "m" || ascii_in c "G" "g".

(** How an argument loop that ends the run may end it: with exit code 0
    after the help or the version, for an argument that asks for it; with
    exit code 1 after a diagnostic on [std::cerr], followed or not by the
    help; or in [std::terminate], with [--rounds] or [--device] among the
    arguments. *)
Definition loop_end {R : Type} (args : list string) (o : outcome)
    (log : list (event R)) : Prop :=
  match o with
  | Exit code =>
      (code = 0
       /\ exists pre,
           (log = pre ++ [Cout_help] /\ In "--help" args)
           \/ (log = pre ++ [Cout_version] /\ In "--version" args))
      \/ (code = 1
          /\ exists pre text,
              log = pre ++ [Cerr text]
              \/ log = pre ++ [Cerr text; Cout_help])
  | Terminate _ => In "--rounds" args \/ In "--device" args
  end.

Section Blocks.

Context {R : Type} `{DoubleOps R}.
Variable rt : runtime R.

(** The events of the loop body for one size when nothing fails in the
    set-up of its buffers: the header, the five set-up calls, the rounds,
    the report and the clean-up. *)
Definition size_block (cfg : config) (k : nat) (dataSize : Z)
    : list (event R) :=
  header_of dataSize
  :: [ Call (clCreateBuffer dataSize); Call (clCreateBuffer dataSize);
       Call (clEnqueueMapBuffer dataSize); Call (clEnqueueMapBuffer dataSize);
       Call (clCreateBuffer dataSize) ]
  ++ loop_log rt cfg k dataSize (Z.to_nat (rounds cfg)) 0
  ++ Cout_endl
  :: report cfg dataSize
       (loop_stats rt cfg k (Z.to_nat (rounds cfg)) 0 initial_stats)
  ++ [ Call clEnqueueUnmapMemObject; Call clEnqueueUnmapMemObject;
       Call clReleaseMemObject; Call clReleaseMemObject;
       Call clReleaseMemObject ].

(** The blocks of the sizes of [l], the first at position [k]. *)
Fixpoint size_blocks (cfg : config) (k : nat) (l : list Z)
    : list (event R) :=
  match l with
  | [] => []
  | dataSize :: l' => size_block cfg k dataSize ++ size_blocks cfg (S k) l'
  end.

End Blocks.

(** The events of a start-up that succeeds, after those of the argument
    loop. *)
Definition discovery_log {R : Type} (name : string) (gpuMemSize : Z)
    : list (event R) :=
  [ Cout_cpu name;
    Call clGetPlatformIDs; Call clGetPlatformIDs;
    Call clGetDeviceIDs; Call clGetDeviceIDs;
    Call clGetDeviceInfo; Call clGetDeviceInfo; Call clGetDeviceInfo;
    Cout_gpu (gpuMemSize / (1024 * 1024)) ].

(** The character [c] occurs in [s]. *)
Fixpoint has_char (c : ascii) (s : string) : bool :=
  match s with
  | EmptyString => false
  | String x r => Ascii.eqb x c || has_char c r
  end.

(** A line [get_cpu_name] passes over: without "model name", or without a
    colon. *)
Definition passed_over (line : string) : Prop :=
  str_find "model name" line = None \/ str_find ":" line = None.

(** * Properties *)

(** ** Examples *)

(** The constants of the source are converted without rounding. *)
Example binary64_constants :
  d_of_Z 0 = 0%float /\ d_of_Z 1 = 1%float /\ d_of_Z 1024 = 1024%float
  /\ d_of_Z 10000000000 = 1e10%float
  /\ d_of_Z 4294967296 = 0x1p32%float.
Proof. repeat split; reflexivity. Qed.

Example parse_sizes_usage :
  parse_sizes Ptr64 "512K,1M,10M" = ([524288; 1048576; 10485760], []).
Proof. reflexivity. Qed.

Example parse_sizes_mixed :
  parse_sizes Ptr64 "1,abc,,2k,12abc, 7G,-1,K,3m," =
  ([1; 2048; 12; 7516192768; 18446744073709551615; 3145728],
   ["Invalid size: abc"; "Invalid size: "; "Invalid size: K"]).
Proof. vm_compute. reflexivity. Qed.

(** ** The size catalog *)

Section Catalog.

Lemma sort_insert_perm (x : Z) (l : list Z) :
  Permutation (x :: l) (sort_insert x l).
Proof.
  induction l as [|y t IH]; simpl.
  - apply Permutation_refl.
  - destruct (x <=? y).
    + apply Permutation_refl.
    + eapply Permutation_trans; [apply perm_swap|].
      now apply perm_skip.
Qed.

Lemma std_sort_perm (l : list Z) : Permutation l (std_sort l).
Proof.
  induction l as [|x t IH]; simpl.
  - apply perm_nil.
  - eapply Permutation_trans; [|apply sort_insert_perm].
    now apply perm_skip.
Qed.

Lemma std_sort_In (l : list Z) (x : Z) : In x (std_sort l) <-> In x l.
Proof.
  split; apply Permutation_in;
    [apply Permutation_sym|]; apply std_sort_perm.
Qed.

Lemma sort_insert_sorted (x : Z) (l : list Z) :
  StronglySorted Z.le l -> StronglySorted Z.le (sort_insert x l).
Proof.
  induction 1 as [|y t Hs IH Hall]; simpl.
  - repeat constructor.
  - destruct (x <=? y) eqn:E.
    + apply Z.leb_le in E. constructor.
      * now constructor.
      * constructor; [exact E|].
        eapply Forall_impl; [|exact Hall]. intros z Hz. simpl in Hz. lia.
    + apply Z.leb_gt in E. constructor; [exact IH|].
      apply Forall_forall. intros z Hz.
      apply (Permutation_in _ (Permutation_sym (sort_insert_perm x t))) in Hz.
      destruct Hz as [<-|Hz]; [lia|].
      rewrite Forall_forall in Hall. now apply Hall.
Qed.

Lemma std_sort_sorted (l : list Z) : StronglySorted Z.le (std_sort l).
Proof.
  induction l as [|x t IH]; simpl.
  - constructor.
  - now apply sort_insert_sorted.
Qed.

(** A sorted vector without duplicates is strictly ascending. *)
Lemma sorted_nodup_strict (l : list Z) :
  StronglySorted Z.le l -> NoDup l -> StronglySorted Z.lt l.
Proof.
  induction 1 as [|x t Hs IH Hall]; intros Hnd.
  - constructor.
  - inversion Hnd as [|? ? Hnotin Hnd']; subst.
    constructor; [now apply IH|].
    rewrite Forall_forall in *. intros z Hz.
    specialize (Hall z Hz).
    assert (x <> z) by (intros ->; contradiction).
    lia.
Qed.

Lemma erase_remove_In (sz x : Z) (l : list Z) :
  In x (erase_remove sz l) <-> In x l /\ x <> sz.
Proof.
  unfold erase_remove. rewrite filter_In.
  destruct (Z.eqb_spec x sz); simpl; intuition congruence.
Qed.

Lemma not_found_spec (sz : Z) (l : list Z) :
  not_found sz l = true <-> ~ In sz l.
Proof.
  unfold not_found. rewrite negb_true_iff.
  destruct (existsb (fun x => x =? sz) l) eqn:E.
  - apply existsb_exists in E as (y & Hy & Hyz).
    apply Z.eqb_eq in Hyz. subst. intuition congruence.
  - split; [intros _ Hin|reflexivity].
    assert (existsb (fun x => x =? sz) l = true) as E'
      by (apply existsb_exists; exists sz; split; [exact Hin|apply Z.eqb_refl]).
    congruence.
Qed.

(** Membership after one iteration of the loop over [staticSizes]. *)
Lemma filter_step_In (M sz x : Z) (l : list Z) :
  In x (filter_step M l sz) <->
  (In x l /\ ~ (x = sz /\ sz > M / 4)) \/ (x = sz /\ sz <= M / 4).
Proof.
  unfold filter_step.
  destruct (Z.gtb_spec sz (M / 4)) as [Hgt|Hle].
  - rewrite erase_remove_In. intuition lia.
  - destruct (not_found sz l) eqn:E.
    + rewrite in_app_iff. simpl. intuition lia.
    + assert (In sz l).
      { destruct (in_dec Z.eq_dec sz l) as [Hin|Hout]; [exact Hin|].
        apply not_found_spec in Hout. congruence. }
      intuition (subst; auto; lia).
Qed.

(** Membership after the whole loop. *)
Lemma filter_loop_In (M x : Z) (static l : list Z) :
  In x (fold_left (filter_step M) static l) <->
  (In x l /\ ~ (In x static /\ x > M / 4)) \/ (In x static /\ x <= M / 4).
Proof.
  revert l. induction static as [|sz t IH]; intros l; simpl.
  - intuition.
  - rewrite IH, filter_step_In. intuition (subst; auto; try lia).
Qed.

Lemma filter_step_count (M sz x : Z) (l : list Z) :
  x <> sz ->
  count_occ Z.eq_dec (filter_step M l sz) x = count_occ Z.eq_dec l x.
Proof.
  intros Hne. unfold filter_step.
  destruct (sz >? M / 4).
  - unfold erase_remove. induction l as [|y t IH]; simpl; [reflexivity|].
    destruct (Z.eqb_spec y sz) as [->|Hy]; simpl.
    + destruct (Z.eq_dec sz x); [congruence|exact IH].
    + destruct (Z.eq_dec y x); [f_equal|]; exact IH.
  - destruct (not_found sz l); [|reflexivity].
    rewrite count_occ_app. simpl.
    destruct (Z.eq_dec sz x); [congruence|]. apply Nat.add_0_r.
Qed.

Lemma filter_loop_count (M x : Z) (static l : list Z) :
  ~ In x static ->
  count_occ Z.eq_dec (fold_left (filter_step M) static l) x
  = count_occ Z.eq_dec l x.
Proof.
  revert l. induction static as [|sz t IH]; intros l Hout; simpl.
  - reflexivity.
  - rewrite IH by (intros Hin; apply Hout; now right).
    apply filter_step_count. intros ->. apply Hout. now left.
Qed.

Lemma filter_step_NoDup (M sz : Z) (l : list Z) :
  NoDup l -> NoDup (filter_step M l sz).
Proof.
  intros Hnd. unfold filter_step.
  destruct (sz >? M / 4).
  - now apply NoDup_filter.
  - destruct (not_found sz l) eqn:E; [|exact Hnd].
    apply not_found_spec in E.
    apply (Permutation_NoDup (l := sz :: l)).
    + apply Permutation_cons_append.
    + now constructor.
Qed.

Lemma filter_loop_NoDup (M : Z) (static l : list Z) :
  NoDup l -> NoDup (fold_left (filter_step M) static l).
Proof.
  revert l. induction static as [|sz t IH]; intros l Hnd; simpl.
  - exact Hnd.
  - apply IH. now apply filter_step_NoDup.
Qed.

Lemma staticSizes_positive (a : arch) : Forall (fun s => 0 < s) (staticSizes a).
Proof. destruct a; repeat constructor. Qed.

Lemma default_sizes_static (a : arch) : default_sizes a = staticSizes a.
Proof. reflexivity. Qed.

Lemma staticSizes_NoDup (a : arch) : NoDup (staticSizes a).
Proof.
  destruct a; repeat constructor; simpl; intuition discriminate.
Qed.

End Catalog.

(** C5, as the program has it.  [main] passes the memory size of the
    device, a [cl_ulong], to [filter_static_sizes_by_gpu_memory] through
    [static_cast<size_t>].  For every list the function is applied to and
    every memory size it is given, a size of the standard set is in the
    filtered list if and only if it is at most a quarter of that memory
    size.  So, without [--sizes], a standard size is in the catalog if and
    only if it is at most a quarter of the memory size of the device
    reduced to [size_t]; this is a quarter of the memory size itself
    whenever that fits [size_t], as it always does on a 64-bit target.
    With 2 GiB of device memory and no [--sizes], the catalog is 512 KiB,
    1 MiB, 10 MiB, 100 MiB, 512 MiB: the sizes of 1 GiB and more are
    excluded. *)
Theorem standard_size_kept_iff_quarter :
  forall (a : arch) (cfg : config) (M S : Z),
    userSpecifiedSizes cfg = false ->
    In S (staticSizes a) ->
    (forall (catalog : list Z) (gpuMemSize : Z),
        In S (filter_static_sizes_by_gpu_memory a catalog gpuMemSize)
        <-> S <= gpuMemSize / 4)
    /\ (In S (select_sizes a cfg M) <-> S <= to_size_t a M / 4)
    /\ (0 <= M < 2 ^ size_bits a ->
        (In S (select_sizes a cfg M) <-> S <= M / 4))
    /\ select_sizes a (initial_config a) 2147483648
       = [524288; 1048576; 10485760; 104857600; 536870912].
Proof.
  intros a cfg M S Huser Hin.
  assert (Hfilter : forall catalog g,
             In S (filter_static_sizes_by_gpu_memory a catalog g)
             <-> S <= g / 4).
  { intros catalog g. unfold filter_static_sizes_by_gpu_memory.
    rewrite std_sort_In, filter_loop_In. intuition lia. }
  split; [exact Hfilter|].
  assert (Hsel : In S (select_sizes a cfg M) <-> S <= to_size_t a M / 4).
  { unfold select_sizes. rewrite Huser. apply Hfilter. }
  split; [exact Hsel|]. split.
  - intros HM. unfold to_size_t in Hsel.
    now rewrite Z.mod_small in Hsel by exact HM.
  - destruct a; reflexivity.
Qed.

Lemma standard_size_kept_iff_quarter_witness :
  (forall (catalog : list Z) (gpuMemSize : Z),
      In 1073741824
        (filter_static_sizes_by_gpu_memory Ptr64 catalog gpuMemSize)
      <-> 1073741824 <= gpuMemSize / 4)
  /\ (In 1073741824
        (select_sizes Ptr64 (initial_config Ptr64) 4294967296)
      <-> 1073741824 <= to_size_t Ptr64 4294967296 / 4)
  /\ (0 <= 4294967296 < 2 ^ size_bits Ptr64 ->
      (In 1073741824
         (select_sizes Ptr64 (initial_config Ptr64) 4294967296)
       <-> 1073741824 <= 4294967296 / 4))
  /\ select_sizes Ptr64 (initial_config Ptr64) 2147483648
     = [524288; 1048576; 10485760; 104857600; 536870912].
Proof.
  apply (standard_size_kept_iff_quarter Ptr64 (initial_config Ptr64)
           4294967296 1073741824).
  - reflexivity.
  - simpl. tauto.
Defined.

(** C5 as stated fails on a 32-bit target when the memory size of the
    device does not fit [size_t].  A device with 4 GiB: the cast yields 0,
    no standard size is at most a quarter of 0, and the catalog is empty
    although 512 KiB is at most a quarter of 4 GiB.  A device with 5 GiB:
    the cast yields 1 GiB, and 512 MiB is excluded although it is at most
    a quarter of 5 GiB. *)
Lemma quarter_of_memory_beyond_size_t :
  In 524288 (staticSizes Ptr32)
  /\ 524288 <= 4294967296 / 4
  /\ select_sizes Ptr32 (initial_config Ptr32) 4294967296 = []
  /\ In 536870912 (staticSizes Ptr32)
  /\ 536870912 <= 5368709120 / 4
  /\ select_sizes Ptr32 (initial_config Ptr32) 5368709120
     = [524288; 1048576; 10485760; 104857600].
Proof.
  repeat split; try reflexivity; try (simpl; tauto);
    try (vm_compute; discriminate).
Qed.

(** The run on the device with 4 GiB: no buffer size, exit code 1. *)
Example run_with_4GiB_on_32_bit :
  main (healthy (R := Q) 4294967296 always_ok (fun _ _ _ => 1%Q)) Ptr32
    ["gpu-pcie-bench"]
  = (Stop (Exit 1),
     [ Cout_cpu "Example CPU";
       Call clGetPlatformIDs; Call clGetPlatformIDs;
       Call clGetDeviceIDs; Call clGetDeviceIDs;
       Call clGetDeviceInfo; Call clGetDeviceInfo; Call clGetDeviceInfo;
       Cout_gpu 4096;
       Cerr "No buffer sizes fit GPU memory constraints. Exiting." ]).
Proof. reflexivity. Qed.

(** C10. [filter_static_sizes_by_gpu_memory] never removes an entry that is
    not in the standard set: such an entry of the input list is in the
    output list, as many times as in the input. *)
Theorem filter_keeps_non_standard :
  forall (a : arch) (catalog : list Z) (gpuMemSize x : Z),
    In x catalog ->
    ~ In x (staticSizes a) ->
    In x (filter_static_sizes_by_gpu_memory a catalog gpuMemSize)
    /\ count_occ Z.eq_dec (filter_static_sizes_by_gpu_memory a catalog gpuMemSize) x
       = count_occ Z.eq_dec catalog x.
Proof.
  intros a catalog M x Hin Hout.
  unfold filter_static_sizes_by_gpu_memory. split.
  - rewrite std_sort_In, filter_loop_In. left. tauto.
  - rewrite <- (proj1 (Permutation_count_occ Z.eq_dec _ _) (std_sort_perm _) x).
    now apply filter_loop_count.
Qed.

Lemma filter_keeps_non_standard_witness :
  In 4096 (filter_static_sizes_by_gpu_memory Ptr64 [4096; 1048576; 4096] 1024)
  /\ count_occ Z.eq_dec
       (filter_static_sizes_by_gpu_memory Ptr64 [4096; 1048576; 4096] 1024) 4096
     = count_occ Z.eq_dec [4096; 1048576; 4096] 4096.
Proof.
  apply (filter_keeps_non_standard Ptr64 [4096; 1048576; 4096] 1024 4096).
  - simpl. tauto.
  - simpl. intuition discriminate.
Defined.

(** ** Runs *)

Section Runs.

Context {R : Type}.

Lemma bind_Next {A B} (m : run R A) (f : A -> run R B) (y : B)
    (log : list (event R)) :
  bind m f = (Next y, log) ->
  exists x l1 l2, m = (Next x, l1) /\ f x = (Next y, l2) /\ log = l1 ++ l2.
Proof.
  destruct m as [[x|o] l1]; simpl; [|discriminate].
  destruct (f x) as [r l2] eqn:E. intros Heq. inversion Heq; subst.
  now exists x, l1, l2.
Qed.

Lemma bind_of_Next {A B} (x : A) (l : list (event R)) (f : A -> run R B) :
  bind (Next x, l) f = (fst (f x), l ++ snd (f x)).
Proof. simpl. now destruct (f x). Qed.

Lemma parse_direction_Next (s : string) (d : Direction) (l : list (event R)) :
  parse_direction s = (Next d, l) -> l = [].
Proof.
  unfold parse_direction.
  repeat match goal with
         | |- context [if ?c then _ else _] => destruct c
         end; simpl; intros Heq; inversion Heq; reflexivity.
Qed.

Lemma parse_unit_Next (s : string) (u : Unit) (l : list (event R)) :
  parse_unit s = (Next u, l) -> l = [].
Proof.
  unfold parse_unit.
  repeat match goal with
         | |- context [if ?c then _ else _] => destruct c
         end; simpl; intros Heq; inversion Heq; reflexivity.
Qed.

Lemma parse_sizes_loop_diagnostics (a : arch) (fuel : nat) :
  forall (ss : string) (result : list Z) (cerr : list string),
    Forall (fun d => exists item, d = ("Invalid size: " ++ item)%string) cerr ->
    Forall (fun d => exists item, d = ("Invalid size: " ++ item)%string)
      (snd (parse_sizes_loop fuel a ss result cerr)).
Proof.
  induction fuel as [|fuel IH]; intros ss result cerr Hc; simpl; [exact Hc|].
  destruct ss as [|c r]; [exact Hc|].
  destruct (getline (String c r)) as [item rest].
  destruct (size_of_item a item); apply IH; [|exact Hc].
  apply Forall_app. split; [exact Hc|].
  constructor; [now exists item|constructor].
Qed.

Lemma parse_sizes_diagnostics (a : arch) (str : string) :
  Forall (@size_diagnostic R) (map Cerr (snd (parse_sizes a str))).
Proof.
  unfold parse_sizes.
  pose proof (parse_sizes_loop_diagnostics a (String.length str) str [] []
                (Forall_nil _)) as Hd.
  induction Hd as [|d t [item ->] _ IHd]; simpl; constructor.
  - now exists item.
  - exact IHd.
Qed.

Lemma parse_args_invariant (a : arch) (argv : list string) (n : nat) :
  forall (args : list string) (cfg cfg' : config) (log : list (event R)),
    (List.length args <= n)%nat ->
    incl args argv ->
    sizes_origin a argv cfg ->
    parse_args a args cfg = (Next cfg', log) ->
    sizes_origin a argv cfg' /\ Forall size_diagnostic log.
Proof.
  induction n as [|n IH]; intros args cfg cfg' log Hlen Hincl Hcfg Hrun.
  - destruct args; [|simpl in Hlen; lia].
    simpl in Hrun. inversion Hrun; subst. now split.
  - destruct args as [|arg rest].
    { simpl in Hrun. inversion Hrun; subst. now split. }
    simpl in Hrun.
    destruct (String.eqb arg "--help"); [discriminate|].
    destruct (String.eqb arg "--version"); [discriminate|].
    destruct rest as [|value rest']; [discriminate|].
    assert (Hlen' : (List.length rest' <= n)%nat) by (simpl in Hlen; lia).
    assert (Hincl' : incl rest' argv)
      by (intros x Hx; apply Hincl; right; now right).
    assert (Hvalue : In value argv) by (apply Hincl; right; now left).
    destruct (String.eqb arg "--rounds").
    { destruct (stoi value); [discriminate|].
      now apply IH in Hrun. }
    destruct (String.eqb arg "--sizes").
    { destruct (parse_sizes a value) as [parsed diagnostics] eqn:Eparse.
      match type of Hrun with
      | (let '(r, l') := ?m in _) = _ => destruct m as [r l2] eqn:Hk
      end.
      inversion Hrun; subst.
      apply IH in Hk; [|exact Hlen'|exact Hincl'|].
      - destruct Hk as [Ho Hl]. split; [exact Ho|].
        apply Forall_app. split; [|exact Hl].
        pose proof (parse_sizes_diagnostics a value) as Hd.
        now rewrite Eparse in Hd.
      - unfold sizes_origin. simpl. exists value. rewrite Eparse. now split. }
    destruct (String.eqb arg "--direction").
    { apply bind_Next in Hrun as (d & l1 & l2 & Hm & Hk & ->).
      apply parse_direction_Next in Hm. subst l1.
      now apply IH in Hk. }
    destruct (String.eqb arg "--unit").
    { apply bind_Next in Hrun as (u & l1 & l2 & Hm & Hk & ->).
      apply parse_unit_Next in Hm. subst l1.
      now apply IH in Hk. }
    destruct (String.eqb arg "--device").
    { destruct (stoi value); [discriminate|].
      now apply IH in Hrun. }
    discriminate.
Qed.

Lemma bind_Stop {A B} (m : run R A) (f : A -> run R B) (o : outcome)
    (log : list (event R)) :
  bind m f = (Stop o, log) ->
  m = (Stop o, log)
  \/ exists x l1 l2, m = (Next x, l1) /\ f x = (Stop o, l2) /\ log = l1 ++ l2.
Proof.
  destruct m as [[x|o'] l1]; simpl.
  - destruct (f x) as [r l2] eqn:E. intros Heq. inversion Heq; subst.
    right. now exists x, l1, l2.
  - intros Heq. inversion Heq; subst. now left.
Qed.

Lemma bind_bind_Next {A B} (x : A) (l1 l2 : list (event R))
    (f : A -> run R B) :
  bind (Next tt, l1) (fun _ => bind (Next x, l2) f) = bind (Next x, l1 ++ l2) f.
Proof. simpl. destruct (f x) as [r l3]. now rewrite app_assoc. Qed.

Lemma parse_args_app_bounded (a : arch) (args2 : list string) (n : nat) :
  forall (args1 : list string) (cfg cfg1 : config) (l1 : list (event R)),
    (List.length args1 <= n)%nat ->
    parse_args a args1 cfg = (Next cfg1, l1) ->
    parse_args a (args1 ++ args2) cfg
    = bind (Next cfg1, l1) (parse_args a args2).
Proof.
  induction n as [|n IH]; intros args1 cfg cfg1 l1 Hlen Hrun.
  - destruct args1; [|simpl in Hlen; lia].
    simpl in Hrun. inversion Hrun; subst.
    simpl. now destruct (parse_args a args2 cfg1).
  - destruct args1 as [|arg rest].
    { simpl in Hrun. inversion Hrun; subst.
      simpl. now destruct (parse_args a args2 cfg1). }
    cbn [parse_args] in Hrun.
    change ((arg :: rest) ++ args2) with (arg :: (rest ++ args2)).
    cbn [parse_args].
    destruct (String.eqb arg "--help"); [discriminate|].
    destruct (String.eqb arg "--version"); [discriminate|].
    destruct rest as [|value rest']; [discriminate|].
    change ((value :: rest') ++ args2) with (value :: (rest' ++ args2)).
    assert (Hlen' : (List.length rest' <= n)%nat) by (simpl in Hlen; lia).
    destruct (String.eqb arg "--rounds").
    { destruct (stoi value); [discriminate|]. now apply IH. }
    destruct (String.eqb arg "--sizes").
    { destruct (parse_sizes a value) as [parsed diagnostics].
      apply bind_Next in Hrun as ([] & d & l & Hd & Hk & ->).
      inversion Hd; subst d.
      rewrite (IH _ _ _ _ Hlen' Hk). apply bind_bind_Next. }
    destruct (String.eqb arg "--direction").
    { apply bind_Next in Hrun as (d & ld & l & Hd & Hk & ->).
      rewrite Hd. apply parse_direction_Next in Hd. subst ld.
      rewrite bind_of_Next. rewrite (IH _ _ _ _ Hlen' Hk).
      simpl. now destruct (parse_args a args2 cfg1). }
    destruct (String.eqb arg "--unit").
    { apply bind_Next in Hrun as (u & lu & l & Hu & Hk & ->).
      rewrite Hu. apply parse_unit_Next in Hu. subst lu.
      rewrite bind_of_Next. rewrite (IH _ _ _ _ Hlen' Hk).
      simpl. now destruct (parse_args a args2 cfg1). }
    destruct (String.eqb arg "--device").
    { destruct (stoi value); [discriminate|]. now apply IH. }
    discriminate.
Qed.

(** The sizes an argument loop leaves are those it started with when
    [--sizes] is not among the arguments; otherwise the arguments are some
    arguments that the loop reads to their end, then [--sizes] and its
    value, then arguments without [--sizes], and the sizes are those of
    that value. *)
Lemma parse_args_last_sizes (a : arch) (n : nat) :
  forall (args : list string) (cfg cfg' : config) (log : list (event R)),
    (List.length args <= n)%nat ->
    parse_args a args cfg = (Next cfg', log) ->
    (~ In "--sizes" args
     /\ userSpecifiedSizes cfg' = userSpecifiedSizes cfg
     /\ sizes cfg' = sizes cfg)
    \/ (exists (before : list string) (value : string) (after : list string)
               (cfg0 : config) (log0 : list (event R)),
          args = before ++ "--sizes" :: value :: after
          /\ parse_args a before cfg = (Next cfg0, log0)
          /\ ~ In "--sizes" after
          /\ userSpecifiedSizes cfg' = true
          /\ sizes cfg' = fst (parse_sizes a value)).
Proof.
  induction n as [|n IH]; intros args cfg cfg' log Hlen Hrun.
  - destruct args; [|simpl in Hlen; lia].
    simpl in Hrun. inversion Hrun; subst. left. auto.
  - destruct args as [|arg rest].
    { simpl in Hrun. inversion Hrun; subst. left. auto. }
    cbn [parse_args] in Hrun.
    destruct (String.eqb arg "--help") eqn:Ehelp; [discriminate|].
    destruct (String.eqb arg "--version") eqn:Eversion; [discriminate|].
    destruct rest as [|value rest']; [discriminate|].
    assert (Hlen' : (List.length rest' <= n)%nat) by (simpl in Hlen; lia).
    destruct (String.eqb_spec arg "--rounds") as [->|_].
    { destruct (stoi value) as [e|r] eqn:Hv; [discriminate|].
      destruct (IH _ _ _ _ Hlen' Hrun)
        as [(Hnot & Hu & Hs)
           |(before & v & after & cfg0 & log0 & -> & Hb & Hnot & Hu & Hs)].
      - left. split; [|now split].
        intros [Hx|[Hx|Hx]]; [discriminate| |now apply Hnot].
        subst value. vm_compute in Hv. discriminate.
      - right. exists ("--rounds" :: value :: before), v, after, cfg0, log0.
        split; [reflexivity|]. split; [|auto].
        cbn. rewrite Hv. exact Hb. }
    destruct (String.eqb_spec arg "--sizes") as [->|Hsizes].
    { destruct (parse_sizes a value) as [parsed diagnostics] eqn:Eparse.
      apply bind_Next in Hrun as ([] & d & l & Hd & Hk & ->).
      inversion Hd; subst d.
      destruct (IH _ _ _ _ Hlen' Hk)
        as [(Hnot & Hu & Hs)
           |(before & v & after & cfg0 & log0 & -> & Hb & Hnot & Hu & Hs)].
      - right. exists [], value, rest', cfg, [].
        split; [reflexivity|]. split; [reflexivity|].
        split; [exact Hnot|]. split; [exact Hu|].
        rewrite Hs, Eparse. reflexivity.
      - right.
        exists ("--sizes" :: value :: before), v, after, cfg0,
               (map Cerr diagnostics ++ log0).
        split; [reflexivity|]. split; [|auto].
        cbn. rewrite Eparse, Hb. reflexivity. }
    destruct (String.eqb_spec arg "--direction") as [->|_].
    { apply bind_Next in Hrun as (d & ld & l & Hd & Hk & ->).
      pose proof (parse_direction_Next _ _ _ Hd) as Hld. subst ld.
      destruct (IH _ _ _ _ Hlen' Hk)
        as [(Hnot & Hu & Hs)
           |(before & v & after & cfg0 & log0 & -> & Hb & Hnot & Hu & Hs)].
      - left. split; [|now split].
        intros [Hx|[Hx|Hx]]; [discriminate| |now apply Hnot].
        subst value. vm_compute in Hd. discriminate.
      - right.
        exists ("--direction" :: value :: before), v, after, cfg0, log0.
        split; [reflexivity|]. split; [|auto].
        cbn. rewrite Hd, bind_of_Next, Hb. reflexivity. }
    destruct (String.eqb_spec arg "--unit") as [->|_].
    { apply bind_Next in Hrun as (u & lu & l & Hu' & Hk & ->).
      pose proof (parse_unit_Next _ _ _ Hu') as Hlu. subst lu.
      destruct (IH _ _ _ _ Hlen' Hk)
        as [(Hnot & Hu & Hs)
           |(before & v & after & cfg0 & log0 & -> & Hb & Hnot & Hu & Hs)].
      - left. split; [|now split].
        intros [Hx|[Hx|Hx]]; [discriminate| |now apply Hnot].
        subst value. vm_compute in Hu'. discriminate.
      - right.
        exists ("--unit" :: value :: before), v, after, cfg0, log0.
        split; [reflexivity|]. split; [|auto].
        cbn. rewrite Hu', bind_of_Next, Hb. reflexivity. }
    destruct (String.eqb_spec arg "--device") as [->|_].
    { destruct (stoi value) as [e|r] eqn:Hv; [discriminate|].
      destruct (IH _ _ _ _ Hlen' Hrun)
        as [(Hnot & Hu & Hs)
           |(before & v & after & cfg0 & log0 & -> & Hb & Hnot & Hu & Hs)].
      - left. split; [|now split].
        intros [Hx|[Hx|Hx]]; [discriminate| |now apply Hnot].
        subst value. vm_compute in Hv. discriminate.
      - right. exists ("--device" :: value :: before), v, after, cfg0, log0.
        split; [reflexivity|]. split; [|auto].
        cbn. rewrite Hv. exact Hb. }
    discriminate.
Qed.

(** The value of the last [--sizes] decides: for arguments made of some
    arguments that the loop reads to their end, then [--sizes] and its
    value, then arguments without [--sizes], the sizes the loop leaves
    are those of that value. *)
Lemma parse_args_sizes_of_last (a : arch) (before : list string)
    (value : string) (after : list string) (cfg cfg0 cfg' : config)
    (log0 log : list (event R)) :
  parse_args a before cfg = (Next cfg0, log0) ->
  ~ In "--sizes" after ->
  parse_args a (before ++ "--sizes" :: value :: after) cfg = (Next cfg', log) ->
  userSpecifiedSizes cfg' = true /\ sizes cfg' = fst (parse_sizes a value).
Proof.
  intros Hb Hnot Hrun.
  rewrite (parse_args_app_bounded a _ (List.length before) before cfg cfg0
             log0 (le_n _) Hb) in Hrun.
  apply bind_Next in Hrun as (x & l1 & l2 & Hx & Hk & _).
  inversion Hx; subst x l1. cbn [parse_args] in Hk.
  change (String.eqb "--sizes" "--help") with false in Hk.
  change (String.eqb "--sizes" "--version") with false in Hk.
  change (String.eqb "--sizes" "--rounds") with false in Hk.
  change (String.eqb "--sizes" "--sizes") with true in Hk.
  cbv iota in Hk.
  destruct (parse_sizes a value) as [parsed diagnostics] eqn:Eparse.
  apply bind_Next in Hk as ([] & d & l & _ & Hk & _).
  destruct (parse_args_last_sizes a (List.length after) _ _ _ _ (le_n _) Hk)
    as [(_ & Hu & Hs)|(b' & v' & a' & _ & _ & -> & _)].
  - rewrite Hu, Hs. split; reflexivity.
  - exfalso. apply Hnot. apply in_or_app. right. now left.
Qed.


End Runs.

Section Startup.

Context {R : Type} `{DoubleOps R}.
Variable rt : runtime R.

Lemma size_diagnostic_harmless (e : event R) :
  size_diagnostic e -> harmless e = true.
Proof. intros [item ->]. reflexivity. Qed.

(** A start-up that succeeds read the whole command line, found the
    device, and did nothing else. *)
Lemma startup_Next (a : arch) (argv : list string) (cfg : config) (mem : Z)
    (log : list (event R)) :
  startup rt a argv = (Next (cfg, mem), log) ->
  (exists plog : list (event R),
      parse_args a (tl argv) (initial_config a) = (Next cfg, plog))
  /\ mem = snd (device_mem_size rt)
  /\ forallb harmless log = true.
Proof.
  unfold startup. intros Hrun.
  apply bind_Next in Hrun as (cfg0 & l1 & l2 & Hp & Hk & ->).
  pose proof (parse_args_invariant a (tl argv) (List.length (tl argv))
                (tl argv) (initial_config a) cfg0 l1 (le_n _)
                (incl_refl _) eq_refl Hp) as [_ Hl1].
  unfold CHECK_call, value_or_terminate in Hk.
  destruct (get_cpu_name (cpuinfo rt)) as [e|name]; [discriminate|].
  repeat match type of Hk with
         | context [if ?c then _ else _] => destruct c eqn:?
         end;
    simpl in Hk; try discriminate.
  inversion Hk; subst. split; [now exists l1|]. split; [reflexivity|].
  rewrite forallb_app. apply andb_true_iff. split; [|reflexivity].
  apply forallb_forall. intros e He.
  apply size_diagnostic_harmless. rewrite Forall_forall in Hl1. now apply Hl1.
Qed.

End Startup.

Section MainProperties.

Context {R : Type} `{DoubleOps R}.
Variable rt : runtime R.

(** C7. When the catalog is empty after the start-up, the run ends with
    exit code 1; its last output is the message about buffer sizes, no
    buffer was allocated, mapped or transferred, and no diagnostic of a
    failed OpenCL call or of a failed discovery was written. *)
Theorem empty_catalog_exits_before_buffers :
  forall (a : arch) (argv : list string) (cfg : config) (mem : Z)
         (log : list (event R)),
    startup rt a argv = (Next (cfg, mem), log) ->
    select_sizes a cfg mem = [] ->
    main rt a argv = (Stop (Exit 1), log ++ [Cerr empty_catalog_message])
    /\ Forall (fun e => touches_buffers e = false) (trace (main rt a argv))
    /\ Forall (fun e => api_failure e = false) (trace (main rt a argv)).
Proof.
  intros a argv cfg mem log Hstart Hempty.
  assert (Hmain : main rt a argv
                  = (Stop (Exit 1), log ++ [Cerr empty_catalog_message])).
  { unfold main. rewrite Hstart, bind_of_Next. simpl fst. simpl snd.
    rewrite Hempty. reflexivity. }
  split; [exact Hmain|].
  apply startup_Next in Hstart as (_ & _ & Hlog).
  rewrite Hmain. unfold trace. simpl snd.
  rewrite forallb_forall in Hlog.
  split; apply Forall_forall; intros e He; apply in_app_or in He;
    destruct He as [He|[<-|[]]]; try reflexivity;
    apply Hlog in He; unfold harmless in He;
    apply andb_true_iff in He as [Hb Hf];
    now apply negb_true_iff.
Qed.

(** C3, as the program has it.  Without [--sizes] the catalog handed to the
    loop over sizes is strictly ascending, hence ordered and without
    duplicates, and all its entries are positive.  With [--sizes] the
    catalog is the list [parse_sizes] made of the value of the last
    [--sizes] option, as it is: the arguments are some arguments that the
    loop reads to their end, then [--sizes] and its value, then arguments
    without [--sizes]; and for every such reading of the arguments the
    catalog is the list made of that value. *)
Theorem catalog_ascending_unless_user_specified :
  forall (a : arch) (argv : list string) (cfg : config) (mem : Z)
         (log : list (event R)),
    startup rt a argv = (Next (cfg, mem), log) ->
    (userSpecifiedSizes cfg = false ->
       ~ In "--sizes" (tl argv)
       /\ StronglySorted Z.lt (select_sizes a cfg mem)
       /\ Forall (fun s => 0 < s) (select_sizes a cfg mem))
    /\ (userSpecifiedSizes cfg = true ->
        exists (before : list string) (value : string)
               (after : list string) (cfg0 : config)
               (log0 : list (event R)),
          tl argv = before ++ "--sizes" :: value :: after
          /\ parse_args a before (initial_config a) = (Next cfg0, log0)
          /\ ~ In "--sizes" after
          /\ select_sizes a cfg mem = fst (parse_sizes a value))
    /\ (forall (before : list string) (value : string)
               (after : list string) (cfg0 : config)
               (log0 : list (event R)),
          tl argv = before ++ "--sizes" :: value :: after ->
          parse_args a before (initial_config a) = (Next cfg0, log0) ->
          ~ In "--sizes" after ->
          userSpecifiedSizes cfg = true
          /\ select_sizes a cfg mem = fst (parse_sizes a value)).
Proof.
  intros a argv cfg mem log Hstart.
  apply startup_Next in Hstart as ((plog & Hparse) & _ & _).
  destruct (parse_args_last_sizes a (List.length (tl argv)) _ _ _ _
              (le_n _) Hparse)
    as [(Hnot & Hu & Hs)
       |(before & value & after & cfg0 & log0 & Hargs & Hb & Hnot & Hu & Hs)].
  - cbn [initial_config userSpecifiedSizes sizes] in Hu, Hs.
    split; [|split].
    + intros _. split; [exact Hnot|].
      unfold select_sizes. rewrite Hu, Hs, default_sizes_static.
      unfold filter_static_sizes_by_gpu_memory. split.
      * apply sorted_nodup_strict; [apply std_sort_sorted|].
        apply (Permutation_NoDup (std_sort_perm _)).
        apply filter_loop_NoDup, staticSizes_NoDup.
      * apply Forall_forall. intros x Hx.
        rewrite std_sort_In, filter_loop_In in Hx.
        pose proof (staticSizes_positive a) as Hpos.
        rewrite Forall_forall in Hpos. apply Hpos. tauto.
    + intros Hu'. congruence.
    + intros before value after cfg0 log0 Hargs _ _. exfalso.
      apply Hnot. rewrite Hargs. apply in_or_app. right. now left.
  - split; [|split].
    + intros Hu'. congruence.
    + intros _. exists before, value, after, cfg0, log0.
      unfold select_sizes. rewrite Hu. auto.
    + intros before' value' after' cfg0' log0' Hargs' Hb' Hnot'.
      rewrite Hargs' in Hparse.
      destruct (parse_args_sizes_of_last a before' value' after' _ _ _ _ _
                  Hb' Hnot' Hparse) as [Hu' Hs'].
      split; [exact Hu'|]. unfold select_sizes. now rewrite Hu'.
Qed.

End MainProperties.

Lemma empty_catalog_exits_before_buffers_witness :
  let rt := healthy (R := Q) 1048576 always_ok (fun _ _ _ => 1%Q) in
  let argv := ["gpu-pcie-bench"] in
  main rt Ptr64 argv
  = (Stop (Exit 1),
     snd (startup rt Ptr64 argv) ++ [Cerr empty_catalog_message])
  /\ Forall (fun e => touches_buffers e = false) (trace (main rt Ptr64 argv))
  /\ Forall (fun e => api_failure e = false) (trace (main rt Ptr64 argv)).
Proof.
  intros rt argv.
  apply (empty_catalog_exits_before_buffers rt Ptr64 argv
           (initial_config Ptr64) 1048576 (snd (startup rt Ptr64 argv))).
  - reflexivity.
  - reflexivity.
Defined.

(** Two runs of 3 rounds on a device with 2 GiB: without [--sizes], and
    with [--sizes 10M,1M,1M] after [--rounds 3]. *)
Lemma catalog_ascending_unless_user_specified_witness :
  let rt := healthy (R := Q) 2147483648 always_ok (fun _ _ _ => 1%Q) in
  let argv := ["gpu-pcie-bench"; "--rounds"; "3"] in
  let cfg := mkConfig 3 0 Both GBps false (default_sizes Ptr64) in
  let argv' := ["gpu-pcie-bench"; "--rounds"; "3"; "--sizes"; "10M,1M,1M"] in
  let cfg' := mkConfig 3 0 Both GBps true [10485760; 1048576; 1048576] in
  ((userSpecifiedSizes cfg = false ->
      ~ In "--sizes" (tl argv)
      /\ StronglySorted Z.lt (select_sizes Ptr64 cfg 2147483648)
      /\ Forall (fun s => 0 < s) (select_sizes Ptr64 cfg 2147483648))
   /\ (userSpecifiedSizes cfg = true ->
       exists (before : list string) (value : string)
              (after : list string) (cfg0 : config) (log0 : list (event Q)),
         tl argv = before ++ "--sizes" :: value :: after
         /\ parse_args Ptr64 before (initial_config Ptr64) = (Next cfg0, log0)
         /\ ~ In "--sizes" after
         /\ select_sizes Ptr64 cfg 2147483648
            = fst (parse_sizes Ptr64 value))
   /\ (forall (before : list string) (value : string)
              (after : list string) (cfg0 : config) (log0 : list (event Q)),
         tl argv = before ++ "--sizes" :: value :: after ->
         parse_args Ptr64 before (initial_config Ptr64) = (Next cfg0, log0) ->
         ~ In "--sizes" after ->
         userSpecifiedSizes cfg = true
         /\ select_sizes Ptr64 cfg 2147483648
            = fst (parse_sizes Ptr64 value)))
  /\ ((userSpecifiedSizes cfg' = false ->
       ~ In "--sizes" (tl argv')
       /\ StronglySorted Z.lt (select_sizes Ptr64 cfg' 2147483648)
       /\ Forall (fun s => 0 < s) (select_sizes Ptr64 cfg' 2147483648))
      /\ (userSpecifiedSizes cfg' = true ->
          exists (before : list string) (value : string)
                 (after : list string) (cfg0 : config)
                 (log0 : list (event Q)),
            tl argv' = before ++ "--sizes" :: value :: after
            /\ parse_args Ptr64 before (initial_config Ptr64)
               = (Next cfg0, log0)
            /\ ~ In "--sizes" after
            /\ select_sizes Ptr64 cfg' 2147483648
               = fst (parse_sizes Ptr64 value))
      /\ (forall (before : list string) (value : string)
                 (after : list string) (cfg0 : config)
                 (log0 : list (event Q)),
            tl argv' = before ++ "--sizes" :: value :: after ->
            parse_args Ptr64 before (initial_config Ptr64)
            = (Next cfg0, log0) ->
            ~ In "--sizes" after ->
            userSpecifiedSizes cfg' = true
            /\ select_sizes Ptr64 cfg' 2147483648
               = fst (parse_sizes Ptr64 value))).
Proof.
  intros rt argv cfg argv' cfg'. split.
  - apply (catalog_ascending_unless_user_specified rt Ptr64 argv cfg
             2147483648 (snd (startup rt Ptr64 argv))).
    reflexivity.
  - apply (catalog_ascending_unless_user_specified rt Ptr64 argv' cfg'
             2147483648 (snd (startup rt Ptr64 argv'))).
    reflexivity.
Defined.

(** The second run, read off: the catalog is the list made of the word
    after [--sizes], not of another word of the command line. *)
Example catalog_of_last_sizes_option :
  let rt := healthy (R := Q) 2147483648 always_ok (fun _ _ _ => 1%Q) in
  fst (startup rt Ptr64
         ["gpu-pcie-bench"; "--sizes"; "7"; "--rounds"; "3";
          "--sizes"; "10M,1M,1M"])
  = Next (mkConfig 3 0 Both GBps true [10485760; 1048576; 1048576],
          2147483648).
Proof. reflexivity. Qed.

(** C3 as stated fails on a list given with [--sizes]: the catalog of this
    run, which performs its transfers and ends with exit code 0, is
    neither ascending nor free of duplicates. *)
Lemma user_catalog_not_ascending :
  let rt := healthy (R := Q) 2147483648 always_ok (fun _ _ _ => 1%Q) in
  let argv := ["gpu-pcie-bench"; "--rounds"; "1"; "--sizes"; "10M,1M,1M"] in
  exists cfg mem log,
    startup rt Ptr64 argv = (Next (cfg, mem), log)
    /\ select_sizes Ptr64 cfg mem = [10485760; 1048576; 1048576]
    /\ ~ StronglySorted Z.lt (select_sizes Ptr64 cfg mem)
    /\ ~ NoDup (select_sizes Ptr64 cfg mem)
    /\ In (Call (clEnqueueWriteBuffer 10485760)) (trace (main rt Ptr64 argv))
    /\ result (main rt Ptr64 argv) = Some (Exit 0).
Proof.
  intros rt argv.
  exists (mkConfig 1 0 Both GBps true [10485760; 1048576; 1048576]),
         2147483648, (snd (startup rt Ptr64 argv)).
  split; [reflexivity|]. split; [reflexivity|].
  split; [|split; [|split]].
  - intros Hs. simpl in Hs. inversion Hs as [|? ? _ Hall]; subst.
    inversion Hall as [|? ? Hlt _]; subst. lia.
  - intros Hn. simpl in Hn. inversion Hn as [|? ? _ Hn']; subst.
    inversion Hn' as [|? ? Hnotin _]; subst. apply Hnotin. now left.
  - vm_compute. tauto.
  - reflexivity.
Qed.

(** ** The round loop *)

Section RoundLoop.

Context {R : Type} `{DoubleOps R}.
Variable rt : runtime R.

(** [measure] always returns to its caller. *)
Lemma measure_returns (k i : nat) (size : Z) (write : bool) :
  measure rt k i size write
  = (Next (sample rt k i write),
     [Call (if write then clEnqueueWriteBuffer size else clEnqueueReadBuffer size);
      Call clFinish]
     ++ (if fst (transfer rt k i write) =? CL_SUCCESS then []
         else [Cerr_status (if write then "Write failed" else "Read failed")
                 (fst (transfer rt k i write))])).
Proof.
  unfold measure, sample.
  destruct (transfer rt k i write) as [status elapsed]. simpl fst. simpl snd.
  destruct (status =? CL_SUCCESS); reflexivity.
Qed.

Lemma measure_writes (k i : nat) (size : Z) (write : bool) :
  List.length (filter is_write (snd (measure rt k i size write)))
  = if write then 1%nat else 0%nat.
Proof.
  rewrite measure_returns. simpl snd.
  destruct write, (fst (transfer rt k i _) =? CL_SUCCESS); reflexivity.
Qed.

Lemma measure_reads (k i : nat) (size : Z) (write : bool) :
  List.length (filter is_read (snd (measure rt k i size write)))
  = if write then 0%nat else 1%nat.
Proof.
  rewrite measure_returns. simpl snd.
  destruct write, (fst (transfer rt k i _) =? CL_SUCCESS); reflexivity.
Qed.

Lemma round_body_returns (cfg : config) (k : nat) (dataSize : Z) (i : nat)
    (st : stats) :
  round_body rt cfg k dataSize i st
  = (Next (next_stats rt cfg k i st), iteration_log rt cfg k dataSize i).
Proof.
  unfold round_body, next_stats, iteration_log.
  rewrite !measure_returns.
  destruct (sends (direction cfg)), (receives (direction cfg));
    simpl; rewrite ?app_nil_r; try reflexivity;
    rewrite <- ?app_assoc; reflexivity.
Qed.

(** The round loop runs all its iterations, whatever the transfers
    answer. *)
Lemma round_loop_returns (cfg : config) (k : nat) (dataSize : Z) (n : nat) :
  forall (i : nat) (st : stats),
    round_loop rt cfg k dataSize n i st
    = (Next (loop_stats rt cfg k n i st), loop_log rt cfg k dataSize n i).
Proof.
  induction n as [|n IH]; intros i st; simpl.
  - reflexivity.
  - rewrite round_body_returns, bind_of_Next, IH. reflexivity.
Qed.

Lemma iteration_log_writes (cfg : config) (k : nat) (dataSize : Z) (i : nat) :
  List.length (filter is_write (iteration_log rt cfg k dataSize i))
  = if sends (direction cfg) then 1%nat else 0%nat.
Proof.
  unfold iteration_log. simpl filter.
  rewrite filter_app, length_app.
  destruct (sends (direction cfg)), (receives (direction cfg));
    rewrite ?measure_writes; reflexivity.
Qed.

Lemma iteration_log_reads (cfg : config) (k : nat) (dataSize : Z) (i : nat) :
  List.length (filter is_read (iteration_log rt cfg k dataSize i))
  = if receives (direction cfg) then 1%nat else 0%nat.
Proof.
  unfold iteration_log. simpl filter.
  rewrite filter_app, length_app.
  destruct (sends (direction cfg)), (receives (direction cfg));
    rewrite ?measure_reads; reflexivity.
Qed.

Lemma loop_log_writes (cfg : config) (k : nat) (dataSize : Z) (n : nat) :
  forall i : nat,
    List.length (filter is_write (loop_log rt cfg k dataSize n i))
    = if sends (direction cfg) then n else 0%nat.
Proof.
  induction n as [|n IH]; intros i; cbn [loop_log].
  - now destruct (sends (direction cfg)).
  - rewrite filter_app, length_app, iteration_log_writes, IH.
    now destruct (sends (direction cfg)).
Qed.

Lemma loop_log_reads (cfg : config) (k : nat) (dataSize : Z) (n : nat) :
  forall i : nat,
    List.length (filter is_read (loop_log rt cfg k dataSize n i))
    = if receives (direction cfg) then n else 0%nat.
Proof.
  induction n as [|n IH]; intros i; cbn [loop_log].
  - now destruct (receives (direction cfg)).
  - rewrite filter_app, length_app, iteration_log_reads, IH.
    now destruct (receives (direction cfg)).
Qed.

End RoundLoop.

(** ** One buffer size *)

Section SizeLoop.

Context {R : Type} `{DoubleOps R}.
Variable rt : runtime R.

Lemma bench_size_complete (cfg : config) (k : nat) (dataSize : Z) :
  buffers_ok rt k = true ->
  bench_size rt cfg k dataSize = (Next tt, size_block rt cfg k dataSize).
Proof.
  unfold buffers_ok. intros Hok.
  repeat (apply andb_true_iff in Hok as [Hok ?]).
  unfold bench_size, size_block, header_of, CHECK.
  destruct (format_size dataSize) as [n suffix].
  repeat match goal with
         | Hs : (_ =? CL_SUCCESS) = true |- _ => rewrite Hs; clear Hs
         end.
  rewrite round_loop_returns. cbn. reflexivity.
Qed.

Lemma bench_size_cut_short (cfg : config) (k : nat) (dataSize : Z) :
  buffers_ok rt k = false ->
  exists (pre : list (event R)) (msg : string) (status : Z),
    bench_size rt cfg k dataSize
    = (Stop (Exit 1), header_of dataSize :: pre ++ [Cerr_status msg status])
    /\ status <> CL_SUCCESS
    /\ forallb setup_only pre = true
    /\ forallb is_setup_call pre = true.
Proof.
  unfold buffers_ok. intros Hok.
  unfold bench_size, header_of, CHECK.
  destruct (format_size dataSize) as [n suffix].
  destruct (Z.eqb_spec (create_buffer rt k 0) CL_SUCCESS) as [E1|E1];
    [|eexists [_], _, _; split; [reflexivity|split; [exact E1|split; reflexivity]]].
  destruct (Z.eqb_spec (create_buffer rt k 1) CL_SUCCESS) as [E2|E2];
    [|eexists [_; _], _, _; split; [reflexivity|split; [exact E2|split; reflexivity]]].
  destruct (Z.eqb_spec (map_buffer rt k 0) CL_SUCCESS) as [E3|E3];
    [|eexists [_; _; _], _, _;
      split; [reflexivity|split; [exact E3|split; reflexivity]]].
  destruct (Z.eqb_spec (map_buffer rt k 1) CL_SUCCESS) as [E4|E4];
    [|eexists [_; _; _; _], _, _;
      split; [reflexivity|split; [exact E4|split; reflexivity]]].
  destruct (Z.eqb_spec (create_buffer rt k 2) CL_SUCCESS) as [E5|E5];
    [|eexists [_; _; _; _; _], _, _;
      split; [reflexivity|split; [exact E5|split; reflexivity]]].
  discriminate.
Qed.

End SizeLoop.

Section QuietOnRounds.

Context {R : Type} `{DoubleOps R}.
Variable rt : runtime R.

(** A class of events that the round loop and the report do not produce. *)
Variable p : event R -> bool.
Hypothesis p_iteration : forall i n, p (Cout_iteration i n) = false.
Hypothesis p_write : forall s, p (Call (clEnqueueWriteBuffer s)) = false.
Hypothesis p_read : forall s, p (Call (clEnqueueReadBuffer s)) = false.
Hypothesis p_finish : p (Call clFinish) = false.
Hypothesis p_status : forall m st, p (Cerr_status m st) = false.
Hypothesis p_endl : p Cout_endl = false.
Hypothesis p_heading : forall t, p (Cout_heading t) = false.
Hypothesis p_stat : forall l v u, p (Cout_stat l v u) = false.

Lemma filter_measure_log (k i : nat) (size : Z) (write : bool) :
  filter p (snd (measure rt k i size write)) = [].
Proof.
  rewrite measure_returns. cbn [snd]. rewrite filter_app.
  destruct write; cbn [filter]; rewrite ?p_write, ?p_read, p_finish;
    destruct (fst (transfer rt k i _) =? CL_SUCCESS); cbn [filter];
    rewrite ?p_status; reflexivity.
Qed.

Lemma filter_loop_log (cfg : config) (k : nat) (dataSize : Z) (n : nat) :
  forall i : nat, filter p (loop_log rt cfg k dataSize n i) = [].
Proof.
  induction n as [|n IH]; intros i; cbn [loop_log]; [reflexivity|].
  rewrite filter_app, IH, app_nil_r. unfold iteration_log.
  cbn [filter]. rewrite p_iteration, filter_app.
  destruct (sends (direction cfg)), (receives (direction cfg));
    rewrite ?filter_measure_log; reflexivity.
Qed.

Lemma filter_report (cfg : config) (dataSize : Z) (st : stats) :
  filter p (report cfg dataSize st) = [].
Proof.
  unfold report, report_lines.
  destruct (sends (direction cfg)), (receives (direction cfg));
    cbn [app filter]; rewrite ?p_heading, ?p_stat; reflexivity.
Qed.

(** Only the set-up and the clean-up of a block can hold such events. *)
Lemma filter_size_block (cfg : config) (k : nat) (dataSize : Z) :
  filter p (size_block rt cfg k dataSize)
  = filter p [ header_of dataSize;
               Call (clCreateBuffer dataSize); Call (clCreateBuffer dataSize);
               Call (clEnqueueMapBuffer dataSize);
               Call (clEnqueueMapBuffer dataSize);
               Call (clCreateBuffer dataSize) ]
    ++ filter p [ Call clEnqueueUnmapMemObject; Call clEnqueueUnmapMemObject;
                  Call clReleaseMemObject; Call clReleaseMemObject;
                  Call clReleaseMemObject ].
Proof.
  unfold size_block.
  change (header_of dataSize
          :: [Call (clCreateBuffer dataSize); Call (clCreateBuffer dataSize);
              Call (clEnqueueMapBuffer dataSize);
              Call (clEnqueueMapBuffer dataSize);
              Call (clCreateBuffer dataSize)] ++ ?x)
    with ([header_of dataSize;
           Call (clCreateBuffer dataSize); Call (clCreateBuffer dataSize);
           Call (clEnqueueMapBuffer dataSize);
           Call (clEnqueueMapBuffer dataSize);
           Call (clCreateBuffer dataSize)] ++ x).
  rewrite filter_app. f_equal.
  rewrite filter_app, filter_loop_log. cbn [app filter].
  rewrite p_endl, filter_app, filter_report. reflexivity.
Qed.

End QuietOnRounds.

Section RoundCount.

Context {R : Type} `{DoubleOps R}.
Variable rt : runtime R.

Lemma size_block_writes (cfg : config) (k : nat) (dataSize : Z) :
  List.length (filter is_write (size_block rt cfg k dataSize))
  = if sends (direction cfg) then Z.to_nat (rounds cfg) else 0%nat.
Proof.
  unfold size_block, header_of. cbn [app filter is_write].
  rewrite filter_app. cbn [filter is_write].
  rewrite filter_app, filter_report by reflexivity.
  cbn [filter is_write app]. rewrite app_nil_r. apply loop_log_writes.
Qed.

Lemma size_block_reads (cfg : config) (k : nat) (dataSize : Z) :
  List.length (filter is_read (size_block rt cfg k dataSize))
  = if receives (direction cfg) then Z.to_nat (rounds cfg) else 0%nat.
Proof.
  unfold size_block, header_of. cbn [app filter is_read].
  rewrite filter_app. cbn [filter is_read].
  rewrite filter_app, filter_report by reflexivity.
  cbn [filter is_read app]. rewrite app_nil_r. apply loop_log_reads.
Qed.

(** The body of the loop over the sizes runs to its end exactly when the
    set-up of the buffers succeeds, and then its events are those of
    [size_block]. *)
Lemma bench_size_Next (cfg : config) (k : nat) (dataSize : Z)
    (log : list (event R)) :
  bench_size rt cfg k dataSize = (Next tt, log) ->
  log = size_block rt cfg k dataSize.
Proof.
  intros Hrun. destruct (buffers_ok rt k) eqn:Hok.
  - rewrite (bench_size_complete rt cfg k dataSize Hok) in Hrun.
    now inversion Hrun.
  - destruct (bench_size_cut_short rt cfg k dataSize Hok)
      as (pre & msg & status & Hstop & _).
    rewrite Hstop in Hrun. discriminate.
Qed.

Lemma size_block_iterations (cfg : config) (k : nat) (dataSize : Z) :
  List.length (filter is_iteration (size_block rt cfg k dataSize))
  = Z.to_nat (rounds cfg).
Proof.
  unfold size_block, header_of. cbn [app filter is_iteration].
  rewrite filter_app. cbn [filter is_iteration].
  rewrite filter_app, length_app, length_app.
  assert (Hreport : forall st,
             filter is_iteration (report cfg dataSize st) = []).
  { intros st. unfold report, report_lines.
    destruct (sends (direction cfg)), (receives (direction cfg));
      reflexivity. }
  rewrite Hreport. cbn [List.length filter is_iteration]. rewrite !Nat.add_0_r.
  generalize 0%nat as i.
  induction (Z.to_nat (rounds cfg)) as [|n IH]; intros i; cbn [loop_log];
    [reflexivity|].
  rewrite filter_app, length_app, IH. unfold iteration_log.
  cbn [filter is_iteration List.length]. rewrite filter_app, length_app.
  rewrite !measure_returns.
  destruct (sends (direction cfg)), (receives (direction cfg));
    cbn [snd]; rewrite ?filter_app;
    repeat match goal with
           | |- context [if ?b then _ else _] => destruct b
           end; reflexivity.
Qed.


End RoundCount.


(** Scenario C: [--direction host2dev --rounds 3] on a buffer of 1 MiB makes
    three write transfers and no read transfer. *)
Example scenario_host2dev_three_rounds :
  let rt := healthy (R := Q) 2147483648 always_ok (fun _ _ _ => 1%Q) in
  let log := trace (main rt Ptr64 ["gpu-pcie-bench"; "--direction"; "host2dev";
                                    "--rounds"; "3"; "--sizes"; "1M"]) in
  filter is_write log = [Call (clEnqueueWriteBuffer 1048576);
                         Call (clEnqueueWriteBuffer 1048576);
                         Call (clEnqueueWriteBuffer 1048576)]
  /\ filter is_read log = [].
Proof. vm_compute. split; reflexivity. Qed.

(** ** Order of [double] values *)

Lemma SFltb_irrefl (x : spec_float) : SFltb x x = false.
Proof.
  unfold SFltb, SFcompare.
  destruct x as [s|s| |s m e]; try destruct s; try reflexivity;
    rewrite Z.compare_refl; fold (Pos.compare m m);
    rewrite Pos.compare_refl; reflexivity.
Qed.

Lemma SFltb_trans (x y z : spec_float) :
  SFltb x y = true -> SFltb y z = true -> SFltb x z = true.
Proof.
  unfold SFltb, SFcompare.
  destruct x as [sx|sx| |sx mx ex], y as [sy|sy| |sy my ey],
           z as [sz|sz| |sz mz ez];
    try destruct sx; try destruct sy; try destruct sz;
    try discriminate; try reflexivity;
    fold (Pos.compare mx my); fold (Pos.compare my mz); fold (Pos.compare mx mz);
    destruct (Z.compare_spec ex ey), (Z.compare_spec ey ez),
             (Z.compare_spec ex ez);
    try discriminate; try reflexivity; try lia; subst;
    destruct (Pos.compare_spec mx my), (Pos.compare_spec my mz),
             (Pos.compare_spec mx mz);
    simpl; try discriminate; try reflexivity; try lia.
Qed.

#[export] Instance binary64_ordered : OrderedDouble float.
Proof.
  split; simpl; intros; rewrite ltb_spec in *.
  - apply SFltb_irrefl.
  - eapply SFltb_trans; eassumption.
Qed.

Lemma Qltb_lt (x y : Q) : Qltb x y = true <-> (x < y)%Q.
Proof.
  unfold Qltb. rewrite Qlt_alt.
  destruct (x ?= y)%Q; split; intros; congruence.
Qed.

Lemma Qltb_ge (x y : Q) : Qltb x y = false <-> (y <= x)%Q.
Proof.
  pose proof (Qltb_lt x y) as Hlt.
  destruct (Qltb x y); split; intros Hx; try reflexivity; try discriminate.
  - apply Qle_not_lt in Hx. exfalso. apply Hx, Hlt. reflexivity.
  - apply Qnot_lt_le. intros Hxy. apply Hlt in Hxy. discriminate.
Qed.

#[export] Instance exact_ordered : OrderedDouble Q.
Proof.
  split; simpl.
  - intros x. apply Qltb_ge, Qle_refl.
  - intros x y z Hxy Hyz. rewrite Qltb_lt in *. now apply Qlt_trans with y.
Qed.

(** ** Extremes of the samples *)

Section Extremes.

Context {R : Type} `{OrderedDouble R}.

Lemma fold_max_not_below (l : list R) :
  forall m x : R,
    d_ltb m x = false -> d_ltb (fold_left std_max l m) x = false.
Proof.
  induction l as [|s l IH]; intros m x Hm; simpl; [exact Hm|].
  apply IH. unfold std_max.
  destruct (d_ltb m s) eqn:Ems; [|exact Hm].
  destruct (d_ltb s x) eqn:Esx; [|reflexivity].
  rewrite (d_ltb_trans m s x Ems Esx) in Hm. discriminate.
Qed.

Lemma fold_max_upper (l : list R) :
  forall m t : R, In t l -> d_ltb (fold_left std_max l m) t = false.
Proof.
  induction l as [|s l IH]; intros m t Hin; [destruct Hin|].
  destruct Hin as [<-|Hin]; simpl; [|now apply IH].
  apply fold_max_not_below. unfold std_max.
  destruct (d_ltb m s) eqn:Ems; [apply d_ltb_irrefl|exact Ems].
Qed.

Lemma fold_max_choice (l : list R) :
  forall m : R, fold_left std_max l m = m \/ In (fold_left std_max l m) l.
Proof.
  induction l as [|s l IH]; intros m; simpl; [now left|].
  destruct (IH (std_max m s)) as [Heq|Hin]; [|now right; right].
  rewrite Heq. unfold std_max. destruct (d_ltb m s); [right|]; now left.
Qed.

Lemma fold_min_not_above (l : list R) :
  forall m x : R,
    d_ltb x m = false -> d_ltb x (fold_left std_min l m) = false.
Proof.
  induction l as [|s l IH]; intros m x Hm; simpl; [exact Hm|].
  apply IH. unfold std_min.
  destruct (d_ltb s m) eqn:Esm; [|exact Hm].
  destruct (d_ltb x s) eqn:Exs; [|reflexivity].
  rewrite (d_ltb_trans x s m Exs Esm) in Hm. discriminate.
Qed.

Lemma fold_min_lower (l : list R) :
  forall m t : R, In t l -> d_ltb t (fold_left std_min l m) = false.
Proof.
  induction l as [|s l IH]; intros m t Hin; [destruct Hin|].
  destruct Hin as [<-|Hin]; simpl; [|now apply IH].
  apply fold_min_not_above. unfold std_min.
  destruct (d_ltb s m) eqn:Esm; [apply d_ltb_irrefl|exact Esm].
Qed.

Lemma fold_min_choice (l : list R) :
  forall m : R, fold_left std_min l m = m \/ In (fold_left std_min l m) l.
Proof.
  induction l as [|s l IH]; intros m; simpl; [now left|].
  destruct (IH (std_min m s)) as [Heq|Hin]; [|now right; right].
  rewrite Heq. unfold std_min. destruct (d_ltb s m); [right|]; now left.
Qed.

End Extremes.

(** ** The accumulators and the report *)

Section Report.

Context {R : Type} `{DoubleOps R}.
Variable rt : runtime R.

Lemma next_stats_active (cfg : config) (k i : nat) (st : stats) (w : bool) :
  active w (direction cfg) = true ->
  dir_sum (next_stats rt cfg k i st) w = d_add (dir_sum st w) (sample rt k i w)
  /\ dir_min (next_stats rt cfg k i st) w = std_min (dir_min st w) (sample rt k i w)
  /\ dir_max (next_stats rt cfg k i st) w = std_max (dir_max st w) (sample rt k i w).
Proof.
  unfold next_stats.
  destruct w, (direction cfg); simpl; intros Ha; try discriminate;
    repeat split; reflexivity.
Qed.

(** After the loop, the accumulators of an active direction are the folds
    of [+], [std::min] and [std::max] over its samples. *)
Lemma loop_stats_active (cfg : config) (k : nat) (w : bool) (n : nat) :
  active w (direction cfg) = true ->
  forall (i : nat) (st : stats),
    dir_sum (loop_stats rt cfg k n i st) w
    = fold_left d_add (samples rt k i n w) (dir_sum st w)
    /\ dir_min (loop_stats rt cfg k n i st) w
       = fold_left std_min (samples rt k i n w) (dir_min st w)
    /\ dir_max (loop_stats rt cfg k n i st) w
       = fold_left std_max (samples rt k i n w) (dir_max st w).
Proof.
  intros Ha. induction n as [|n IH]; intros i st.
  - repeat split; reflexivity.
  - cbn [loop_stats]. unfold samples. cbn [seq map fold_left].
    destruct (next_stats_active cfg k i st w Ha) as (Hs & Hmin & Hmax).
    rewrite <- Hs, <- Hmin, <- Hmax. apply IH.
Qed.

(** What is printed under each label for an active direction. *)
Lemma report_stats (cfg : config) (dataSize : Z) (st : stats) (w : bool) :
  active w (direction cfg) = true ->
  stat_under (heading_of w) "Avg" (report cfg dataSize st)
  = Some (convert (unit cfg) dataSize
            (d_div (dir_sum st w) (d_of_Z (rounds cfg))))
  /\ stat_under (heading_of w) "Min" (report cfg dataSize st)
     = Some (convert (unit cfg) dataSize (dir_max st w))
  /\ stat_under (heading_of w) "Max" (report cfg dataSize st)
     = Some (convert (unit cfg) dataSize (dir_min st w)).
Proof.
  unfold report, report_lines.
  destruct w, (direction cfg); simpl; intros Ha; try discriminate;
    repeat split; reflexivity.
Qed.

(** Reading a value back from the output: what follows the value does not
    matter, and the events of the round loop are passed over. *)
Lemma find_stat_app_Some (label : string) (l l' : list (event R)) (v : R) :
  find_stat label l = Some v -> find_stat label (l ++ l') = Some v.
Proof.
  induction l as [|e l IH]; cbn [app find_stat]; [discriminate|].
  destruct e; try exact IH; try discriminate.
  destruct (String.eqb label0 label); [trivial|exact IH].
Qed.

Lemma stat_under_app_Some (heading label : string) (l l' : list (event R))
    (v : R) :
  stat_under heading label l = Some v ->
  stat_under heading label (l ++ l') = Some v.
Proof.
  induction l as [|e l IH]; cbn [app stat_under]; [discriminate|].
  destruct e; try exact IH.
  destruct (String.eqb text heading); [apply find_stat_app_Some|exact IH].
Qed.

Lemma stat_under_measure (heading label : string) (k i : nat) (size : Z)
    (write : bool) (rest : list (event R)) :
  stat_under heading label (snd (measure rt k i size write) ++ rest)
  = stat_under heading label rest.
Proof.
  rewrite measure_returns. cbn [snd].
  destruct (fst (transfer rt k i write) =? CL_SUCCESS); reflexivity.
Qed.

Lemma stat_under_loop_log (heading label : string) (cfg : config) (k : nat)
    (dataSize : Z) (rest : list (event R)) (n : nat) :
  forall i : nat,
    stat_under heading label (loop_log rt cfg k dataSize n i ++ rest)
    = stat_under heading label rest.
Proof.
  induction n as [|n IH]; intros i; cbn [loop_log]; [reflexivity|].
  rewrite <- app_assoc. unfold iteration_log.
  cbn [app stat_under]. rewrite <- app_assoc.
  destruct (sends (direction cfg)), (receives (direction cfg));
    cbn [app]; rewrite ?stat_under_measure; apply IH.
Qed.

(** What is printed under a label in the report of a buffer size is read
    back from the events of its whole block. *)
Lemma stat_under_size_block (heading label : string) (cfg : config)
    (k : nat) (dataSize : Z) (v : R) :
  stat_under heading label
    (report cfg dataSize
       (loop_stats rt cfg k (Z.to_nat (rounds cfg)) 0 initial_stats))
  = Some v ->
  stat_under heading label (size_block rt cfg k dataSize) = Some v.
Proof.
  intros Hv. unfold size_block, header_of.
  cbn [app stat_under]. rewrite stat_under_loop_log.
  cbn [stat_under]. now apply stat_under_app_Some.
Qed.

End Report.

Section Labels.

Context {R : Type} `{OrderedDouble R}.
Variable rt : runtime R.


End Labels.



(** The same run, printed: 0.5 s gives "Min", 0.125 s gives "Max". *)
Example labels_of_three_samples :
  let rt := healthy (R := float) 2147483648 always_ok
              (fun _ i _ => match i with
                            | O => 0.5 | S O => 0.25 | _ => 0.125
                            end%float) in
  let log := trace (main rt Ptr64 ["gpu-pcie-bench"; "--rounds"; "3";
                                    "--sizes"; "1G"; "--direction"; "dev2host"]) in
  stat_under "Device to Host:" "Min" log = Some 2%float
  /\ stat_under "Device to Host:" "Max" log = Some 8%float.
Proof. vm_compute. split; reflexivity. Qed.

(** ** Minimum, average and maximum in exact arithmetic *)

Section ExactStats.

Local Open Scope Q_scope.

Lemma fold_sum_bounds (lo hi : Q) (l : list Q) :
  (forall t, In t l -> lo <= t /\ t <= hi) ->
  forall acc : Q,
    acc + inject_Z (Z.of_nat (List.length l)) * lo <= fold_left Qplus l acc
    /\ fold_left Qplus l acc <= acc + inject_Z (Z.of_nat (List.length l)) * hi.
Proof.
  induction l as [|s l IH]; intros Hb acc.
  - simpl. split; ring_simplify; apply Qle_refl.
  - assert (Hs : lo <= s /\ s <= hi) by (apply Hb; now left).
    assert (Hl : forall t, In t l -> lo <= t /\ t <= hi)
      by (intros t Ht; apply Hb; now right).
    destruct (IH Hl (acc + s)) as [IHlo IHhi].
    cbn [fold_left List.length].
    rewrite Nat2Z.inj_succ. unfold Z.succ. rewrite inject_Z_plus.
    set (n := inject_Z (Z.of_nat (List.length l))) in *.
    assert (Hone : inject_Z 1 == 1) by reflexivity.
    split.
    + eapply Qle_trans; [|exact IHlo]. rewrite Hone. lra.
    + eapply Qle_trans; [exact IHhi|]. rewrite Hone. lra.
Qed.

Lemma Qdiv_antitone (d x y : Q) :
  0 <= d -> 0 < x -> x <= y -> d / y <= d / x.
Proof.
  intros Hd Hx Hxy.
  assert (Hy : 0 < y) by (eapply Qlt_le_trans; eassumption).
  apply Qle_shift_div_r; [exact Hy|].
  setoid_replace d with (x * (d / x)) at 1
    by (field; intros Hx0; rewrite Hx0 in Hx; discriminate).
  setoid_replace (d / x * y) with (y * (d / x)) by ring.
  apply Qmult_le_compat_r; [exact Hxy|].
  apply Qle_shift_div_l; [exact Hx|]. now ring_simplify.
Qed.

(** The throughput decreases when the time grows. *)
Lemma convert_antitone (u : Unit) (dataSize : Z) (x y : Q) :
  (0 < dataSize)%Z -> 0 < x -> x <= y ->
  convert u dataSize y <= convert u dataSize x.
Proof.
  intros Hd Hx Hxy.
  assert (Hd' : 0 <= inject_Z dataSize)
    by (change 0 with (inject_Z 0); rewrite <- Zle_Qle; lia).
  destruct u; simpl; apply Qdiv_antitone; try exact Hd'.
  - repeat apply Qmult_lt_0_compat; try exact Hx; reflexivity.
  - repeat (apply Qmult_le_compat_r; [|discriminate]). exact Hxy.
  - repeat apply Qmult_lt_0_compat; try exact Hx; reflexivity.
  - repeat (apply Qmult_le_compat_r; [|discriminate]). exact Hxy.
Qed.

End ExactStats.

Section ExactInvariant.

Local Open Scope Q_scope.

Variable rt : runtime Q.

(** C6, as the program has it.  In exact arithmetic, for an active
    direction, at least one round, a positive buffer size and positive
    samples, the values printed under "Min", "Avg" and "Max" are in this
    order. *)
Theorem exact_min_avg_max_ordered :
  forall (cfg : config) (k : nat) (dataSize : Z) (w : bool),
    (0 < rounds cfg)%Z ->
    (0 < dataSize)%Z ->
    active w (direction cfg) = true ->
    (forall t, In t (samples rt k 0 (Z.to_nat (rounds cfg)) w) -> 0 < t) ->
    exists (st : stats) (log : list (event Q)) (mn avg mx : Q),
      round_loop rt cfg k dataSize (Z.to_nat (rounds cfg)) 0 initial_stats
      = (Next st, log)
      /\ stat_under (heading_of w) "Min" (report cfg dataSize st) = Some mn
      /\ stat_under (heading_of w) "Avg" (report cfg dataSize st) = Some avg
      /\ stat_under (heading_of w) "Max" (report cfg dataSize st) = Some mx
      /\ mn <= avg /\ avg <= mx.
Proof.
  intros cfg k dataSize w Hrounds Hsize Hactive Hpos.
  set (n := Z.to_nat (rounds cfg)) in *.
  set (l := samples rt k 0 n w) in *.
  set (st := loop_stats rt cfg k n 0 initial_stats).
  destruct (loop_stats_active rt cfg k w n Hactive 0%nat initial_stats)
    as (Hsum & Hmin & Hmax).
  fold st l in Hsum, Hmin, Hmax.
  assert (Hi_sum : dir_sum initial_stats w = 0) by now destruct w.
  assert (Hi_min : dir_min initial_stats w = inject_Z 10000000000)
    by now destruct w.
  assert (Hi_max : dir_max initial_stats w = 0) by now destruct w.
  rewrite Hi_sum in Hsum. rewrite Hi_min in Hmin. rewrite Hi_max in Hmax.
  destruct (report_stats cfg dataSize st w Hactive) as (Hpavg & Hpmin & Hpmax).
  eexists st, _, _, _, _.
  split; [apply round_loop_returns|].
  split; [exact Hpmin|]. split; [exact Hpavg|]. split; [exact Hpmax|].
  rewrite Hsum, Hmin, Hmax.
  (* the extremes bound every sample *)
  assert (Hbounds : forall t, In t l ->
            fold_left std_min l (inject_Z 10000000000) <= t
            /\ t <= fold_left std_max l 0).
  { intros t Ht. split; apply Qltb_ge.
    - exact (@fold_min_lower Q exact exact_ordered l _ t Ht).
    - exact (@fold_max_upper Q exact exact_ordered l _ t Ht). }
  assert (Hlo : 0 < fold_left std_min l (inject_Z 10000000000)).
  { destruct (@fold_min_choice Q exact l (inject_Z 10000000000)) as [Heq|Hin].
    - rewrite Heq. reflexivity.
    - now apply Hpos. }
  assert (Hlen : List.length l = n)
    by (unfold l, samples; now rewrite length_map, length_seq).
  assert (Hn : inject_Z (rounds cfg) = inject_Z (Z.of_nat (List.length l)))
    by (rewrite Hlen; unfold n; now rewrite Z2Nat.id by lia).
  assert (Hnpos : 0 < inject_Z (rounds cfg))
    by (change 0 with (inject_Z 0); rewrite <- Zlt_Qlt; exact Hrounds).
  destruct (fold_sum_bounds _ _ l Hbounds 0) as [Hslo Hshi].
  rewrite <- Hn in Hslo, Hshi.
  set (lo := fold_left std_min l (inject_Z 10000000000)) in *.
  set (hi := fold_left std_max l 0) in *.
  set (sum := fold_left Qplus l 0) in *.
  assert (Havg_lo : lo <= sum / inject_Z (rounds cfg)).
  { apply Qle_shift_div_l; [exact Hnpos|]. lra. }
  assert (Havg_hi : sum / inject_Z (rounds cfg) <= hi).
  { apply Qle_shift_div_r; [exact Hnpos|]. lra. }
  split; apply convert_antitone; try assumption.
  apply Qlt_le_trans with lo; assumption.
Qed.

End ExactInvariant.

Lemma exact_min_avg_max_ordered_witness :
  let rt := healthy (R := Q) 2147483648 always_ok
              (fun _ i _ => match i with
                            | O => 1 # 10 | S O => 1 # 10 | _ => 1 # 10
                            end) in
  let cfg := mkConfig 3 0 HostToDevice GBps true [1048576] in
  exists (st : stats) (log : list (event Q)) (mn avg mx : Q),
    round_loop rt cfg 0 1048576 (Z.to_nat (rounds cfg)) 0 initial_stats
    = (Next st, log)
    /\ stat_under (heading_of true) "Min" (report cfg 1048576 st) = Some mn
    /\ stat_under (heading_of true) "Avg" (report cfg 1048576 st) = Some avg
    /\ stat_under (heading_of true) "Max" (report cfg 1048576 st) = Some mx
    /\ (mn <= avg)%Q /\ (avg <= mx)%Q.
Proof.
  intros rt cfg.
  apply (exact_min_avg_max_ordered rt cfg 0%nat 1048576 true).
  - reflexivity.
  - reflexivity.
  - reflexivity.
  - intros t Ht. vm_compute in Ht.
    destruct Ht as [<-|[<-|[<-|[]]]]; reflexivity.
Defined.

(** C6 as stated fails in binary64.  Three transfers of 0.1 s each (the
    double nearest to 0.1) of a buffer of 1 MiB: the sum rounds up, the
    average time is one unit in the last place above every sample, and
    the average throughput printed is below the one printed as "Min". *)
Lemma average_below_min_in_binary64 :
  let rt := healthy (R := float) 2147483648 always_ok
              (fun _ _ _ => 0x1.999999999999ap-4%float) in
  let log := trace (main rt Ptr64 ["gpu-pcie-bench"; "--rounds"; "3";
                                    "--sizes"; "1M"; "--direction"; "host2dev"]) in
  samples rt 0 0 3 true
  = [0x1.999999999999ap-4; 0x1.999999999999ap-4; 0x1.999999999999ap-4]%float
  /\ stat_under "Host to Device:" "Min" log = Some 0x1.4p-7%float
  /\ stat_under "Host to Device:" "Avg" log = Some 0x1.3ffffffffffffp-7%float
  /\ stat_under "Host to Device:" "Max" log = Some 0x1.4p-7%float
  /\ PrimFloat.ltb 0x1.3ffffffffffffp-7 0x1.4p-7 = true.
Proof. vm_compute. repeat split; reflexivity. Qed.

(** ** Failures that do not end the run as documented *)

(** C1: the code at a failing input.  Every write transfer answers
    CL_OUT_OF_RESOURCES (-5).  [CHECK] inside [measure] prints the
    diagnostic and returns [1.0] as the sample: the loop goes on to the
    next round, the report of the buffer size is printed from these
    samples, and the run ends with exit code 0. *)
Theorem failed_transfer_is_reported_as_a_sample :
  let rt := healthy (R := float) 2147483648
              (fun _ _ w => if w then -5 else CL_SUCCESS)
              (fun _ _ _ => 0.5%float) in
  main rt Ptr64 ["gpu-pcie-bench"; "--rounds"; "2"; "--sizes"; "1M";
                 "--direction"; "host2dev"]
  = (Stop (Exit 0),
     [ Cout_cpu "Example CPU";
       Call clGetPlatformIDs; Call clGetPlatformIDs;
       Call clGetDeviceIDs; Call clGetDeviceIDs;
       Call clGetDeviceInfo; Call clGetDeviceInfo; Call clGetDeviceInfo;
       Cout_gpu 2048;
       Call clCreateContext; Call clCreateCommandQueue;
       Cout_buffer_size 1 "MB";
       Call (clCreateBuffer 1048576); Call (clCreateBuffer 1048576);
       Call (clEnqueueMapBuffer 1048576); Call (clEnqueueMapBuffer 1048576);
       Call (clCreateBuffer 1048576);
       Cout_iteration 1 2;
       Call (clEnqueueWriteBuffer 1048576); Call clFinish;
       Cerr_status "Write failed" (-5);
       Cout_iteration 2 2;
       Call (clEnqueueWriteBuffer 1048576); Call clFinish;
       Cerr_status "Write failed" (-5);
       Cout_endl;
       Cout_heading "Host to Device:";
       Cout_stat "Avg" 0x1p-10%float "GB/s";
       Cout_stat "Min" 0x1p-10%float "GB/s";
       Cout_stat "Max" 0x1p-10%float "GB/s";
       Call clEnqueueUnmapMemObject; Call clEnqueueUnmapMemObject;
       Call clReleaseMemObject; Call clReleaseMemObject;
       Call clReleaseMemObject;
       Call clReleaseCommandQueue; Call clReleaseContext ]).
Proof. vm_compute. reflexivity. Qed.

(** C9: the code at a failing input.  A value of [--rounds] or [--device]
    that does not start with a number makes [std::stoi] throw
    [std::invalid_argument], a number outside [int] makes it throw
    [std::out_of_range]; nothing catches the exception, so the run ends in
    [std::terminate] without any output of the program, not with exit
    code 1. *)
Theorem non_numeric_rounds_terminates :
  forall (R : Type) (ops : DoubleOps R) (rt : runtime R) (a : arch),
    main rt a ["gpu-pcie-bench"; "--rounds"; "abc"]
    = (Stop (Terminate invalid_argument), [])
    /\ main rt a ["gpu-pcie-bench"; "--device"; "gpu0"]
       = (Stop (Terminate invalid_argument), [])
    /\ main rt a ["gpu-pcie-bench"; "--rounds"; "99999999999"]
       = (Stop (Terminate out_of_range), []).
Proof. intros R ops rt a. repeat split; reflexivity. Qed.

(** ** The tokens of [--sizes] *)

Section Tokens.

Lemma digit_cases (d : Z) :
  0 <= d <= 9 ->
  d = 0 \/ d = 1 \/ d = 2 \/ d = 3 \/ d = 4 \/ d = 5 \/ d = 6 \/ d = 7
  \/ d = 8 \/ d = 9.
Proof. lia. Qed.

Ltac each_digit H :=
  apply digit_cases in H;
  repeat (destruct H as [H|H]); subst.

Lemma digit_char_facts (d : Z) :
  0 <= d <= 9 ->
  isdigit (digit_char d) = true
  /\ digit_value (digit_char d) = d
  /\ isspace (digit_char d) = false
  /\ ascii_in (digit_char d) "K" "k" = false
  /\ ascii_in (digit_char d) "M" "m" = false
  /\ ascii_in (digit_char d) "G" "g" = false.
Proof. intros Hd. each_digit Hd; repeat split; reflexivity. Qed.

Lemma read_digits_numeral (ds : list Z) :
  Forall (fun d => 0 <= d <= 9) ds ->
  forall acc : Z,
    read_digits acc (numeral ds)
    = (fold_left (fun acc d => 10 * acc + d) ds acc, List.length ds).
Proof.
  induction 1 as [|d t Hd _ IH]; intros acc; simpl; [reflexivity|].
  destruct (digit_char_facts d Hd) as (Hdig & Hval & _).
  rewrite Hdig, Hval, IH. reflexivity.
Qed.

Lemma scan_number_numeral (ds : list Z) :
  decimal_digits ds -> scan_number (numeral ds) = Some (false, numeral_value ds).
Proof.
  intros [Hne Hds]. destruct ds as [|d t]; [congruence|].
  inversion Hds as [|? ? Hd Ht]; subst.
  unfold scan_number, numeral_value. cbn [numeral skip_spaces].
  destruct (digit_char_facts d Hd) as (Hdig & Hval & Hsp & _).
  rewrite Hsp.
  assert (Hsign :
    match String (digit_char d) (numeral t) with
    | String "-" r => (true, r)
    | String "+" r => (false, r)
    | _ => (false, String (digit_char d) (numeral t))
    end = (false, String (digit_char d) (numeral t)))
    by (clear - Hd; each_digit Hd; reflexivity).
  rewrite Hsign. cbn [read_digits]. rewrite Hdig, Hval.
  rewrite (read_digits_numeral t Ht). reflexivity.
Qed.

Lemma stoull_numeral (ds : list Z) :
  decimal_digits ds ->
  stoull (numeral ds)
  = if numeral_value ds >? ULLONG_MAX then inl out_of_range
    else inr (numeral_value ds).
Proof.
  intros Hds. unfold stoull. now rewrite (scan_number_numeral ds Hds).
Qed.

Lemma append_empty_r (s : string) : (s ++ "")%string = s.
Proof. induction s as [|c s IH]; simpl; [reflexivity|now rewrite IH]. Qed.

Lemma length_append (s t : string) :
  String.length (s ++ t) = (String.length s + String.length t)%nat.
Proof. induction s as [|c s IH]; simpl; [reflexivity|now rewrite IH]. Qed.

Lemma back_app_char (s : string) (c : ascii) :
  back (s ++ String c "")%string = Some c.
Proof.
  induction s as [|x s IH]; [reflexivity|].
  cbn [String.append back]. rewrite <- IH.
  destruct s; reflexivity.
Qed.

Lemma drop_back_app_char (s : string) (c : ascii) :
  drop_back (s ++ String c "")%string = s.
Proof.
  induction s as [|x s IH]; [reflexivity|].
  cbn [String.append drop_back]. rewrite <- IH at 2.
  destruct s; reflexivity.
Qed.

Lemma back_numeral (ds : list Z) :
  decimal_digits ds ->
  exists d, 0 <= d <= 9 /\ back (numeral ds) = Some (digit_char d).
Proof.
  intros [Hne Hds]. induction Hds as [|d t Hd Ht IH]; [congruence|].
  destruct t as [|d' t'].
  - exists d. now split.
  - destruct IH as (e & He & Hback); [discriminate|].
    exists e. split; [exact He|]. cbn [numeral back] in *. exact Hback.
Qed.

(** The value [parse_sizes] pushes for a well-formed token. *)
Lemma size_of_item_token (a : arch) (ds : list Z) (s : size_suffix) :
  decimal_digits ds ->
  size_of_item a (size_token ds s)
  = if numeral_value ds >? ULLONG_MAX then inl out_of_range
    else inr ((numeral_value ds * 1024 ^ suffix_power s) mod 2 ^ size_bits a).
Proof.
  intros Hds.
  assert (Hsplit :
    exists multiplier,
      multiplier = 1024 ^ suffix_power s
      /\ size_of_item a (size_token ds s)
         = match stoull (numeral ds) with
           | inl e => inl e
           | inr v => inr (to_size_t a (to_size_t a v * multiplier))
           end).
  { unfold size_of_item, size_token.
    destruct s; cbn [suffix_text suffix_power];
      try (rewrite back_app_char, drop_back_app_char;
           eexists; split; [|reflexivity]; reflexivity).
    rewrite append_empty_r.
    destruct (back_numeral ds Hds) as (d & Hd & Hback). rewrite Hback.
    destruct (digit_char_facts d Hd) as (_ & _ & _ & HK & HM & HG).
    rewrite HK, HM, HG. eexists; split; [|reflexivity]; reflexivity. }
  destruct Hsplit as (multiplier & -> & ->).
  rewrite (stoull_numeral ds Hds).
  destruct (numeral_value ds >? ULLONG_MAX); [reflexivity|].
  unfold to_size_t. f_equal. apply Z.mul_mod_idemp_l.
  destruct a; discriminate.
Qed.

Lemma scan_number_none (s : string) :
  no_leading_number s -> scan_number s = None.
Proof.
  destruct s as [|c r]; [reflexivity|]. unfold no_leading_number.
  destruct c as [[] [] [] [] [] [] [] []]; intros Hc;
    try discriminate Hc; reflexivity.
Qed.

Lemma drop_back_no_leading_number (s : string) :
  no_leading_number s -> no_leading_number (drop_back s).
Proof. destruct s as [|c [|c' r]]; simpl; auto. Qed.

(** A token without a leading number is refused by [std::stoull]. *)
Lemma size_of_item_no_number (a : arch) (item : string) :
  no_leading_number item -> size_of_item a item = inl invalid_argument.
Proof.
  intros Hno. unfold size_of_item.
  assert (Hitem : stoull item = inl invalid_argument)
    by (unfold stoull; now rewrite scan_number_none).
  assert (Hdrop : stoull (drop_back item) = inl invalid_argument)
    by (unfold stoull; rewrite scan_number_none;
        [reflexivity|now apply drop_back_no_leading_number]).
  destruct (back item) as [c|]; [|now rewrite Hitem].
  destruct (ascii_in c "K" "k"); [now rewrite Hdrop|].
  destruct (ascii_in c "M" "m"); [now rewrite Hdrop|].
  destruct (ascii_in c "G" "g"); [now rewrite Hdrop|].
  now rewrite Hitem.
Qed.

Lemma getline_no_comma (t : string) :
  has_comma t = false -> getline t = (t, EmptyString).
Proof.
  induction t as [|c r IH]; simpl; [reflexivity|].
  intros Hc. apply orb_false_iff in Hc as [Hc Hr].
  rewrite Hc, (IH Hr). reflexivity.
Qed.

Lemma getline_comma (t rest : string) :
  has_comma t = false -> getline (t ++ String "," rest)%string = (t, rest).
Proof.
  induction t as [|c r IH]; simpl; [reflexivity|].
  intros Hc. apply orb_false_iff in Hc as [Hc Hr].
  rewrite Hc, (IH Hr). reflexivity.
Qed.

Lemma parse_sizes_loop_end (a : arch) (fuel : nat) (result : list Z)
    (cerr : list string) :
  parse_sizes_loop fuel a EmptyString result cerr = (result, cerr).
Proof. destruct fuel; reflexivity. Qed.

Lemma parse_sizes_loop_step (a : arch) (fuel : nat) (ss : string)
    (result : list Z) (cerr : list string) :
  ss <> EmptyString ->
  parse_sizes_loop (S fuel) a ss result cerr
  = match size_of_item a (fst (getline ss)) with
    | inr v => parse_sizes_loop fuel a (snd (getline ss)) (result ++ [v]) cerr
    | inl _ =>
        parse_sizes_loop fuel a (snd (getline ss)) result
          (cerr ++ [("Invalid size: " ++ fst (getline ss))%string])
    end.
Proof.
  intros Hne. destruct ss as [|c r]; [congruence|].
  cbn [parse_sizes_loop]. destruct (getline (String c r)). reflexivity.
Qed.

(** The loop takes the tokens one by one; the fuel [parse_sizes] gives is
    enough to read them all. *)
Lemma parse_sizes_loop_items (a : arch) (items : list string) :
  Forall (fun t => has_comma t = false) items ->
  last items "," <> EmptyString ->
  forall (fuel : nat) (result : list Z) (cerr : list string),
    (String.length (join_comma items) <= fuel)%nat ->
    parse_sizes_loop fuel a (join_comma items) result cerr
    = (result ++ values_of a items, cerr ++ diagnostics_of a items).
Proof.
  induction 1 as [|t rest Ht Hrest IH]; intros Hlast fuel result cerr Hfuel.
  - simpl. now rewrite parse_sizes_loop_end, !app_nil_r.
  - destruct rest as [|t' rest'].
    + (* the last token: it is not empty *)
      cbn [join_comma last] in *.
      destruct fuel as [|fuel];
        [destruct t; [congruence|simpl in Hfuel; lia]|].
      rewrite parse_sizes_loop_step by exact Hlast.
      rewrite (getline_no_comma t Ht). cbn [fst snd].
      unfold values_of, diagnostics_of. cbn [flat_map].
      destruct (size_of_item a t);
        now rewrite parse_sizes_loop_end, !app_nil_r.
    + change (join_comma (t :: t' :: rest'))
        with (t ++ String "," (join_comma (t' :: rest')))%string in *.
      change (last (t :: t' :: rest') ",") with (last (t' :: rest') ",") in Hlast.
      set (tail := join_comma (t' :: rest')) in *.
      assert (Hlen : String.length (t ++ String "," tail)
                     = S (String.length t + String.length tail)).
      { rewrite length_append. simpl. lia. }
      destruct fuel as [|fuel]; [lia|].
      rewrite parse_sizes_loop_step
        by (destruct t; discriminate).
      rewrite (getline_comma t tail Ht). cbn [fst snd].
      unfold values_of, diagnostics_of. cbn [flat_map].
      fold (values_of a (t' :: rest')). fold (diagnostics_of a (t' :: rest')).
      destruct (size_of_item a t);
        rewrite IH by (try exact Hlast; lia);
        now rewrite <- ?app_assoc.
Qed.

End Tokens.

Lemma numeral_value_nonneg (ds : list Z) :
  Forall (fun d => 0 <= d <= 9) ds -> 0 <= numeral_value ds.
Proof.
  unfold numeral_value. intros Hds.
  assert (Hacc : forall acc, 0 <= acc ->
            0 <= fold_left (fun acc d => 10 * acc + d) ds acc).
  { induction Hds as [|d t Hd _ IH]; intros acc Hacc; cbn [fold_left];
      [exact Hacc|].
    apply IH. lia. }
  apply Hacc. lia.
Qed.

(** C2, as the program has it.  A token made of a decimal integer N and an
    optional suffix K, M or G in either case yields N * 1024^k reduced
    modulo 2^w, where w is the width of [size_t], when N is at most
    ULLONG_MAX, and is dropped otherwise; the value is N * 1024^k itself
    when that is below 2^w.  A token without a leading number ("abc", the
    empty token) is dropped.  The tokens of the argument are handled one by
    one, in order: the result holds the values of those that convert, and
    one diagnostic is written for each of the others. *)
Theorem parse_sizes_token_values :
  forall a : arch,
    (forall (ds : list Z) (s : size_suffix),
        decimal_digits ds ->
        size_of_item a (size_token ds s)
        = if numeral_value ds >? ULLONG_MAX then inl out_of_range
          else inr ((numeral_value ds * 1024 ^ suffix_power s)
                    mod 2 ^ size_bits a))
    /\ (forall (ds : list Z) (s : size_suffix),
        decimal_digits ds ->
        numeral_value ds * 1024 ^ suffix_power s < 2 ^ size_bits a ->
        size_of_item a (size_token ds s)
        = inr (numeral_value ds * 1024 ^ suffix_power s))
    /\ (forall item : string,
        no_leading_number item ->
        size_of_item a item = inl invalid_argument)
    /\ (forall items : list string,
        Forall (fun t => has_comma t = false) items ->
        last items "," <> EmptyString ->
        parse_sizes a (join_comma items)
        = (values_of a items, diagnostics_of a items)).
Proof.
  intros a. split; [|split; [|split]].
  - intros ds s Hds. now apply size_of_item_token.
  - intros ds s Hds Hsmall.
    rewrite (size_of_item_token a ds s Hds).
    pose proof (numeral_value_nonneg ds (proj2 Hds)) as Hnn.
    assert (Hpow : 1 <= 1024 ^ suffix_power s) by (destruct s; simpl; lia).
    assert (Hmax : 2 ^ size_bits a <= ULLONG_MAX + 1)
      by (destruct a; unfold ULLONG_MAX; simpl; lia).
    assert (Hle : numeral_value ds <= numeral_value ds * 1024 ^ suffix_power s)
      by nia.
    destruct (Z.gtb_spec (numeral_value ds) ULLONG_MAX) as [Hgt|_]; [lia|].
    f_equal. apply Z.mod_small. nia.
  - intros item Hitem. now apply size_of_item_no_number.
  - intros items Hitems Hlast. unfold parse_sizes.
    now rewrite (parse_sizes_loop_items a items Hitems Hlast).
Qed.

Lemma parse_sizes_token_values_witness :
  size_of_item Ptr64 (size_token [5; 1; 2] upper_K)
  = inr (numeral_value [5; 1; 2] * 1024 ^ suffix_power upper_K)
  /\ size_of_item Ptr64 "abc" = inl invalid_argument
  /\ parse_sizes Ptr64 (join_comma ["512K"; "abc"; ""; "1m"])
     = (values_of Ptr64 ["512K"; "abc"; ""; "1m"],
        diagnostics_of Ptr64 ["512K"; "abc"; ""; "1m"]).
Proof.
  destruct (parse_sizes_token_values Ptr64) as (_ & Hexact & Hbad & Hbatch).
  split; [|split].
  - apply (Hexact [5; 1; 2] upper_K).
    + split; [discriminate|]. repeat constructor; lia.
    + reflexivity.
  - apply (Hbad "abc"). reflexivity.
  - apply (Hbatch ["512K"; "abc"; ""; "1m"]).
    + repeat constructor.
    + discriminate.
Defined.

Example parse_sizes_batch :
  parse_sizes Ptr64 (join_comma ["512K"; "abc"; ""; "1m"])
  = ([524288; 1048576], ["Invalid size: abc"; "Invalid size: "]).
Proof. reflexivity. Qed.

(** C2 as stated fails in two ways.  The well-formed token 17179869184G
    stands for 2^64 bytes and yields 0, the product reduced modulo 2^64.
    The token 12abc is not well formed and is not dropped: [std::stoull]
    reads the digits and ignores what follows, so the token yields 12
    and no diagnostic. *)
Lemma parse_sizes_wraps_and_reads_prefixes :
  (well_formed_token "17179869184G" = true
   /\ size_token [1; 7; 1; 7; 9; 8; 6; 9; 1; 8; 4] upper_G = "17179869184G"
   /\ numeral_value [1; 7; 1; 7; 9; 8; 6; 9; 1; 8; 4] * 1024 ^ 3
      = 18446744073709551616
   /\ parse_sizes Ptr64 "17179869184G" = ([0], []))
  /\ (well_formed_token "12abc" = false
      /\ parse_sizes Ptr64 "12abc" = ([12], [])).
Proof. vm_compute. repeat split; reflexivity. Qed.

(** * Further properties *)

(** ** The catalog without [--sizes] *)

Section DefaultCatalog.

Lemma strictly_sorted_unique (l1 : list Z) :
  forall l2 : list Z,
    StronglySorted Z.lt l1 -> StronglySorted Z.lt l2 ->
    (forall x, In x l1 <-> In x l2) -> l1 = l2.
Proof.
  induction l1 as [|x t IH]; intros l2 Hs1 Hs2 Hsame.
  - destruct l2 as [|y u]; [reflexivity|].
    exfalso. apply (proj2 (Hsame y)). now left.
  - destruct l2 as [|y u].
    { exfalso. apply (proj1 (Hsame x)). now left. }
    inversion Hs1 as [|? ? Hst Hxt]; subst.
    inversion Hs2 as [|? ? Hsu Hyu]; subst.
    rewrite Forall_forall in Hxt, Hyu.
    assert (Hxy : x = y).
    { destruct (proj1 (Hsame x) (or_introl eq_refl)) as [Heq|Hin]; [congruence|].
      destruct (proj2 (Hsame y) (or_introl eq_refl)) as [Heq|Hin']; [congruence|].
      specialize (Hyu x Hin). specialize (Hxt y Hin'). lia. }
    subst y. f_equal. apply IH; [exact Hst|exact Hsu|].
    intros z. split; intros Hz.
    + destruct (proj1 (Hsame z) (or_intror Hz)) as [Heq|Hin]; [|exact Hin].
      specialize (Hxt z Hz). lia.
    + destruct (proj2 (Hsame z) (or_intror Hz)) as [Heq|Hin]; [|exact Hin].
      specialize (Hyu z Hz). lia.
Qed.

Lemma filter_strictly_sorted (f : Z -> bool) (l : list Z) :
  StronglySorted Z.lt l -> StronglySorted Z.lt (filter f l).
Proof.
  induction 1 as [|x t Hs IH Hall]; simpl; [constructor|].
  destruct (f x); [|exact IH].
  constructor; [exact IH|].
  rewrite Forall_forall in *. intros z Hz.
  apply filter_In in Hz as [Hz _]. now apply Hall.
Qed.

Lemma staticSizes_sorted (a : arch) : StronglySorted Z.lt (staticSizes a).
Proof.
  destruct a; repeat (constructor; [|repeat constructor; lia]); constructor.
Qed.

Lemma std_sort_sorted_id (l : list Z) :
  StronglySorted Z.le l -> std_sort l = l.
Proof.
  induction 1 as [|x t Hs IH Hall]; simpl; [reflexivity|].
  rewrite IH. destruct t as [|y u]; [reflexivity|]. simpl.
  inversion Hall as [|? ? Hxy _]; subst.
  apply Z.leb_le in Hxy. now rewrite Hxy.
Qed.

Lemma erase_remove_absent (sz : Z) (l : list Z) :
  ~ In sz l -> erase_remove sz l = l.
Proof.
  unfold erase_remove. induction l as [|y t IH]; intros Hout; simpl;
    [reflexivity|].
  destruct (Z.eqb_spec y sz) as [->|Hne]; simpl.
  - exfalso. apply Hout. now left.
  - f_equal. apply IH. intros Hin. apply Hout. now right.
Qed.

Lemma default_catalog_In (a : arch) (gpuMemSize x : Z) :
  In x (select_sizes a (initial_config a) gpuMemSize)
  <-> In x (staticSizes a) /\ x <= to_size_t a gpuMemSize / 4.
Proof.
  unfold select_sizes. cbn [userSpecifiedSizes initial_config sizes].
  rewrite default_sizes_static. unfold filter_static_sizes_by_gpu_memory.
  rewrite std_sort_In, filter_loop_In. intuition lia.
Qed.

(** X1. Without [--sizes], the catalog is exactly the list of the standard
    sizes that are at most a quarter of the memory size (as [size_t]), in
    ascending order. *)
Theorem default_catalog_is_quarter_filter :
  forall (a : arch) (gpuMemSize : Z),
    select_sizes a (initial_config a) gpuMemSize
    = filter (fun s => s <=? to_size_t a gpuMemSize / 4) (staticSizes a).
Proof.
  intros a M.
  apply strictly_sorted_unique.
  - unfold select_sizes. cbn [userSpecifiedSizes initial_config sizes].
    rewrite default_sizes_static.
    apply sorted_nodup_strict; [apply std_sort_sorted|].
    apply (Permutation_NoDup (std_sort_perm _)).
    apply filter_loop_NoDup, staticSizes_NoDup.
  - apply filter_strictly_sorted, staticSizes_sorted.
  - intros x. rewrite default_catalog_In, filter_In, Z.leb_le. reflexivity.
Qed.

(** X2. Without [--sizes], the catalog is empty exactly when the memory
    size (as [size_t]) is below 2 MiB, four times the smallest standard
    size. *)
Theorem default_catalog_empty_iff :
  forall (a : arch) (gpuMemSize : Z),
    select_sizes a (initial_config a) gpuMemSize = []
    <-> to_size_t a gpuMemSize < 2097152.
Proof.
  intros a M.
  set (q := to_size_t a M / 4).
  assert (Hq : 524288 <= q <-> 2097152 <= to_size_t a M).
  { unfold q. split; intros Hle.
    - pose proof (Z.mul_div_le (to_size_t a M) 4). lia.
    - apply Z.div_le_lower_bound; lia. }
  split.
  - intros Hnil. destruct (Z.leb_spec 524288 q) as [Hle|Hgt]; [|lia].
    exfalso.
    assert (Hin : In 524288 (select_sizes a (initial_config a) M)).
    { apply default_catalog_In. split; [destruct a; now left|exact Hle]. }
    rewrite Hnil in Hin. destruct Hin.
  - intros Hsmall.
    destruct (select_sizes a (initial_config a) M) as [|y t] eqn:Hcat;
      [reflexivity|].
    exfalso.
    assert (Hy : In y (select_sizes a (initial_config a) M))
      by (rewrite Hcat; now left).
    apply default_catalog_In in Hy as [Hstatic Hle]. fold q in Hle.
    assert (524288 <= y); [|lia].
    destruct a; simpl in Hstatic; intuition lia.
Qed.

(** X3. More memory never loses a size: an entry that
    [filter_static_sizes_by_gpu_memory] keeps for one memory size is kept
    for every larger one. *)
Theorem filter_monotone_in_memory :
  forall (a : arch) (catalog : list Z) (small large x : Z),
    small <= large ->
    In x (filter_static_sizes_by_gpu_memory a catalog small) ->
    In x (filter_static_sizes_by_gpu_memory a catalog large).
Proof.
  intros a catalog small large x Hle.
  unfold filter_static_sizes_by_gpu_memory.
  rewrite !std_sort_In, !filter_loop_In.
  assert (small / 4 <= large / 4) by (apply Z.div_le_mono; lia).
  intuition lia.
Qed.

Lemma filter_loop_fixed (M : Z) (l : list Z) :
  forall static : list Z,
    (forall sz, In sz static -> (In sz l <-> sz <= M / 4)) ->
    fold_left (filter_step M) static l = l.
Proof.
  induction static as [|sz t IH]; intros Hfix; simpl; [reflexivity|].
  assert (Hstep : filter_step M l sz = l).
  { unfold filter_step.
    pose proof (Hfix sz (or_introl eq_refl)) as Hsz.
    destruct (Z.gtb_spec sz (M / 4)) as [Hgt|Hle].
    - apply erase_remove_absent. intros Hin. apply Hsz in Hin. lia.
    - destruct (not_found sz l) eqn:E; [|reflexivity].
      apply not_found_spec in E. exfalso. apply E, Hsz. exact Hle. }
  rewrite Hstep. apply IH. intros s Hs. apply Hfix. now right.
Qed.

(** X4. [filter_static_sizes_by_gpu_memory] yields a list sorted in
    ascending order, and applying it again with the same memory size
    changes nothing. *)
Theorem filter_idempotent :
  forall (a : arch) (catalog : list Z) (gpuMemSize : Z),
    StronglySorted Z.le (filter_static_sizes_by_gpu_memory a catalog gpuMemSize)
    /\ filter_static_sizes_by_gpu_memory a
         (filter_static_sizes_by_gpu_memory a catalog gpuMemSize) gpuMemSize
       = filter_static_sizes_by_gpu_memory a catalog gpuMemSize.
Proof.
  intros a catalog M.
  assert (Hsorted : StronglySorted Z.le
                      (filter_static_sizes_by_gpu_memory a catalog M))
    by apply std_sort_sorted.
  split; [exact Hsorted|].
  set (r := filter_static_sizes_by_gpu_memory a catalog M) in *.
  unfold filter_static_sizes_by_gpu_memory at 1.
  rewrite filter_loop_fixed; [now apply std_sort_sorted_id|].
  intros sz Hsz. unfold r, filter_static_sizes_by_gpu_memory.
  rewrite std_sort_In, filter_loop_In. intuition lia.
Qed.

End DefaultCatalog.

Lemma filter_monotone_in_memory_witness :
  In 1048576 (filter_static_sizes_by_gpu_memory Ptr64 [7] 8388608).
Proof.
  apply (filter_monotone_in_memory Ptr64 [7] 4194304 8388608 1048576).
  - lia.
  - vm_compute. tauto.
Defined.

(** ** format_size *)

(** X5. [format_size] rounds down in the largest unit that fits: the number
    printed times its unit is at most the size, and less than one unit
    below it; it is exact precisely on the multiples of the unit; it is at
    least 1 from 1 KiB on, and below 1024 up to 1 TiB. *)
Theorem format_size_rounds_down :
  forall bytes : Z,
    0 <= bytes ->
    let n := fst (format_size bytes) in
    let u := unit_bytes (snd (format_size bytes)) in
    n * u <= bytes < (n + 1) * u
    /\ (n * u = bytes <-> bytes mod u = 0)
    /\ (1024 <= bytes -> 1 <= n)
    /\ (bytes < 1024 * 1024 * 1024 * 1024 -> n < 1024).
Proof.
  intros bytes Hpos. unfold format_size.
  destruct (Z.geb_spec bytes (1024 * 1024 * 1024)) as [Hg|Hg];
    [|destruct (Z.geb_spec bytes (1024 * 1024)) as [Hm|Hm];
      [|destruct (Z.geb_spec bytes 1024) as [Hk|Hk]]];
    cbn [fst snd]; unfold unit_bytes; simpl String.eqb; cbv iota.
  - pose proof (Z.div_mod bytes (1024 * 1024 * 1024) ltac:(lia)).
    pose proof (Z.mod_pos_bound bytes (1024 * 1024 * 1024) ltac:(lia)).
    repeat split; intros; lia.
  - pose proof (Z.div_mod bytes (1024 * 1024) ltac:(lia)).
    pose proof (Z.mod_pos_bound bytes (1024 * 1024) ltac:(lia)).
    repeat split; intros; lia.
  - pose proof (Z.div_mod bytes 1024 ltac:(lia)).
    pose proof (Z.mod_pos_bound bytes 1024 ltac:(lia)).
    repeat split; intros; lia.
  - rewrite Z.mod_1_r. repeat split; intros; lia.
Qed.

Lemma format_size_rounds_down_witness :
  let n := fst (format_size 1610612736) in
  let u := unit_bytes (snd (format_size 1610612736)) in
  n * u <= 1610612736 < (n + 1) * u
  /\ (n * u = 1610612736 <-> 1610612736 mod u = 0)
  /\ (1024 <= 1610612736 -> 1 <= n)
  /\ (1610612736 < 1024 * 1024 * 1024 * 1024 -> n < 1024).
Proof.
  apply (format_size_rounds_down 1610612736). lia.
Defined.

(** ** Numbers on the command line *)

Section Numbers.

Lemma read_digits_nonneg (s : string) :
  forall acc : Z, 0 <= acc -> 0 <= fst (read_digits acc s).
Proof.
  induction s as [|c r IH]; intros acc Hacc; cbn [read_digits]; [exact Hacc|].
  destruct (isdigit c) eqn:Hc; [|exact Hacc].
  assert (Hd : 0 <= digit_value c).
  { unfold isdigit in Hc. unfold digit_value.
    apply andb_true_iff in Hc as [Hlo _]. apply Nat.leb_le in Hlo. lia. }
  specialize (IH (10 * acc + digit_value c) ltac:(lia)).
  destruct (read_digits (10 * acc + digit_value c) r). exact IH.
Qed.

Lemma scan_number_nonneg (s : string) (neg : bool) (v : Z) :
  scan_number s = Some (neg, v) -> 0 <= v.
Proof.
  unfold scan_number.
  set (s1 := skip_spaces s).
  destruct (match s1 with
            | String "-" r => (true, r)
            | String "+" r => (false, r)
            | _ => (false, s1)
            end) as [sign s2].
  pose proof (read_digits_nonneg s2 0 ltac:(lia)) as Hnn.
  destruct (read_digits 0 s2) as [w [|n]]; [discriminate|].
  intros Heq. inversion Heq; subst. exact Hnn.
Qed.

Lemma scan_number_signed (ds : list Z) :
  decimal_digits ds ->
  scan_number (String "-" (numeral ds)) = Some (true, numeral_value ds)
  /\ scan_number (String "+" (numeral ds)) = Some (false, numeral_value ds).
Proof.
  intros [Hne Hds].
  pose proof (read_digits_numeral ds Hds 0) as Hread.
  unfold scan_number, numeral_value.
  change (skip_spaces (String "-" (numeral ds))) with (String "-" (numeral ds)).
  change (skip_spaces (String "+" (numeral ds))) with (String "+" (numeral ds)).
  cbv iota beta. rewrite Hread.
  destruct ds; [congruence|]. split; reflexivity.
Qed.

Lemma stoi_range (s : string) (x : Z) :
  stoi s = inr x -> INT_MIN <= x <= INT_MAX.
Proof.
  unfold stoi. destruct (scan_number s) as [[neg v]|]; [|discriminate].
  set (y := if neg then - v else v).
  destruct (Z.ltb_spec y INT_MIN), (Z.gtb_spec y INT_MAX);
    simpl; try discriminate.
  intros Heq. inversion Heq; subst. lia.
Qed.

Lemma stoull_range (s : string) (x : Z) :
  stoull s = inr x -> 0 <= x <= ULLONG_MAX.
Proof.
  unfold stoull. destruct (scan_number s) as [[neg v]|] eqn:Hscan;
    [|discriminate].
  apply scan_number_nonneg in Hscan.
  destruct (Z.gtb_spec v ULLONG_MAX); [discriminate|].
  intros Heq. inversion Heq; subst.
  destruct neg; [|lia].
  pose proof (Z.mod_pos_bound (- v) (2 ^ 64) ltac:(lia)).
  unfold ULLONG_MAX. lia.
Qed.

(** X6. [std::stoi] on a decimal integer with an optional sign: the value
    when it fits [int], [std::out_of_range] otherwise.  The range is not
    symmetric: -2147483648 is accepted, 2147483648 is not. *)
Theorem stoi_of_signed_numeral :
  forall ds : list Z,
    decimal_digits ds ->
    stoi (numeral ds)
    = (if numeral_value ds >? INT_MAX then inl out_of_range
       else inr (numeral_value ds))
    /\ stoi (String "+" (numeral ds)) = stoi (numeral ds)
    /\ stoi (String "-" (numeral ds))
       = (if numeral_value ds >? - INT_MIN then inl out_of_range
          else inr (- numeral_value ds)).
Proof.
  intros ds Hds.
  destruct (scan_number_signed ds Hds) as [Hminus Hplus].
  pose proof (numeral_value_nonneg ds (proj2 Hds)) as Hnn.
  unfold stoi. rewrite Hminus, Hplus, (scan_number_numeral ds Hds).
  split; [|split; [reflexivity|]].
  - destruct (Z.ltb_spec (numeral_value ds) INT_MIN) as [Hlt|_];
      [unfold INT_MIN in Hlt; lia|].
    reflexivity.
  - destruct (Z.gtb_spec (- numeral_value ds) INT_MAX) as [Hgt|_];
      [unfold INT_MAX in Hgt; lia|].
    rewrite orb_false_r.
    destruct (Z.ltb_spec (- numeral_value ds) INT_MIN),
             (Z.gtb_spec (numeral_value ds) (- INT_MIN));
      try reflexivity; lia.
Qed.

End Numbers.

Lemma stoi_of_signed_numeral_witness :
  stoi (numeral [2; 1; 4; 7; 4; 8; 3; 6; 4; 8])
  = (if numeral_value [2; 1; 4; 7; 4; 8; 3; 6; 4; 8] >? INT_MAX
     then inl out_of_range
     else inr (numeral_value [2; 1; 4; 7; 4; 8; 3; 6; 4; 8]))
  /\ stoi (String "+" (numeral [2; 1; 4; 7; 4; 8; 3; 6; 4; 8]))
     = stoi (numeral [2; 1; 4; 7; 4; 8; 3; 6; 4; 8])
  /\ stoi (String "-" (numeral [2; 1; 4; 7; 4; 8; 3; 6; 4; 8]))
     = (if numeral_value [2; 1; 4; 7; 4; 8; 3; 6; 4; 8] >? - INT_MIN
        then inl out_of_range
        else inr (- numeral_value [2; 1; 4; 7; 4; 8; 3; 6; 4; 8])).
Proof.
  apply (stoi_of_signed_numeral [2; 1; 4; 7; 4; 8; 3; 6; 4; 8]).
  split; [discriminate|repeat constructor; lia].
Defined.

Example stoi_limits :
  stoi "-2147483648" = inr (-2147483648)
  /\ stoi "2147483648" = inl out_of_range
  /\ stoi "  42rounds" = inr 42.
Proof. repeat split; reflexivity. Qed.

(** ** More on the tokens of [--sizes] *)

Section MoreTokens.

Lemma back_cons (c : ascii) (t : string) :
  t <> EmptyString -> back (String c t) = back t.
Proof. destruct t; [congruence|reflexivity]. Qed.

Lemma drop_back_cons (c : ascii) (t : string) :
  t <> EmptyString -> drop_back (String c t) = String c (drop_back t).
Proof. destruct t; [congruence|reflexivity]. Qed.

Lemma back_append (x t : string) :
  t <> EmptyString -> back (x ++ t)%string = back t.
Proof.
  intros Ht. induction x as [|c x IH]; [reflexivity|].
  cbn [String.append]. rewrite back_cons; [exact IH|].
  destruct x; [exact Ht|discriminate].
Qed.

(** The number part and the multiplier of a token, in one equation. *)
Lemma size_of_item_parts (a : arch) (x : string) (s : size_suffix) :
  (s = no_suffix -> forall c, back x = Some c -> is_suffix_letter c = false) ->
  size_of_item a (x ++ suffix_text s)
  = match stoull x with
    | inl e => inl e
    | inr v => inr ((v * 1024 ^ suffix_power s) mod 2 ^ size_bits a)
    end.
Proof.
  intros Hplain.
  assert (Hmod : forall v m,
            to_size_t a (to_size_t a v * m) = (v * m) mod 2 ^ size_bits a).
  { intros v m. unfold to_size_t. apply Z.mul_mod_idemp_l.
    destruct a; discriminate. }
  unfold size_of_item.
  destruct s; cbn [suffix_text suffix_power];
    try (rewrite back_app_char, drop_back_app_char; cbn;
         destruct (stoull x); [reflexivity|]; now rewrite Hmod).
  rewrite append_empty_r.
  destruct (back x) as [c|] eqn:Hback.
  - specialize (Hplain eq_refl c eq_refl). unfold is_suffix_letter in Hplain.
    apply orb_false_iff in Hplain as [Hplain HG].
    apply orb_false_iff in Hplain as [HK HM].
    rewrite HK, HM, HG.
    destruct (stoull x); [reflexivity|]. now rewrite Hmod.
  - destruct (stoull x); [reflexivity|]. now rewrite Hmod.
Qed.

Lemma digit_not_suffix_letter (c : ascii) :
  isdigit c = true -> is_suffix_letter c = false.
Proof.
  destruct c as [[] [] [] [] [] [] [] []]; intros Hc;
    try discriminate Hc; reflexivity.
Qed.

Lemma back_numeral_digit (ds : list Z) (c : ascii) :
  decimal_digits ds -> back (numeral ds) = Some c -> isdigit c = true.
Proof.
  intros Hds Hback.
  destruct (back_numeral ds Hds) as (d & Hd & Hb).
  rewrite Hb in Hback. inversion Hback; subst.
  now destruct (digit_char_facts d Hd).
Qed.

Lemma numeral_nonempty (ds : list Z) :
  decimal_digits ds -> numeral ds <> EmptyString.
Proof. intros [Hne _]. destruct ds; [congruence|discriminate]. Qed.

(** X7. A sign before a well-formed token is accepted: [+] changes
    nothing, and [-] yields the two's complement of the value in [size_t]
    (so [-1] stands for the largest size) instead of being refused. *)
Theorem size_of_item_signed :
  forall (a : arch) (ds : list Z) (s : size_suffix),
    decimal_digits ds ->
    size_of_item a (String "+" (size_token ds s))
    = size_of_item a (size_token ds s)
    /\ size_of_item a (String "-" (size_token ds s))
       = (if numeral_value ds >? ULLONG_MAX then inl out_of_range
          else inr ((- numeral_value ds * 1024 ^ suffix_power s)
                    mod 2 ^ size_bits a)).
Proof.
  intros a ds s Hds.
  destruct (scan_number_signed ds Hds) as [Hminus Hplus].
  assert (Hplain : forall sign : ascii,
            s = no_suffix -> forall c,
              back (String sign (numeral ds)) = Some c ->
              is_suffix_letter c = false).
  { intros sign _ c Hback.
    rewrite back_cons in Hback by now apply numeral_nonempty.
    apply digit_not_suffix_letter. now apply (back_numeral_digit ds). }
  unfold size_token.
  change (String "+" (numeral ds ++ suffix_text s))%string
    with (String "+" (numeral ds) ++ suffix_text s)%string.
  change (String "-" (numeral ds ++ suffix_text s))%string
    with (String "-" (numeral ds) ++ suffix_text s)%string.
  rewrite !size_of_item_parts by (try apply Hplain;
    intros _ c Hb; apply digit_not_suffix_letter;
    now apply (back_numeral_digit ds)).
  unfold stoull. rewrite Hminus, Hplus, (scan_number_numeral ds Hds).
  split; [reflexivity|].
  destruct (numeral_value ds >? ULLONG_MAX); [reflexivity|].
  f_equal.
  assert (Hw : 2 ^ size_bits a <> 0) by (destruct a; discriminate).
  assert (Hdiv : ((- numeral_value ds) mod 2 ^ 64) mod 2 ^ size_bits a
                 = (- numeral_value ds) mod 2 ^ size_bits a).
  { apply Z.mod_mod_divide. destruct a; simpl size_bits.
    - exists (2 ^ 32). reflexivity.
    - exists 1. reflexivity. }
  rewrite <- Z.mul_mod_idemp_l by exact Hw.
  rewrite Hdiv. now rewrite Z.mul_mod_idemp_l by exact Hw.
Qed.

Lemma read_digits_numeral_then (ds : list Z) (rest : string) :
  Forall (fun d => 0 <= d <= 9) ds ->
  (forall c r, rest = String c r -> isdigit c = false) ->
  forall acc : Z,
    read_digits acc (numeral ds ++ rest)
    = (fold_left (fun acc d => 10 * acc + d) ds acc, List.length ds).
Proof.
  intros Hds Hrest. induction Hds as [|d t Hd _ IH]; intros acc.
  - cbn [numeral String.append fold_left List.length].
    destruct rest as [|c r]; [reflexivity|].
    cbn [read_digits]. now rewrite (Hrest c r eq_refl).
  - cbn [numeral String.append read_digits fold_left List.length].
    destruct (digit_char_facts d Hd) as (Hdig & Hval & _).
    rewrite Hdig, Hval, IH. reflexivity.
Qed.

Lemma scan_number_numeral_then (ds : list Z) (rest : string) :
  decimal_digits ds ->
  (forall c r, rest = String c r -> isdigit c = false) ->
  scan_number (numeral ds ++ rest) = Some (false, numeral_value ds).
Proof.
  intros [Hne Hds] Hrest. destruct ds as [|d t]; [congruence|].
  inversion Hds as [|? ? Hd Ht]; subst.
  unfold scan_number, numeral_value.
  cbn [numeral String.append skip_spaces].
  destruct (digit_char_facts d Hd) as (Hdig & Hval & Hsp & _).
  rewrite Hsp.
  assert (Hsign :
    match String (digit_char d) (numeral t ++ rest) with
    | String "-" r => (true, r)
    | String "+" r => (false, r)
    | _ => (false, String (digit_char d) (numeral t ++ rest))
    end = (false, String (digit_char d) (numeral t ++ rest)))
    by (clear - Hd; apply digit_cases in Hd;
        repeat (destruct Hd as [Hd|Hd]); subst; reflexivity).
  rewrite Hsign. cbn [read_digits]. rewrite Hdig, Hval.
  rewrite (read_digits_numeral_then t rest Ht Hrest). reflexivity.
Qed.

(** X8. Text after the digits is ignored: a token made of a decimal
    integer, then text that does not start with a digit, then an optional
    suffix, yields what the integer with that suffix yields.  (Without a
    suffix, the text must not end in one of the suffix letters.) *)
Theorem size_of_item_ignores_text_after_digits :
  forall (a : arch) (ds : list Z) (c : ascii) (r : string) (s : size_suffix),
    decimal_digits ds ->
    isdigit c = false ->
    (s = no_suffix ->
     forall e, back (String c r) = Some e -> is_suffix_letter e = false) ->
    size_of_item a (numeral ds ++ String c r ++ suffix_text s)
    = size_of_item a (size_token ds s).
Proof.
  intros a ds c r s Hds Hc Hend.
  assert (Hassoc : (numeral ds ++ String c r ++ suffix_text s)%string
                   = ((numeral ds ++ String c r) ++ suffix_text s)%string).
  { generalize (numeral ds) as x.
    induction x as [|y t IH]; [reflexivity|].
    cbn [String.append]. f_equal. exact IH. }
  rewrite Hassoc. unfold size_token.
  rewrite !size_of_item_parts.
  - unfold stoull.
    rewrite (scan_number_numeral ds Hds).
    rewrite (scan_number_numeral_then ds (String c r) Hds); [reflexivity|].
    intros c' r' Heq. inversion Heq; subst. exact Hc.
  - intros _ e Hb. apply digit_not_suffix_letter.
    now apply (back_numeral_digit ds).
  - intros Hs e Hb. rewrite back_append in Hb by discriminate.
    now apply (Hend Hs).
Qed.

End MoreTokens.

Lemma size_of_item_signed_witness :
  size_of_item Ptr64 (String "+" (size_token [1] no_suffix))
  = size_of_item Ptr64 (size_token [1] no_suffix)
  /\ size_of_item Ptr64 (String "-" (size_token [1] no_suffix))
     = (if numeral_value [1] >? ULLONG_MAX then inl out_of_range
        else inr ((- numeral_value [1] * 1024 ^ suffix_power no_suffix)
                  mod 2 ^ size_bits Ptr64)).
Proof.
  apply (size_of_item_signed Ptr64 [1] no_suffix).
  split; [discriminate|repeat constructor; lia].
Defined.

Lemma size_of_item_ignores_text_after_digits_witness :
  size_of_item Ptr64 (numeral [1; 0] ++ String "." "5" ++ suffix_text upper_M)
  = size_of_item Ptr64 (size_token [1; 0] upper_M).
Proof.
  apply (size_of_item_ignores_text_after_digits Ptr64 [1; 0] "." "5" upper_M).
  - split; [discriminate|repeat constructor; lia].
  - reflexivity.
  - discriminate.
Defined.

Example sizes_with_signs_and_text :
  parse_sizes Ptr64 "-1,+2K,10.5M,3 GiB"
  = ([18446744073709551615; 2048; 10485760; 3], []).
Proof. reflexivity. Qed.

(** ** The loop of [parse_sizes] *)

Section SizesLoop.

Lemma getline_rest_length (ss : string) :
  (String.length (snd (getline ss)) <= pred (String.length ss))%nat.
Proof.
  induction ss as [|c r IH]; cbn [getline]; [apply le_n|].
  destruct (Ascii.eqb c ","); [apply le_n|].
  destruct (getline r) as [item rest]. cbn [snd String.length pred] in *. lia.
Qed.

(** More fuel than the length of the input changes nothing. *)
Lemma parse_sizes_loop_fuel (a : arch) (f1 : nat) :
  forall (f2 : nat) (ss : string) (result : list Z) (cerr : list string),
    (String.length ss <= f1)%nat -> (String.length ss <= f2)%nat ->
    parse_sizes_loop f1 a ss result cerr = parse_sizes_loop f2 a ss result cerr.
Proof.
  induction f1 as [|f1 IH]; intros f2 ss result cerr H1 H2.
  - destruct ss; [|simpl in H1; lia]. now rewrite !parse_sizes_loop_end.
  - destruct ss as [|c r]; [now rewrite !parse_sizes_loop_end|].
    destruct f2 as [|f2]; [simpl in H2; lia|].
    rewrite !parse_sizes_loop_step by discriminate.
    pose proof (getline_rest_length (String c r)) as Hlen.
    cbn [String.length pred] in Hlen, H1, H2.
    destruct (size_of_item a (fst (getline (String c r)))); apply IH; lia.
Qed.

Lemma getline_snoc_comma (s : string) :
  getline (s ++ ",")
  = if has_comma s then (fst (getline s), (snd (getline s) ++ ",")%string)
    else (s, EmptyString).
Proof.
  induction s as [|c r IH]; [reflexivity|].
  cbn [String.append getline has_comma].
  destruct (Ascii.eqb c ","); [reflexivity|].
  cbn [orb]. rewrite IH.
  destruct (has_comma r); [|reflexivity].
  destruct (getline r). reflexivity.
Qed.

Lemma getline_rest_back (s : string) :
  has_comma s = true -> back s <> Some ","%char ->
  snd (getline s) <> EmptyString /\ back (snd (getline s)) = back s.
Proof.
  induction s as [|c r IH]; [discriminate|].
  cbn [has_comma getline]. destruct (Ascii.eqb_spec c ",") as [->|Hc].
  - intros _ Hback. cbn [snd]. destruct r as [|c' r']; [now elim Hback|].
    split; [discriminate|reflexivity].
  - cbn [orb]. intros Hcomma Hback.
    assert (Hr : r <> EmptyString) by (destruct r; [discriminate|discriminate]).
    rewrite back_cons in Hback |- * by exact Hr.
    destruct (IH Hcomma Hback) as [Hne Hb].
    destruct (getline r) as [item rest]. cbn [snd] in *. now split.
Qed.

Lemma parse_sizes_loop_snoc_comma (a : arch) (n : nat) :
  forall (s : string) (f1 f2 : nat) (result : list Z) (cerr : list string),
    (String.length s <= n)%nat ->
    s <> EmptyString -> back s <> Some ","%char ->
    (String.length (s ++ ",") <= f1)%nat -> (String.length s <= f2)%nat ->
    parse_sizes_loop f1 a (s ++ ",") result cerr
    = parse_sizes_loop f2 a s result cerr.
Proof.
  induction n as [|n IH]; intros s f1 f2 result cerr Hn Hne Hback H1 H2.
  - destruct s; [congruence|simpl in Hn; lia].
  - rewrite length_append in H1. cbn [String.length] in H1.
    destruct f1 as [|f1]; [lia|].
    destruct f2 as [|f2]; [destruct s; [congruence|simpl in H2; lia]|].
    rewrite !parse_sizes_loop_step
      by (try exact Hne; destruct s; discriminate).
    rewrite getline_snoc_comma.
    pose proof (getline_rest_length s) as Hlen.
    assert (Hpos : (1 <= String.length s)%nat)
      by (destruct s; [congruence|simpl; lia]).
    destruct (has_comma s) eqn:Hcomma; cbn [fst snd].
    + destruct (getline_rest_back s Hcomma Hback) as [Hrne Hrback].
      rewrite <- Hrback in Hback.
      destruct (size_of_item a (fst (getline s)));
        apply IH; try assumption; try lia;
        rewrite length_append; cbn [String.length]; lia.
    + rewrite (getline_no_comma s Hcomma). cbn [fst snd].
      destruct (size_of_item a s); now rewrite !parse_sizes_loop_end.
Qed.

(** X10. A comma at the end of the argument is ignored: when the argument
    is not empty and does not already end in a comma, one more comma at
    its end changes neither the values nor the diagnostics. *)
Theorem parse_sizes_ignores_final_comma :
  forall (a : arch) (str : string),
    str <> EmptyString ->
    back str <> Some ","%char ->
    parse_sizes a (str ++ ",") = parse_sizes a str.
Proof.
  intros a str Hne Hback. unfold parse_sizes.
  now apply (parse_sizes_loop_snoc_comma a (String.length str)).
Qed.

End SizesLoop.

Lemma parse_sizes_ignores_final_comma_witness :
  parse_sizes Ptr64 ("1M,x,2K" ++ ",") = parse_sizes Ptr64 "1M,x,2K".
Proof.
  apply (parse_sizes_ignores_final_comma Ptr64 "1M,x,2K"); discriminate.
Defined.

(** Commas at other places are not ignored: each empty token gives a
    diagnostic. *)
Example parse_sizes_empty_tokens :
  parse_sizes Ptr64 ",1M,,"
  = ([1048576], ["Invalid size: "; "Invalid size: "]).
Proof. reflexivity. Qed.

(** ** The argument loop *)

Section ArgumentLoop.

Context {R : Type}.

Lemma tolower_idempotent (c : ascii) : tolower (tolower c) = tolower c.
Proof. destruct c as [[] [] [] [] [] [] [] []]; reflexivity. Qed.

Lemma transform_tolower_idempotent (s : string) :
  transform_tolower (transform_tolower s) = transform_tolower s.
Proof.
  induction s as [|c r IH]; simpl; [reflexivity|].
  now rewrite tolower_idempotent, IH.
Qed.

Lemma parse_direction_Stop (s : string) (o : outcome) (l : list (event R)) :
  parse_direction s = (Stop o, l) ->
  o = Exit 1 /\ l = [Cerr ("Unknown direction: " ++ s)%string].
Proof.
  unfold parse_direction.
  repeat match goal with
         | |- context [if ?c then _ else _] => destruct c
         end;
    intros Heq; simpl in Heq; inversion Heq; subst; auto.
Qed.

Lemma parse_unit_Stop (s : string) (o : outcome) (l : list (event R)) :
  parse_unit s = (Stop o, l) ->
  o = Exit 1 /\ l = [Cerr ("Unknown unit: " ++ s)%string].
Proof.
  unfold parse_unit.
  repeat match goal with
         | |- context [if ?c then _ else _] => destruct c
         end;
    intros Heq; simpl in Heq; inversion Heq; subst; auto.
Qed.

(** X11. [parse_direction] and [parse_unit] do not depend on the case of
    the letters: an argument and its lower-case form are accepted or
    refused alike, with the same result; a refusal ends the run with exit
    code 1 after a diagnostic that quotes the argument as it was typed. *)
Theorem direction_and_unit_ignore_case :
  forall s : string,
    fst (parse_direction (R := R) (transform_tolower s))
    = fst (parse_direction (R := R) s)
    /\ fst (parse_unit (R := R) (transform_tolower s))
       = fst (parse_unit (R := R) s)
    /\ (forall o l, parse_direction (R := R) s = (Stop o, l) ->
          o = Exit 1 /\ l = [Cerr ("Unknown direction: " ++ s)%string])
    /\ (forall o l, parse_unit (R := R) s = (Stop o, l) ->
          o = Exit 1 /\ l = [Cerr ("Unknown unit: " ++ s)%string]).
Proof.
  intros s.
  split; [|split; [|split; [apply parse_direction_Stop|apply parse_unit_Stop]]];
    unfold parse_direction, parse_unit;
    rewrite transform_tolower_idempotent;
    repeat match goal with
           | |- context [if ?c then _ else _] => destruct c
           end; reflexivity.
Qed.

Lemma loop_end_extend (args : list string) (x y : string) (o : outcome)
    (l1 l2 : list (event R)) :
  loop_end args o l2 -> loop_end (x :: y :: args) o (l1 ++ l2).
Proof.
  destruct o as [code|e]; simpl.
  - intros [[Hc (pre & [[Hl Hin]|[Hl Hin]])]|[Hc (pre & text & [Hl|Hl])]];
      subst l2.
    + left. split; [exact Hc|]. exists (l1 ++ pre). left.
      rewrite app_assoc. auto.
    + left. split; [exact Hc|]. exists (l1 ++ pre). right.
      rewrite app_assoc. auto.
    + right. split; [exact Hc|]. exists (l1 ++ pre), text. left.
      now rewrite app_assoc.
    + right. split; [exact Hc|]. exists (l1 ++ pre), text. right.
      now rewrite app_assoc.
  - intros [Hin|Hin]; auto.
Qed.

Lemma parse_args_ends (a : arch) (n : nat) :
  forall (args : list string) (cfg : config) (o : outcome)
         (log : list (event R)),
    (List.length args <= n)%nat ->
    parse_args a args cfg = (Stop o, log) ->
    loop_end args o log.
Proof.
  induction n as [|n IH]; intros args cfg o log Hlen Hrun.
  - destruct args; [simpl in Hrun; discriminate|simpl in Hlen; lia].
  - destruct args as [|arg rest]; [simpl in Hrun; discriminate|].
    simpl in Hrun.
    destruct (String.eqb_spec arg "--help") as [->|_].
    { inversion Hrun; subst. left. split; [reflexivity|].
      exists []. left. split; [reflexivity|now left]. }
    destruct (String.eqb_spec arg "--version") as [->|_].
    { inversion Hrun; subst. left. split; [reflexivity|].
      exists []. right. split; [reflexivity|now left]. }
    assert (Hunknown : forall o' l',
              unknown_argument (R := R) (A := config) arg = (Stop o', l') ->
              loop_end (arg :: rest) o' l').
    { intros o' l' Heq. inversion Heq; subst. right. split; [reflexivity|].
      exists [], ("Unknown argument: " ++ arg)%string. now right. }
    destruct rest as [|value rest']; [now apply Hunknown|].
    assert (Hlen' : (List.length rest' <= n)%nat) by (simpl in Hlen; lia).
    destruct (String.eqb_spec arg "--rounds") as [->|_].
    { destruct (stoi value).
      - inversion Hrun; subst. simpl. left. now left.
      - apply (IH _ _ _ _ Hlen') in Hrun.
        exact (loop_end_extend rest' "--rounds" value o [] log Hrun). }
    destruct (String.eqb arg "--sizes").
    { destruct (parse_sizes a value) as [parsed diagnostics].
      match type of Hrun with
      | (let '(r, l') := ?m in _) = _ => destruct m as [r l2] eqn:Hk
      end.
      inversion Hrun; subst.
      apply (IH _ _ _ _ Hlen') in Hk. now apply loop_end_extend. }
    destruct (String.eqb arg "--direction").
    { apply bind_Stop in Hrun as [Hm|(d & l1 & l2 & Hm & Hk & ->)].
      - destruct (parse_direction_Stop _ _ _ Hm) as [-> ->]. right. split; [reflexivity|].
        exists [], ("Unknown direction: " ++ value)%string. now left.
      - apply (IH _ _ _ _ Hlen') in Hk. now apply loop_end_extend. }
    destruct (String.eqb arg "--unit").
    { apply bind_Stop in Hrun as [Hm|(u & l1 & l2 & Hm & Hk & ->)].
      - destruct (parse_unit_Stop _ _ _ Hm) as [-> ->]. right. split; [reflexivity|].
        exists [], ("Unknown unit: " ++ value)%string. now left.
      - apply (IH _ _ _ _ Hlen') in Hk. now apply loop_end_extend. }
    destruct (String.eqb_spec arg "--device") as [->|_].
    { destruct (stoi value).
      - inversion Hrun; subst. simpl. right. now left.
      - apply (IH _ _ _ _ Hlen') in Hrun.
        exact (loop_end_extend rest' "--device" value o [] log Hrun). }
    now apply Hunknown.
Qed.

End ArgumentLoop.

Section ArgumentLoopResults.

Context {R : Type}.

(** X12. When the argument loop ends the run, it does so in one of three
    ways: exit code 0 after printing the help or the version, with
    [--help] or [--version] among the arguments; exit code 1 after a
    diagnostic on [std::cerr] (followed by the help for an unknown
    argument); or [std::terminate], with [--rounds] or [--device] among
    the arguments.  No other exit code is produced. *)
Theorem argument_loop_ends :
  forall (a : arch) (args : list string) (cfg : config) (o : outcome)
         (log : list (event R)),
    parse_args a args cfg = (Stop o, log) ->
    loop_end args o log.
Proof.
  intros a args cfg o log Hrun.
  now apply (parse_args_ends a (List.length args) args cfg).
Qed.

Ltac split7 :=
  split; [|split; [|split; [|split; [|split; [|split]]]]].

Lemma parse_args_fields (a : arch) (n : nat) :
  forall (args : list string) (cfg cfg' : config) (log : list (event R)),
    (List.length args <= n)%nat ->
    parse_args a args cfg = (Next cfg', log) ->
    (~ In "--rounds" args -> rounds cfg' = rounds cfg)
    /\ (~ In "--device" args -> targetDevice cfg' = targetDevice cfg)
    /\ (~ In "--direction" args -> direction cfg' = direction cfg)
    /\ (~ In "--unit" args -> unit cfg' = unit cfg)
    /\ (~ In "--sizes" args ->
        sizes cfg' = sizes cfg
        /\ userSpecifiedSizes cfg' = userSpecifiedSizes cfg)
    /\ (INT_MIN <= rounds cfg <= INT_MAX ->
        INT_MIN <= rounds cfg' <= INT_MAX)
    /\ (INT_MIN <= targetDevice cfg <= INT_MAX ->
        INT_MIN <= targetDevice cfg' <= INT_MAX).
Proof.
  induction n as [|n IH]; intros args cfg cfg' log Hlen Hrun.
  - destruct args; [|simpl in Hlen; lia].
    simpl in Hrun. inversion Hrun; subst. tauto.
  - destruct args as [|arg rest].
    { simpl in Hrun. inversion Hrun; subst. tauto. }
    simpl in Hrun.
    destruct (String.eqb arg "--help"); [discriminate|].
    destruct (String.eqb arg "--version"); [discriminate|].
    destruct rest as [|value rest']; [discriminate|].
    assert (Hlen' : (List.length rest' <= n)%nat) by (simpl in Hlen; lia).
    assert (Hrest : forall flag : string,
              ~ In flag (arg :: value :: rest') -> ~ In flag rest')
      by (intros flag Hf Hin; apply Hf; right; now right).
    assert (Hflag : forall flag : string,
              ~ In flag (arg :: value :: rest') -> arg <> flag)
      by (intros flag Hf Heq; apply Hf; now left).
    destruct (String.eqb_spec arg "--rounds") as [Ha|_].
    { destruct (stoi value) as [e|x] eqn:Hstoi; [discriminate|].
      apply stoi_range in Hstoi.
      destruct (IH _ _ _ _ Hlen' Hrun) as (H1 & H2 & H3 & H4 & H5 & H6 & H7).
      cbn [rounds targetDevice direction unit sizes userSpecifiedSizes] in *.
      split7; intros Hx;
        try (apply Hflag in Hx; congruence);
        try apply Hrest in Hx; auto; try (now apply H5). }
    destruct (String.eqb_spec arg "--sizes") as [Ha|_].
    { destruct (parse_sizes a value) as [parsed diagnostics].
      match type of Hrun with
      | (let '(r, l') := ?m in _) = _ => destruct m as [r l2] eqn:Hk
      end.
      inversion Hrun; subst r log.
      destruct (IH _ _ _ _ Hlen' Hk) as (H1 & H2 & H3 & H4 & H5 & H6 & H7).
      cbn [rounds targetDevice direction unit sizes userSpecifiedSizes] in *.
      split7; intros Hx;
        try (apply Hflag in Hx; congruence);
        try apply Hrest in Hx; auto. }
    destruct (String.eqb_spec arg "--direction") as [Ha|_].
    { apply bind_Next in Hrun as (d & l1 & l2 & _ & Hk & _).
      destruct (IH _ _ _ _ Hlen' Hk) as (H1 & H2 & H3 & H4 & H5 & H6 & H7).
      cbn [rounds targetDevice direction unit sizes userSpecifiedSizes] in *.
      split7; intros Hx;
        try (apply Hflag in Hx; congruence);
        try apply Hrest in Hx; auto; try (now apply H5). }
    destruct (String.eqb_spec arg "--unit") as [Ha|_].
    { apply bind_Next in Hrun as (u & l1 & l2 & _ & Hk & _).
      destruct (IH _ _ _ _ Hlen' Hk) as (H1 & H2 & H3 & H4 & H5 & H6 & H7).
      cbn [rounds targetDevice direction unit sizes userSpecifiedSizes] in *.
      split7; intros Hx;
        try (apply Hflag in Hx; congruence);
        try apply Hrest in Hx; auto; try (now apply H5). }
    destruct (String.eqb_spec arg "--device") as [Ha|_].
    { destruct (stoi value) as [e|x] eqn:Hstoi; [discriminate|].
      apply stoi_range in Hstoi.
      destruct (IH _ _ _ _ Hlen' Hrun) as (H1 & H2 & H3 & H4 & H5 & H6 & H7).
      cbn [rounds targetDevice direction unit sizes userSpecifiedSizes] in *.
      split7; intros Hx;
        try (apply Hflag in Hx; congruence);
        try apply Hrest in Hx; auto; try (now apply H5). }
    discriminate.
Qed.

(** X13. An option that is not among the arguments keeps its value: after
    an argument loop that runs to its end, the rounds, the device, the
    direction, the unit and the sizes are those of the start for each of
    [--rounds], [--device], [--direction], [--unit], [--sizes] that does not
    occur.  From the initial configuration: 100 rounds, device 0, both
    directions, GB/s, the default sizes. *)
Theorem absent_options_keep_defaults :
  forall (a : arch) (args : list string) (cfg' : config)
         (log : list (event R)),
    parse_args a args (initial_config a) = (Next cfg', log) ->
    (~ In "--rounds" args -> rounds cfg' = 100)
    /\ (~ In "--device" args -> targetDevice cfg' = 0)
    /\ (~ In "--direction" args -> direction cfg' = Both)
    /\ (~ In "--unit" args -> unit cfg' = GBps)
    /\ (~ In "--sizes" args ->
        sizes cfg' = default_sizes a /\ userSpecifiedSizes cfg' = false).
Proof.
  intros a args cfg' log Hrun.
  destruct (parse_args_fields a (List.length args) args (initial_config a)
              cfg' log (le_n _) Hrun) as (H1 & H2 & H3 & H4 & H5 & _).
  split; [|split; [|split; [|split]]]; intros Hx;
    [now apply H1|now apply H2|now apply H3|now apply H4|now apply H5].
Qed.

End ArgumentLoopResults.

Lemma argument_loop_ends_witness :
  loop_end (R := Q) ["--unit"; "MB"; "--sizes"; "1M,x"; "--direction"; "up"]
    (Exit 1) [Cerr "Invalid size: x"; Cerr "Unknown direction: up"].
Proof.
  apply (argument_loop_ends Ptr64
           ["--unit"; "MB"; "--sizes"; "1M,x"; "--direction"; "up"]
           (initial_config Ptr64)).
  reflexivity.
Defined.

Lemma absent_options_keep_defaults_witness :
  let args := ["--unit"; "mb"; "--rounds"; "7"] in
  let cfg' := mkConfig 7 0 Both MBps false (default_sizes Ptr64) in
  (~ In "--rounds" args -> rounds cfg' = 100)
  /\ (~ In "--device" args -> targetDevice cfg' = 0)
  /\ (~ In "--direction" args -> direction cfg' = Both)
  /\ (~ In "--unit" args -> unit cfg' = GBps)
  /\ (~ In "--sizes" args ->
      sizes cfg' = default_sizes Ptr64 /\ userSpecifiedSizes cfg' = false).
Proof.
  intros args cfg'.
  apply (absent_options_keep_defaults (R := Q) Ptr64 args cfg' []).
  reflexivity.
Defined.

(** ** The loop over the sizes *)

Section CatalogLoop.

Context {R : Type} `{DoubleOps R}.
Variable rt : runtime R.

(** A loop over the sizes that runs to its end printed one block per
    size. *)
Lemma bench_sizes_complete (cfg : config) (l : list Z) :
  forall (k : nat) (log : list (event R)),
    bench_sizes rt cfg k l = (Next tt, log) ->
    log = size_blocks rt cfg k l.
Proof.
  induction l as [|dataSize l IH]; intros k log Hrun.
  - simpl in Hrun. now inversion Hrun.
  - cbn [bench_sizes size_blocks] in *.
    apply bind_Next in Hrun as (x & l1 & l2 & Hsize & Hrest & ->).
    destruct (buffers_ok rt k) eqn:Hok.
    + rewrite (bench_size_complete rt cfg k dataSize Hok) in Hsize.
      inversion Hsize; subst. f_equal. now apply IH.
    + destruct (bench_size_cut_short rt cfg k dataSize Hok)
        as (pre & msg & status & Hstop & _).
      rewrite Hstop in Hsize. discriminate.
Qed.

(** A loop that is cut short ends the run with exit code 1. *)
Lemma bench_sizes_Stop_code (cfg : config) (l : list Z) :
  forall (k : nat) (o : outcome) (log : list (event R)),
    bench_sizes rt cfg k l = (Stop o, log) -> o = Exit 1.
Proof.
  induction l as [|dataSize l IH]; intros k o log Hrun.
  - simpl in Hrun. discriminate.
  - cbn [bench_sizes] in Hrun.
    apply bind_Stop in Hrun as [Hsize|(x & l1 & l2 & _ & Hrest & _)].
    + destruct (buffers_ok rt k) eqn:Hok.
      * rewrite (bench_size_complete rt cfg k dataSize Hok) in Hsize.
        discriminate.
      * destruct (bench_size_cut_short rt cfg k dataSize Hok)
          as (pre & msg & status & Hstop & _).
        rewrite Hstop in Hsize. now inversion Hsize.
    + now apply IH in Hrest.
Qed.

(** A loop that is cut short wrote the diagnostic of the failed call
    last. *)
Lemma bench_sizes_Stop_last (cfg : config) (l : list Z) :
  forall (k : nat) (o : outcome) (log : list (event R)),
    bench_sizes rt cfg k l = (Stop o, log) ->
    o = Exit 1
    /\ exists pre d, is_diagnostic d = true /\ log = pre ++ [d].
Proof.
  induction l as [|dataSize l IH]; intros k o log Hrun.
  - simpl in Hrun. discriminate.
  - cbn [bench_sizes] in Hrun.
    apply bind_Stop in Hrun as [Hsize|(x & l1 & l2 & _ & Hrest & ->)].
    + destruct (buffers_ok rt k) eqn:Hok.
      * rewrite (bench_size_complete rt cfg k dataSize Hok) in Hsize.
        discriminate.
      * destruct (bench_size_cut_short rt cfg k dataSize Hok)
          as (pre & msg & status & Hstop & _).
        rewrite Hstop in Hsize. inversion Hsize; subst.
        split; [reflexivity|].
        exists (header_of dataSize :: pre), (Cerr_status msg status).
        now split.
    + apply IH in Hrest as (-> & pre & d & Hd & ->).
      split; [reflexivity|]. exists (l1 ++ pre), d.
      split; [exact Hd|now rewrite app_assoc].
Qed.

Lemma size_blocks_count (q : event R -> bool) (c : nat) (cfg : config) :
  (forall k dataSize,
      List.length (filter q (size_block rt cfg k dataSize)) = c) ->
  forall (l : list Z) (k : nat),
    List.length (filter q (size_blocks rt cfg k l)) = (c * List.length l)%nat.
Proof.
  intros Hblock. induction l as [|dataSize l IH]; intros k;
    cbn [size_blocks List.length]; [now rewrite Nat.mul_0_r|].
  rewrite filter_app, length_app, Hblock, IH. lia.
Qed.

(** X15. In a loop over the sizes that runs to its end, every buffer that
    is created is released and every buffer that is mapped is unmapped:
    per size, three creations and three releases, two mappings and two
    unmappings. *)
Theorem complete_loop_releases_every_buffer :
  forall (cfg : config) (k : nat) (l : list Z) (log : list (event R)),
    bench_sizes rt cfg k l = (Next tt, log) ->
    List.length (filter is_create log) = (3 * List.length l)%nat
    /\ List.length (filter is_release log) = (3 * List.length l)%nat
    /\ List.length (filter is_map log) = (2 * List.length l)%nat
    /\ List.length (filter is_unmap log) = (2 * List.length l)%nat.
Proof.
  intros cfg k l log Hrun.
  apply bench_sizes_complete in Hrun. subst log.
  repeat split; apply size_blocks_count; intros k' dataSize;
    rewrite filter_size_block by reflexivity; reflexivity.
Qed.

(** X16. A loop over the sizes that ends the run ends it with exit code 1
    in the set-up of the buffers of one size: after the complete blocks of
    the sizes before it and the header of that size there are only
    creations and mappings of buffers, so nothing is transferred, unmapped
    or released, and the last output is the diagnostic of the failed
    call.  The buffers that size had obtained before the failure are never
    released. *)
Theorem failed_setup_skips_cleanup :
  forall (cfg : config) (k : nat) (l : list Z) (o : outcome)
         (log : list (event R)),
    bench_sizes rt cfg k l = (Stop o, log) ->
    o = Exit 1
    /\ exists (done rest : list Z) (dataSize : Z) (pre : list (event R))
              (msg : string) (status : Z),
        l = done ++ dataSize :: rest
        /\ log = size_blocks rt cfg k done
                 ++ header_of dataSize :: pre ++ [Cerr_status msg status]
        /\ status <> CL_SUCCESS
        /\ forallb setup_only pre = true
        /\ forallb is_setup_call pre = true.
Proof.
  intros cfg k l. revert k.
  induction l as [|dataSize l IH]; intros k o log Hrun.
  - simpl in Hrun. discriminate.
  - cbn [bench_sizes] in Hrun.
    destruct (buffers_ok rt k) eqn:Hok.
    + rewrite (bench_size_complete rt cfg k dataSize Hok), bind_of_Next
        in Hrun.
      remember (size_block rt cfg k dataSize) as blk eqn:Hblk.
      destruct (bench_sizes rt cfg (S k) l) as [r l2] eqn:Hrest.
      cbn [fst snd] in Hrun. inversion Hrun; subst r log.
      destruct (IH (S k) o l2 Hrest)
        as (-> & done & rest & ds & pre & msg & status & -> & -> & Hst & Hpre
            & Hcalls).
      split; [reflexivity|].
      exists (dataSize :: done), rest, ds, pre, msg, status.
      cbn [size_blocks app]. rewrite <- Hblk, <- app_assoc. auto.
    + destruct (bench_size_cut_short rt cfg k dataSize Hok)
        as (pre & msg & status & Hstop & Hst & Hpre & Hcalls).
      rewrite Hstop in Hrun. cbn in Hrun. inversion Hrun; subst.
      split; [reflexivity|].
      exists [], l, dataSize, pre, msg, status. auto.
Qed.

(** X17. A loop over the sizes that runs to its end performs, in each
    active direction, as many transfers as there are sizes times rounds,
    and none in a direction that is not active. *)
Theorem complete_loop_transfer_count :
  forall (cfg : config) (k : nat) (l : list Z) (log : list (event R)),
    bench_sizes rt cfg k l = (Next tt, log) ->
    List.length (filter is_write log)
    = ((if sends (direction cfg) then Z.to_nat (rounds cfg) else 0)
       * List.length l)%nat
    /\ List.length (filter is_read log)
       = ((if receives (direction cfg) then Z.to_nat (rounds cfg) else 0)
          * List.length l)%nat.
Proof.
  intros cfg k l log Hrun.
  apply bench_sizes_complete in Hrun. subst log.
  split; apply size_blocks_count; intros k' dataSize;
    [apply size_block_writes|apply size_block_reads].
Qed.

(** X18. A loop over the sizes that runs to its end prints the headers of
    the sizes of the catalog, one per size, in the order of the catalog. *)
Theorem complete_loop_headers_in_order :
  forall (cfg : config) (k : nat) (l : list Z) (log : list (event R)),
    bench_sizes rt cfg k l = (Next tt, log) ->
    filter is_header log = map header_of l.
Proof.
  intros cfg k l log Hrun.
  apply bench_sizes_complete in Hrun. subst log. revert k.
  induction l as [|dataSize l IH]; intros k; cbn [size_blocks map];
    [reflexivity|].
  rewrite filter_app, IH, filter_size_block by reflexivity.
  reflexivity.
Qed.

End CatalogLoop.

Lemma complete_loop_releases_every_buffer_witness :
  let rt := healthy (R := Q) 2147483648 always_ok (fun _ _ _ => 1%Q) in
  let cfg := mkConfig 2 0 Both GBps true [1024; 2048] in
  let log := snd (bench_sizes rt cfg 0 [1024; 2048]) in
  List.length (filter is_create log) = (3 * List.length [1024; 2048])%nat
  /\ List.length (filter is_release log) = (3 * List.length [1024; 2048])%nat
  /\ List.length (filter is_map log) = (2 * List.length [1024; 2048])%nat
  /\ List.length (filter is_unmap log) = (2 * List.length [1024; 2048])%nat.
Proof.
  intros rt cfg log.
  apply (complete_loop_releases_every_buffer rt cfg 0%nat [1024; 2048] log).
  reflexivity.
Defined.

(** The device buffer of the second size cannot be allocated: the two
    pinned buffers of that size stay allocated and mapped. *)
Lemma failed_setup_skips_cleanup_witness :
  let rt := mkRuntime Q example_cpuinfo
              (CL_SUCCESS, 1) CL_SUCCESS (CL_SUCCESS, 1) CL_SUCCESS
              (CL_SUCCESS, 16) CL_SUCCESS (CL_SUCCESS, 2147483648)
              (fun _ => CL_SUCCESS)
              CL_SUCCESS CL_SUCCESS
              (fun k j => match k, j with
                          | S O, S (S O) => -4
                          | _, _ => CL_SUCCESS
                          end)
              (fun _ _ => CL_SUCCESS)
              (fun _ _ _ => (CL_SUCCESS, 1%Q)) in
  let cfg := mkConfig 1 0 HostToDevice GBps true [1024; 2048; 4096] in
  Exit 1 = Exit 1
  /\ exists (done rest : list Z) (dataSize : Z) (pre : list (event Q))
            (msg : string) (status : Z),
      [1024; 2048; 4096] = done ++ dataSize :: rest
      /\ snd (bench_sizes rt cfg 0 [1024; 2048; 4096])
         = size_blocks rt cfg 0 done
           ++ header_of dataSize :: pre ++ [Cerr_status msg status]
      /\ status <> CL_SUCCESS
      /\ forallb setup_only pre = true
      /\ forallb is_setup_call pre = true.
Proof.
  intros rt cfg.
  apply (failed_setup_skips_cleanup rt cfg 0%nat [1024; 2048; 4096] (Exit 1)
           (snd (bench_sizes rt cfg 0 [1024; 2048; 4096]))).
  reflexivity.
Defined.

Lemma complete_loop_transfer_count_witness :
  let rt := healthy (R := Q) 2147483648 always_ok (fun _ _ _ => 1%Q) in
  let cfg := mkConfig 3 0 DeviceToHost GBps true [1024; 2048] in
  let log := snd (bench_sizes rt cfg 0 [1024; 2048]) in
  List.length (filter is_write log)
  = ((if sends (direction cfg) then Z.to_nat (rounds cfg) else 0)
     * List.length [1024; 2048])%nat
  /\ List.length (filter is_read log)
     = ((if receives (direction cfg) then Z.to_nat (rounds cfg) else 0)
        * List.length [1024; 2048])%nat.
Proof.
  intros rt cfg log.
  apply (complete_loop_transfer_count rt cfg 0%nat [1024; 2048] log).
  reflexivity.
Defined.

Lemma complete_loop_headers_in_order_witness :
  let rt := healthy (R := Q) 2147483648 always_ok (fun _ _ _ => 1%Q) in
  let cfg := mkConfig 1 0 Both GBps true [10485760; 1024; 1024] in
  filter is_header (snd (bench_sizes rt cfg 0 [10485760; 1024; 1024]))
  = map header_of [10485760; 1024; 1024].
Proof.
  intros rt cfg.
  apply (complete_loop_headers_in_order rt cfg 0%nat [10485760; 1024; 1024]).
  reflexivity.
Defined.

(** ** A report without rounds *)

Section NoRounds.

Context {R : Type} `{DoubleOps R}.
Variable rt : runtime R.

(** X29. [--rounds] accepts 0 and negative numbers.  Then the loop body of
    a buffer size makes no iteration and no transfer, and still prints the
    report of each direction it would measure, from the initial values of
    the accumulators: under "Avg" the throughput of 0 divided by the
    number of rounds, under "Min" the throughput of 0 seconds, under
    "Max" the throughput of 1e10 seconds. *)
Theorem report_without_rounds :
  forall (cfg : config) (k : nat) (dataSize : Z) (w : bool)
         (log : list (event R)),
    bench_size rt cfg k dataSize = (Next tt, log) ->
    rounds cfg <= 0 ->
    (if w then direction cfg = HostToDevice \/ direction cfg = Both
     else direction cfg = DeviceToHost \/ direction cfg = Both) ->
    let heading := if w then "Host to Device:" else "Device to Host:" in
    let throughput (sec : R) : R :=
      match unit cfg with
      | GBps =>
          d_div (d_of_Z dataSize)
            (d_mul (d_mul (d_mul sec (d_of_Z 1024)) (d_of_Z 1024))
               (d_of_Z 1024))
      | MBps =>
          d_div (d_of_Z dataSize)
            (d_mul (d_mul sec (d_of_Z 1024)) (d_of_Z 1024))
      end in
    filter is_iteration log = []
    /\ filter is_write log = []
    /\ filter is_read log = []
    /\ stat_under heading "Avg" log
       = Some (throughput (d_div (d_of_Z 0) (d_of_Z (rounds cfg))))
    /\ stat_under heading "Min" log = Some (throughput (d_of_Z 0))
    /\ stat_under heading "Max" log
       = Some (throughput (d_of_Z 10000000000)).
Proof.
  intros cfg k dataSize w log Hrun Hrounds Hdir heading throughput.
  apply bench_size_Next in Hrun. subst log.
  assert (Hactive : active w (direction cfg) = true).
  { destruct w, Hdir as [Hd|Hd]; rewrite Hd; reflexivity. }
  assert (Hn : Z.to_nat (rounds cfg) = 0%nat) by lia.
  pose proof (size_block_iterations rt cfg k dataSize) as Hi.
  pose proof (size_block_writes rt cfg k dataSize) as Hw.
  pose proof (size_block_reads rt cfg k dataSize) as Hr.
  rewrite Hn in Hi, Hw, Hr.
  split; [now apply length_zero_iff_nil|].
  split; [apply length_zero_iff_nil; now destruct (sends (direction cfg))|].
  split;
    [apply length_zero_iff_nil; now destruct (receives (direction cfg))|].
  destruct (report_stats cfg dataSize
              (loop_stats rt cfg k (Z.to_nat (rounds cfg)) 0 initial_stats)
              w Hactive) as (Havg & Hmin & Hmax).
  rewrite Hn in Havg, Hmin, Hmax. cbn [loop_stats] in Havg, Hmin, Hmax.
  assert (Hheading : heading_of w = heading) by reflexivity.
  assert (Hconvert : forall sec,
             convert (unit cfg) dataSize sec = throughput sec).
  { intros sec. unfold convert, throughput. now destruct (unit cfg). }
  assert (Hsum : dir_sum initial_stats w = d_of_Z 0) by now destruct w.
  assert (Hlo : dir_min initial_stats w = d_of_Z 10000000000)
    by now destruct w.
  assert (Hhi : dir_max initial_stats w = d_of_Z 0) by now destruct w.
  rewrite Hheading, Hconvert in Havg, Hmin, Hmax.
  rewrite Hsum in Havg. rewrite Hhi in Hmin. rewrite Hlo in Hmax.
  repeat split; apply stat_under_size_block; rewrite Hn; cbn [loop_stats];
    assumption.
Qed.

End NoRounds.

(** [--rounds 0] on a buffer of 1 MiB. *)
Lemma report_without_rounds_witness :
  let rt := healthy (R := float) 2147483648 always_ok
              (fun _ _ _ => 0.5%float) in
  let cfg := mkConfig 0 0 HostToDevice GBps true [1048576] in
  let log := snd (bench_size rt cfg 0 1048576) in
  filter is_iteration log = []
  /\ filter is_write log = []
  /\ filter is_read log = []
  /\ stat_under "Host to Device:" "Avg" log
     = Some (d_div (d_of_Z 1048576)
               (d_mul (d_mul (d_mul (d_div (d_of_Z 0) (d_of_Z 0))
                                (d_of_Z 1024)) (d_of_Z 1024)) (d_of_Z 1024)))
  /\ stat_under "Host to Device:" "Min" log
     = Some (d_div (d_of_Z 1048576)
               (d_mul (d_mul (d_mul (d_of_Z 0) (d_of_Z 1024)) (d_of_Z 1024))
                  (d_of_Z 1024)))
  /\ stat_under "Host to Device:" "Max" log
     = Some (d_div (d_of_Z 1048576)
               (d_mul (d_mul (d_mul (d_of_Z 10000000000) (d_of_Z 1024))
                         (d_of_Z 1024)) (d_of_Z 1024))).
Proof.
  intros rt cfg log.
  apply (report_without_rounds rt cfg 0%nat 1048576 true log).
  - reflexivity.
  - simpl. lia.
  - left. reflexivity.
Defined.

(** The same run in binary64, printed: not a number under "Avg",
    infinity under "Min". *)
Example report_of_zero_rounds :
  let rt := healthy (R := float) 2147483648 always_ok
              (fun _ _ _ => 0.5%float) in
  let log := trace (main rt Ptr64 ["gpu-pcie-bench"; "--rounds"; "0";
                                    "--sizes"; "1M";
                                    "--direction"; "host2dev"]) in
  stat_under "Host to Device:" "Avg" log = Some nan
  /\ stat_under "Host to Device:" "Min" log = Some infinity
  /\ result (main rt Ptr64 ["gpu-pcie-bench"; "--rounds"; "0";
                            "--sizes"; "1M"; "--direction"; "host2dev"])
     = Some (Exit 0).
Proof. vm_compute. repeat split; reflexivity. Qed.

(** ** The whole run *)

Section WholeRun.

Context {R : Type} `{DoubleOps R}.
Variable rt : runtime R.

(** A start-up that ends the run does so in the argument loop, or after
    it: when [get_cpu_name] throws, with exit code 1 right after a line on
    [std::cerr] in the discovery, or when the name of the device is
    empty. *)
Lemma startup_Stop (a : arch) (argv : list string) (o : outcome)
    (log : list (event R)) :
  startup rt a argv = (Stop o, log) ->
  parse_args a (tl argv) (initial_config a) = (Stop o, log)
  \/ (exists e, o = Terminate e /\ get_cpu_name (cpuinfo rt) = inl e)
  \/ (o = Exit 1
      /\ exists pre d, is_diagnostic d = true /\ log = pre ++ [d])
  \/ (o = Terminate logic_error /\ snd (device_name_size rt) = 0).
Proof.
  unfold startup. intros Hrun.
  apply bind_Stop in Hrun as [Hp|(cfg & l1 & l2 & _ & Hk & ->)];
    [now left|right].
  unfold CHECK_call, value_or_terminate in Hk.
  destruct (get_cpu_name (cpuinfo rt)) as [e|name].
  { left. exists e. cbn in Hk. inversion Hk. now split. }
  right.
  repeat match type of Hk with
         | context [if ?c then _ else _] => destruct c eqn:?
         end;
    cbn in Hk; inversion Hk; subst;
    first
      [ right; split; [reflexivity|now apply Z.eqb_eq]
      | left; split; [reflexivity|];
        match goal with
        | |- exists pre d, _ /\ ?x ++ ?y = pre ++ [d] =>
            exists (x ++ removelast y), (last y Cout_help);
            split; [reflexivity|];
            rewrite <- app_assoc; reflexivity
        end ].
Qed.

(** The events of a start-up that succeeds. *)
Lemma startup_Next_log (a : arch) (argv : list string) (cfg : config)
    (mem : Z) (log : list (event R)) :
  startup rt a argv = (Next (cfg, mem), log) ->
  exists (plog : list (event R)) (name : string),
    parse_args a (tl argv) (initial_config a) = (Next cfg, plog)
    /\ get_cpu_name (cpuinfo rt) = inr name
    /\ log = plog ++ discovery_log name mem.
Proof.
  unfold startup. intros Hrun.
  apply bind_Next in Hrun as (cfg0 & l1 & l2 & Hp & Hk & ->).
  unfold CHECK_call, value_or_terminate in Hk.
  destruct (get_cpu_name (cpuinfo rt)) as [e|name]; [discriminate|].
  repeat match type of Hk with
         | context [if ?c then _ else _] => destruct c eqn:?
         end;
    simpl in Hk; try discriminate.
  inversion Hk; subst. now exists l1, name.
Qed.


(** The run from the context to the end, for a catalog that is not
    empty. *)
Lemma run_catalog_steps (cfg : config) (catalog : list Z) :
  catalog <> [] ->
  run_catalog rt cfg catalog
  = if negb (create_context rt =? CL_SUCCESS) then
      (Stop (Exit 1),
       [Call clCreateContext;
        Cerr_status "Failed to create context" (create_context rt)])
    else if negb (create_queue rt =? CL_SUCCESS) then
      (Stop (Exit 1),
       [Call clCreateContext; Call clCreateCommandQueue;
        Cerr_status "Failed to create command queue" (create_queue rt)])
    else
      match bench_sizes rt cfg 0 catalog with
      | (Next _, blog) =>
          (Stop (Exit 0),
           [Call clCreateContext; Call clCreateCommandQueue] ++ blog
           ++ [Call clReleaseCommandQueue; Call clReleaseContext])
      | (Stop o, blog) =>
          (Stop o, [Call clCreateContext; Call clCreateCommandQueue] ++ blog)
      end.
Proof.
  intros Hne. destruct catalog as [|s l]; [congruence|].
  unfold run_catalog, CHECK.
  remember (bench_sizes rt cfg 0 (s :: l)) as b eqn:Hb.
  destruct (create_context rt =? CL_SUCCESS); [|reflexivity].
  destruct (create_queue rt =? CL_SUCCESS); [|reflexivity].
  destruct b as [[[]|o] blog]; cbn; rewrite ?app_nil_r; reflexivity.
Qed.

(** X19. How a run ends and what it wrote last.  A run that ends with an
    exit code ends with 0 or with 1.  It ends with 0 only right after the
    help, the version, or the release of the context.  It ends with 1
    only right after a line on [std::cerr], or after such a line followed
    by the help.  A run that ends in [std::terminate] has [--rounds] or
    [--device] among its arguments, or [get_cpu_name] threw, or the name of
    the device has size 0. *)
Theorem exit_code_and_last_output :
  forall (a : arch) (argv : list string) (o : outcome)
         (log : list (event R)),
    main rt a argv = (Stop o, log) ->
    match o with
    | Exit code =>
        (code = 0
         /\ exists pre e,
             log = pre ++ [e]
             /\ (e = Cout_help \/ e = Cout_version
                 \/ e = Call clReleaseContext))
        \/ (code = 1
            /\ exists pre d,
                is_diagnostic d = true
                /\ (log = pre ++ [d] \/ log = pre ++ [d; Cout_help]))
    | Terminate e =>
        In "--rounds" (tl argv) \/ In "--device" (tl argv)
        \/ get_cpu_name (cpuinfo rt) = inl e
        \/ (e = logic_error /\ snd (device_name_size rt) = 0)
    end.
Proof.
  intros a argv o log Hrun. unfold main in Hrun.
  apply bind_Stop in Hrun as [Hstart|(r & slog & l2 & Hstart & Hcat & ->)].
  - apply startup_Stop in Hstart
      as [Hp|[(e & -> & He)|[(-> & pre & d & Hd & ->)|(-> & Hsize)]]].
    + apply (parse_args_ends a (List.length (tl argv))) in Hp; [|apply le_n].
      destruct o as [code|e]; unfold loop_end in Hp.
      * destruct Hp as [(-> & pre & [[-> _]|[-> _]])
                       |(-> & pre & text & [->| ->])].
        -- left. split; [reflexivity|]. exists pre, Cout_help. auto.
        -- left. split; [reflexivity|]. exists pre, Cout_version. auto.
        -- right. split; [reflexivity|]. exists pre, (Cerr text). auto.
        -- right. split; [reflexivity|]. exists pre, (Cerr text). auto.
      * destruct Hp as [Hp|Hp]; auto.
    + auto.
    + right. split; [reflexivity|]. exists pre, d. auto.
    + auto.
  - destruct r as [cfg mem]. cbn [fst snd] in Hcat.
    destruct (select_sizes a cfg mem) as [|s l] eqn:Hsel.
    { cbn in Hcat. inversion Hcat; subst.
      right. split; [reflexivity|].
      exists slog, (Cerr empty_catalog_message). auto. }
    rewrite <- Hsel in *.
    rewrite run_catalog_steps in Hcat by (rewrite Hsel; discriminate).
    destruct (create_context rt =? CL_SUCCESS); cbn [negb] in Hcat.
    2:{ inversion Hcat; subst. right. split; [reflexivity|].
        exists (slog ++ [Call clCreateContext]),
               (Cerr_status "Failed to create context" (create_context rt)).
        split; [|left; rewrite <- app_assoc]; reflexivity. }
    destruct (create_queue rt =? CL_SUCCESS); cbn [negb] in Hcat.
    2:{ inversion Hcat; subst. right. split; [reflexivity|].
        exists (slog ++ [Call clCreateContext; Call clCreateCommandQueue]),
               (Cerr_status "Failed to create command queue"
                  (create_queue rt)).
        split; [|left; rewrite <- app_assoc]; reflexivity. }
    destruct (bench_sizes rt cfg 0 (select_sizes a cfg mem))
      as [[[]|o'] blog] eqn:Hbench.
    + inversion Hcat; subst. left. split; [reflexivity|].
      exists (slog ++ [Call clCreateContext; Call clCreateCommandQueue]
              ++ blog ++ [Call clReleaseCommandQueue]),
             (Call clReleaseContext).
      split; [|auto]. rewrite <- !app_assoc. reflexivity.
    + inversion Hcat; subst.
      destruct (bench_sizes_Stop_last rt cfg _ _ _ _ Hbench)
        as (-> & pre & d & Hd & ->).
      right. split; [reflexivity|].
      exists (slog ++ [Call clCreateContext; Call clCreateCommandQueue]
              ++ pre), d.
      split; [exact Hd|left]. rewrite <- !app_assoc. reflexivity.
Qed.

(** X20. A run that ends with exit code 0 without [--help] or [--version]
    among the arguments went through everything: the argument loop and the
    discovery, the context and the queue, one complete block for every
    size of the catalog, which is not empty, and the release of the queue
    and of the context. *)
Theorem exit_0_means_every_size_was_run :
  forall (a : arch) (argv : list string) (log : list (event R)),
    main rt a argv = (Stop (Exit 0), log) ->
    ~ In "--help" (tl argv) ->
    ~ In "--version" (tl argv) ->
    exists (cfg : config) (plog : list (event R)) (name : string),
      parse_args a (tl argv) (initial_config a) = (Next cfg, plog)
      /\ get_cpu_name (cpuinfo rt) = inr name
      /\ select_sizes a cfg (snd (device_mem_size rt)) <> []
      /\ log = plog
               ++ discovery_log name (snd (device_mem_size rt))
               ++ [Call clCreateContext; Call clCreateCommandQueue]
               ++ size_blocks rt cfg 0
                    (select_sizes a cfg (snd (device_mem_size rt)))
               ++ [Call clReleaseCommandQueue; Call clReleaseContext].
Proof.
  intros a argv log Hrun Hhelp Hversion. unfold main in Hrun.
  apply bind_Stop in Hrun as [Hstart|(r & slog & l2 & Hstart & Hcat & ->)].
  - exfalso.
    apply startup_Stop in Hstart
      as [Hp|[(e & Ho & _)|[(Ho & _)|(Ho & _)]]]; try discriminate.
    apply (parse_args_ends a (List.length (tl argv))) in Hp; [|apply le_n].
    destruct Hp as [[_ (pre & [[_ Hin]|[_ Hin]])]|[Hc _]];
      [now apply Hhelp|now apply Hversion|discriminate].
  - destruct r as [cfg mem]. cbn [fst snd] in Hcat.
    pose proof (startup_Next rt a argv cfg mem slog Hstart)
      as (_ & Hmem & _).
    apply startup_Next_log in Hstart as (plog & name & Hparse & Hname & ->).
    subst mem. set (mem := snd (device_mem_size rt)) in *.
    exists cfg, plog, name. split; [exact Hparse|]. split; [exact Hname|].
    destruct (select_sizes a cfg mem) as [|s l] eqn:Hsel;
      [simpl in Hcat; discriminate|].
    split; [discriminate|]. rewrite <- Hsel in *.
    rewrite run_catalog_steps in Hcat by (rewrite Hsel; discriminate).
    destruct (create_context rt =? CL_SUCCESS); [|discriminate].
    destruct (create_queue rt =? CL_SUCCESS); [|discriminate].
    cbn [negb] in Hcat.
    destruct (bench_sizes rt cfg 0 (select_sizes a cfg mem))
      as [[[]|o] blog] eqn:Hbench.
    + apply bench_sizes_complete in Hbench as Hblog. subst blog.
      inversion Hcat; subst l2. rewrite <- !app_assoc. reflexivity.
    + apply bench_sizes_Stop_code in Hbench as Ho. subst o. discriminate.
Qed.

End WholeRun.

Lemma exit_0_means_every_size_was_run_witness :
  let rt := healthy (R := Q) 2147483648 always_ok (fun _ _ _ => 1%Q) in
  let argv := ["gpu-pcie-bench"; "--rounds"; "1"; "--sizes"; "1K,x"] in
  exists (cfg : config) (plog : list (event Q)) (name : string),
    parse_args Ptr64 (tl argv) (initial_config Ptr64) = (Next cfg, plog)
    /\ get_cpu_name (cpuinfo rt) = inr name
    /\ select_sizes Ptr64 cfg (snd (device_mem_size rt)) <> []
    /\ snd (main rt Ptr64 argv)
       = plog
         ++ discovery_log name (snd (device_mem_size rt))
         ++ [Call clCreateContext; Call clCreateCommandQueue]
         ++ size_blocks rt cfg 0
              (select_sizes Ptr64 cfg (snd (device_mem_size rt)))
         ++ [Call clReleaseCommandQueue; Call clReleaseContext].
Proof.
  intros rt argv.
  apply (exit_0_means_every_size_was_run rt Ptr64 argv
           (snd (main rt Ptr64 argv))).
  - reflexivity.
  - simpl. intuition discriminate.
  - simpl. intuition discriminate.
Defined.


(** Two start-ups that end in [std::terminate]: a line of /proc/cpuinfo
    that ends with the colon after "model name", and a device whose name
    has size 0. *)
Example startup_terminates :
  let no_name := mkRuntime Q ["processor : 0"; "model name:"]
              (CL_SUCCESS, 1) CL_SUCCESS (CL_SUCCESS, 1) CL_SUCCESS
              (CL_SUCCESS, 16) CL_SUCCESS (CL_SUCCESS, 2147483648)
              (fun _ => CL_SUCCESS)
              CL_SUCCESS CL_SUCCESS
              (fun _ _ => CL_SUCCESS) (fun _ _ => CL_SUCCESS)
              (fun _ _ _ => (CL_SUCCESS, 1%Q)) in
  let empty_name := mkRuntime Q example_cpuinfo
              (CL_SUCCESS, 1) CL_SUCCESS (CL_SUCCESS, 1) CL_SUCCESS
              (CL_SUCCESS, 0) CL_SUCCESS (CL_SUCCESS, 2147483648)
              (fun _ => CL_SUCCESS)
              CL_SUCCESS CL_SUCCESS
              (fun _ _ => CL_SUCCESS) (fun _ _ => CL_SUCCESS)
              (fun _ _ _ => (CL_SUCCESS, 1%Q)) in
  main no_name Ptr64 ["gpu-pcie-bench"] = (Stop (Terminate out_of_range), [])
  /\ main empty_name Ptr64 ["gpu-pcie-bench"]
     = (Stop (Terminate logic_error),
        [ Cout_cpu "Example CPU";
          Call clGetPlatformIDs; Call clGetPlatformIDs;
          Call clGetDeviceIDs; Call clGetDeviceIDs;
          Call clGetDeviceInfo; Call clGetDeviceInfo;
          Call clGetDeviceInfo ]).
Proof. split; reflexivity. Qed.

(** An unknown argument: the diagnostic, then the help, exit code 1. *)
Lemma exit_code_and_last_output_witness :
  let rt := healthy (R := Q) 2147483648 always_ok (fun _ _ _ => 1%Q) in
  (1 = 0
   /\ exists pre e,
       [Cerr "Unknown argument: --fast"; Cout_help] = pre ++ [e]
       /\ (e = Cout_help \/ e = Cout_version
           \/ e = @Call Q clReleaseContext))
  \/ (1 = 1
      /\ exists pre d,
          is_diagnostic d = true
          /\ ([Cerr "Unknown argument: --fast"; Cout_help] = pre ++ [d]
              \/ [Cerr "Unknown argument: --fast"; Cout_help]
                 = pre ++ [d; @Cout_help Q])).
Proof.
  intros rt.
  apply (exit_code_and_last_output rt Ptr64 ["gpu-pcie-bench"; "--fast"]
           (Exit 1) [Cerr "Unknown argument: --fast"; Cout_help]).
  reflexivity.
Defined.

(** ** Order of the samples *)

Section SampleOrder.

Context {R : Type} `{OrderedDouble R}.

(** X21. The extremes do not depend on the order of the samples: two
    sequences with the same samples leave a maximum and a minimum that
    the comparison does not tell apart. *)
Theorem extremes_do_not_depend_on_order :
  forall (l l' : list R) (lo hi : R),
    Permutation l l' ->
    d_ltb (fold_left std_max l hi) (fold_left std_max l' hi) = false
    /\ d_ltb (fold_left std_max l' hi) (fold_left std_max l hi) = false
    /\ d_ltb (fold_left std_min l lo) (fold_left std_min l' lo) = false
    /\ d_ltb (fold_left std_min l' lo) (fold_left std_min l lo) = false.
Proof.
  assert (Hmax : forall (l l' : list R) (hi : R),
            Permutation l l' ->
            d_ltb (fold_left std_max l hi) (fold_left std_max l' hi) = false).
  { intros l l' hi Hperm.
    destruct (fold_max_choice l' hi) as [Heq|Hin].
    - rewrite Heq. apply fold_max_not_below, d_ltb_irrefl.
    - apply fold_max_upper.
      now apply (Permutation_in _ (Permutation_sym Hperm)). }
  assert (Hmin : forall (l l' : list R) (lo : R),
            Permutation l l' ->
            d_ltb (fold_left std_min l lo) (fold_left std_min l' lo) = false).
  { intros l l' lo Hperm.
    destruct (fold_min_choice l lo) as [Heq|Hin].
    - rewrite Heq. apply fold_min_not_above, d_ltb_irrefl.
    - apply fold_min_lower. now apply (Permutation_in _ Hperm). }
  intros l l' lo hi Hperm.
  pose proof (Permutation_sym Hperm) as Hsym. auto.
Qed.

End SampleOrder.

Lemma extremes_do_not_depend_on_order_witness :
  let l := [0.5; 0.25; 0.125]%float in
  let l' := [0.25; 0.5; 0.125]%float in
  d_ltb (fold_left std_max l 0%float) (fold_left std_max l' 0%float) = false
  /\ d_ltb (fold_left std_max l' 0%float) (fold_left std_max l 0%float) = false
  /\ d_ltb (fold_left std_min l 1e10%float) (fold_left std_min l' 1e10%float)
     = false
  /\ d_ltb (fold_left std_min l' 1e10%float) (fold_left std_min l 1e10%float)
     = false.
Proof.
  intros l l'.
  apply (extremes_do_not_depend_on_order l l' 1e10%float 0%float).
  apply perm_swap.
Defined.

(** The sum does depend on the order in binary64: the same three samples
    in two orders. *)
Example binary64_sum_depends_on_order :
  fold_left d_add [0x1p53; 1; 1]%float 0%float = 0x1p53%float
  /\ fold_left d_add [1; 1; 0x1p53]%float 0%float = 0x1.0000000000001p53%float.
Proof. split; reflexivity. Qed.

Section ExactSums.

Local Open Scope Q_scope.

Lemma fold_sum_shift (l : list Q) :
  forall acc : Q, fold_left Qplus l acc == acc + fold_left Qplus l 0.
Proof.
  induction l as [|s l IH]; intros acc; cbn [fold_left]; [ring|].
  rewrite (IH (acc + s)), (IH (0 + s)). ring.
Qed.

Lemma fold_sum_perm (l l' : list Q) :
  Permutation l l' -> fold_left Qplus l 0 == fold_left Qplus l' 0.
Proof.
  intros Hperm.
  induction Hperm as [|x l l' _ IH|x y l|l l' l'' _ IH1 _ IH2].
  - reflexivity.
  - cbn [fold_left]. rewrite (fold_sum_shift l), (fold_sum_shift l'), IH.
    reflexivity.
  - cbn [fold_left].
    rewrite (fold_sum_shift l (0 + y + x)), (fold_sum_shift l (0 + x + y)).
    ring.
  - now rewrite IH1.
Qed.

(** X22. In exact arithmetic the sum the round loop accumulates, and with
    it the average it reports, does not depend on the order of the
    samples: two runs whose transfers of one size and one active direction
    give the same samples in a different order leave the same sum and
    print the same value under [Avg]. *)
Theorem exact_sum_does_not_depend_on_order :
  forall (rt rt' : runtime Q) (cfg : config) (k n : nat) (w : bool)
         (dataSize : Z),
    active w (direction cfg) = true ->
    Permutation (samples rt k 0 n w) (samples rt' k 0 n w) ->
    dir_sum (loop_stats rt cfg k n 0 initial_stats) w
    == dir_sum (loop_stats rt' cfg k n 0 initial_stats) w
    /\ exists avg avg' : Q,
        stat_under (heading_of w) "Avg"
          (report cfg dataSize (loop_stats rt cfg k n 0 initial_stats))
        = Some avg
        /\ stat_under (heading_of w) "Avg"
             (report cfg dataSize (loop_stats rt' cfg k n 0 initial_stats))
           = Some avg'
        /\ avg == avg'.
Proof.
  intros rt rt' cfg k n w dataSize Ha Hperm.
  assert (Hsum : dir_sum (loop_stats rt cfg k n 0 initial_stats) w
                 == dir_sum (loop_stats rt' cfg k n 0 initial_stats) w).
  { destruct (loop_stats_active rt cfg k w n Ha 0%nat initial_stats)
      as (-> & _ & _).
    destruct (loop_stats_active rt' cfg k w n Ha 0%nat initial_stats)
      as (-> & _ & _).
    replace (dir_sum initial_stats w) with 0 by (now destruct w).
    now apply fold_sum_perm. }
  split; [exact Hsum|].
  destruct (report_stats cfg dataSize
              (loop_stats rt cfg k n 0 initial_stats) w Ha) as (Hav & _).
  destruct (report_stats cfg dataSize
              (loop_stats rt' cfg k n 0 initial_stats) w Ha) as (Hav' & _).
  eexists _, _. split; [exact Hav|]. split; [exact Hav'|].
  unfold convert. destruct (unit cfg); cbn [d_div d_mul d_of_Z exact];
    now rewrite Hsum.
Qed.

(** X23. In exact arithmetic the two units differ by the factor 1024: for
    a time that is not zero, the value in MB/s is 1024 times the value in
    GB/s. *)
Theorem exact_units_differ_by_1024 :
  forall (dataSize : Z) (sec : Q),
    ~ sec == 0 ->
    convert MBps dataSize sec == 1024 * convert GBps dataSize sec.
Proof. intros dataSize sec Hsec. simpl. field. exact Hsec. Qed.

End ExactSums.

Lemma exact_sum_does_not_depend_on_order_witness :
  let quick_first : runtime Q :=
    healthy 0 always_ok
      (fun _ i _ => match i with O => 1 # 4 | _ => 1 # 2 end)%Q in
  let slow_first : runtime Q :=
    healthy 0 always_ok
      (fun _ i _ => match i with O => 1 # 2 | _ => 1 # 4 end)%Q in
  let cfg := initial_config Ptr64 in
  (dir_sum (loop_stats quick_first cfg 0 2 0 initial_stats) true
   == dir_sum (loop_stats slow_first cfg 0 2 0 initial_stats) true)%Q
  /\ exists avg avg' : Q,
      stat_under (heading_of true) "Avg"
        (report cfg 1048576 (loop_stats quick_first cfg 0 2 0 initial_stats))
      = Some avg
      /\ stat_under (heading_of true) "Avg"
           (report cfg 1048576
              (loop_stats slow_first cfg 0 2 0 initial_stats))
         = Some avg'
      /\ (avg == avg')%Q.
Proof.
  apply exact_sum_does_not_depend_on_order.
  - reflexivity.
  - apply perm_swap.
Defined.

Lemma exact_units_differ_by_1024_witness :
  (convert MBps 1048576 (1 # 2) == 1024 * convert GBps 1048576 (1 # 2))%Q.
Proof.
  apply (exact_units_differ_by_1024 1048576 (1 # 2))%Q. discriminate.
Defined.

(** In binary64 the same holds on these values: 2 MB/s is 1024 times
    0.001953125 GB/s. *)
Example binary64_units :
  convert MBps 1048576 0.5%float = 2%float
  /\ convert GBps 1048576 0.5%float = 0x1p-9%float.
Proof. split; reflexivity. Qed.

(** ** get_cpu_name *)

Section CpuName.

Lemma str_find_colon (pre tail : string) :
  has_char ":" pre = false ->
  str_find ":" (pre ++ String ":" tail) = Some (String.length pre).
Proof.
  induction pre as [|c r IH]; intros Hpre.
  - cbn [String.append str_find String.prefix String.length].
    destruct (ascii_dec ":" ":") as [_|Hne]; [|congruence].
    destruct tail; reflexivity.
  - cbn [has_char] in Hpre. apply orb_false_iff in Hpre as [Hc Hr].
    cbn [String.append str_find String.prefix String.length].
    destruct (ascii_dec ":" c) as [Heq|_].
    + subst c. discriminate Hc.
    + now rewrite (IH Hr).
Qed.

Lemma str_substr_append (pre s : string) (n : nat) :
  str_substr (pre ++ s) (String.length pre + n) = str_substr s n.
Proof.
  induction pre as [|c r IH]; [reflexivity|].
  cbn [String.append String.length Nat.add str_substr]. exact IH.
Qed.

Lemma get_cpu_name_skips (skipped : list string) (lines : list string) :
  Forall passed_over skipped ->
  get_cpu_name (skipped ++ lines) = get_cpu_name lines.
Proof.
  induction 1 as [|line t Hline _ IH]; [reflexivity|].
  cbn [app get_cpu_name]. destruct Hline as [Hm|Hc].
  - now rewrite Hm.
  - rewrite Hc. now destruct (str_find "model name" line).
Qed.

(** X24. [get_cpu_name] answers "Unknown CPU" when no line of the file
    has both the text "model name" and a colon; this covers the file that
    is empty or cannot be opened. *)
Theorem get_cpu_name_unknown :
  forall lines : list string,
    Forall passed_over lines ->
    get_cpu_name lines = inr "Unknown CPU".
Proof.
  intros lines Hlines.
  rewrite <- (app_nil_r lines). now rewrite get_cpu_name_skips.
Qed.

(** X25. [get_cpu_name] answers from the first line that has "model name"
    and a colon: it drops everything up to the first colon and the one
    character after it, whatever that character is.  When the colon is the
    last character of that line, [substr] throws [std::out_of_range]. *)
Theorem get_cpu_name_first_match :
  forall (skipped rest : list string) (pre tail : string),
    Forall passed_over skipped ->
    str_find "model name" (pre ++ String ":" tail) <> None ->
    has_char ":" pre = false ->
    get_cpu_name (skipped ++ (pre ++ String ":" tail)%string :: rest)
    = match tail with
      | EmptyString => inl out_of_range
      | String _ name => inr name
      end.
Proof.
  intros skipped rest pre tail Hskipped Hmodel Hpre.
  rewrite get_cpu_name_skips by exact Hskipped.
  cbn [get_cpu_name].
  destruct (str_find "model name" (pre ++ String ":" tail)) as [pos|];
    [|congruence].
  rewrite (str_find_colon pre tail Hpre), str_substr_append.
  destruct tail; reflexivity.
Qed.

End CpuName.

Lemma get_cpu_name_unknown_witness :
  get_cpu_name ["processor : 0"; "model name"; "flags : fpu"]
  = inr "Unknown CPU".
Proof.
  apply (get_cpu_name_unknown ["processor : 0"; "model name"; "flags : fpu"]).
  constructor; [left; reflexivity|].
  constructor; [right; reflexivity|].
  constructor; [left; reflexivity|]. constructor.
Defined.

Lemma get_cpu_name_first_match_witness :
  get_cpu_name (["processor : 0"; "vendor_id : X"]
                ++ ("model name   " ++ String ":" " Fast CPU @ 3GHz")%string
                   :: ["model name : other"])
  = inr "Fast CPU @ 3GHz".
Proof.
  apply (get_cpu_name_first_match ["processor : 0"; "vendor_id : X"]
           ["model name : other"] "model name   " " Fast CPU @ 3GHz").
  - constructor; [left; reflexivity|].
    constructor; [left; reflexivity|]. constructor.
  - discriminate.
  - reflexivity.
Defined.

Example get_cpu_name_edge_cases :
  get_cpu_name [] = inr "Unknown CPU"
  /\ get_cpu_name ["model name:"] = inl out_of_range
  /\ get_cpu_name ["model name:Zen"] = inr "en"
  /\ get_cpu_name ["cpu: model name"] = inr "model name".
Proof. repeat split; reflexivity. Qed.

(** ** The device index *)

Section DeviceIndex.

Context {R : Type} `{DoubleOps R}.
Variable rt : runtime R.

Lemma unsigned_index_check (t n : Z) :
  INT_MIN <= t <= INT_MAX -> 0 < n <= 2 ^ 31 ->
  (t mod 2 ^ 32 >=? n) = negb ((0 <=? t) && (t <? n)).
Proof.
  unfold INT_MIN, INT_MAX. intros Ht Hn.
  destruct (Z.leb_spec 0 t) as [Hpos|Hneg]; cbn [andb].
  - rewrite Z.mod_small by lia.
    destruct (Z.geb_spec t n), (Z.ltb_spec t n); try reflexivity; lia.
  - assert (Hmod : t mod 2 ^ 32 = t + 2 ^ 32).
    { symmetry. apply (Z.mod_unique_pos _ _ (-1)); lia. }
    rewrite Hmod. cbn [negb].
    destruct (Z.geb_spec (t + 2 ^ 32) n); [reflexivity|lia].
Qed.

(** X26. After the name of the CPU has been printed and the platform and
    the devices have been enumerated, the device index chosen on the
    command line is used only when it is between 0 and the number of
    devices: the run goes on to query the device.  Any other index, a
    negative one included (the comparison is unsigned), ends the run with
    exit code 1 and its own diagnostic, before any device query. *)
Theorem device_index_is_checked :
  forall (a : arch) (argv : list string) (cfg : config)
         (plog : list (event R)) (name : string),
    parse_args a (tl argv) (initial_config a) = (Next cfg, plog) ->
    get_cpu_name (cpuinfo rt) = inr name ->
    fst (platform_count rt) = CL_SUCCESS ->
    snd (platform_count rt) <> 0 ->
    platform_ids rt = CL_SUCCESS ->
    fst (device_count rt) = CL_SUCCESS ->
    0 < snd (device_count rt) <= 2 ^ 31 ->
    device_ids rt = CL_SUCCESS ->
    (0 <= targetDevice cfg < snd (device_count rt) ->
     In (Call clGetDeviceInfo) (trace (startup rt a argv)))
    /\ (~ 0 <= targetDevice cfg < snd (device_count rt) ->
        startup rt a argv
        = (Stop (Exit 1),
           plog ++ [ Cout_cpu name;
                     Call clGetPlatformIDs; Call clGetPlatformIDs;
                     Call clGetDeviceIDs; Call clGetDeviceIDs;
                     Cerr_device (targetDevice cfg) ])).
Proof.
  intros a argv cfg plog name Hparse Hname Hpc Hnp Hpi Hdc Hnd Hdi.
  assert (Hint : INT_MIN <= targetDevice cfg <= INT_MAX).
  { destruct (parse_args_fields a (List.length (tl argv)) (tl argv)
                (initial_config a) cfg plog (le_n _) Hparse)
      as (_ & _ & _ & _ & _ & _ & H7).
    apply H7. unfold INT_MIN, INT_MAX. simpl. lia. }
  pose proof (unsigned_index_check _ _ Hint Hnd) as Hcheck.
  unfold startup, trace. rewrite Hparse, bind_of_Next.
  unfold CHECK_call, value_or_terminate.
  rewrite Hname, Hpc, Hpi, Hdc, Hdi. cbn [Z.eqb CL_SUCCESS].
  destruct (Z.eqb_spec (snd (platform_count rt)) 0) as [Hz|_]; [congruence|].
  destruct (Z.eqb_spec (snd (device_count rt)) 0) as [Hz|_]; [lia|].
  rewrite Hcheck.
  split; intros Hidx.
  - assert (Hok : (0 <=? targetDevice cfg)
                  && (targetDevice cfg <? snd (device_count rt)) = true).
    { apply andb_true_iff. split; [apply Z.leb_le|apply Z.ltb_lt]; lia. }
    rewrite Hok. cbn [negb].
    destruct (fst (device_name_size rt) =? CL_SUCCESS),
             (device_name rt =? CL_SUCCESS),
             (fst (device_mem_size rt) =? CL_SUCCESS),
             (snd (device_name_size rt) =? 0);
      cbn; apply in_or_app; right; cbn;
      repeat ((left; reflexivity) || right).
  - assert (Hko : (0 <=? targetDevice cfg)
                  && (targetDevice cfg <? snd (device_count rt)) = false).
    { apply andb_false_iff.
      destruct (Z.leb_spec 0 (targetDevice cfg)); [right|now left].
      apply Z.ltb_ge. lia. }
    rewrite Hko. reflexivity.
Qed.

End DeviceIndex.

Lemma device_index_is_checked_witness :
  let rt := healthy (R := Q) 2147483648 always_ok (fun _ _ _ => 1%Q) in
  let argv := ["gpu-pcie-bench"; "--device"; "-1"] in
  let cfg := mkConfig 100 (-1) Both GBps false (default_sizes Ptr64) in
  (0 <= targetDevice cfg < snd (device_count rt) ->
   In (Call clGetDeviceInfo) (trace (startup rt Ptr64 argv)))
  /\ (~ 0 <= targetDevice cfg < snd (device_count rt) ->
      startup rt Ptr64 argv
      = (Stop (Exit 1),
         [] ++ [ Cout_cpu "Example CPU";
                 Call clGetPlatformIDs; Call clGetPlatformIDs;
                 Call clGetDeviceIDs; Call clGetDeviceIDs;
                 Cerr_device (targetDevice cfg) ])).
Proof.
  intros rt argv cfg.
  apply (device_index_is_checked rt Ptr64 argv cfg [] "Example CPU");
    try reflexivity.
  - discriminate.
  - simpl. lia.
Defined.

(** ** Arguments read one after the other *)

Section ArgumentsCompose.

Context {R : Type}.

(** X27. Arguments are read from left to right and compose: when the
    argument loop runs to its end on a first list of arguments, the loop
    on that list followed by a second one is the loop on the second one
    started from the configuration the first one left, after the output
    of the first.  So the last occurrence of an option decides. *)
Theorem parse_args_app :
  forall (a : arch) (args1 args2 : list string) (cfg cfg1 : config)
         (l1 : list (event R)),
    parse_args a args1 cfg = (Next cfg1, l1) ->
    parse_args a (args1 ++ args2) cfg
    = bind (Next cfg1, l1) (parse_args a args2).
Proof.
  intros a args1 args2 cfg cfg1 l1 Hrun.
  now apply (parse_args_app_bounded a args2 (List.length args1)).
Qed.

End ArgumentsCompose.

Lemma parse_args_app_witness :
  parse_args (R := Q) Ptr64
    (["--rounds"; "5"; "--sizes"; "x"] ++ ["--rounds"; "7"])
    (initial_config Ptr64)
  = bind (Next (mkConfig 5 0 Both GBps true []), [Cerr "Invalid size: x"])
      (parse_args Ptr64 ["--rounds"; "7"]).
Proof.
  apply (parse_args_app (R := Q) Ptr64 ["--rounds"; "5"; "--sizes"; "x"]
           ["--rounds"; "7"]).
  reflexivity.
Defined.

Example last_rounds_wins :
  fst (parse_args (R := Q) Ptr64
         ["--rounds"; "5"; "--sizes"; "x"; "--rounds"; "7"]
         (initial_config Ptr64))
  = Next (mkConfig 7 0 Both GBps true []).
Proof. reflexivity. Qed.
